(** * HLX wire formats and shader store: a shallow embedding

    The development follows the Python sources of the HLX runtime:

    - [hlx_lcb_client.py]: LEB128 integers and the LC-B batch builder;
    - [shaderdb.py]: the content-addressed shader database;
    - [lc_t_codec.py]: the ASCII text codec LC-T;
    - [lc_r_codec.py] and [glyphs.py]: the glyph codec LC-R.

    Python integers are unbounded, so they are values of [Z]; a [bytes]
    object is a list of integers in the range 0..255; a [str] is a list of
    Unicode code points.  A call that may raise returns an [outcome]. *)

From Stdlib Require Import ZArith Lia List Ascii String.
From stdpp Require Import gmap strings list fin_maps.

Local Open Scope Z_scope.

(** ** Shared data *)

(** A Python [bytes] or [bytearray] value. *)
Definition bytes := list Z.

(** The outcome of a call that may raise. *)
Inductive outcome (E A : Type) : Type :=
| Ok (a : A)
| Raise (e : E).
Arguments Ok {E A} a.
Arguments Raise {E A} e.

(** Sequencing: [x ← e; k] runs [k] on the value of [e] and propagates what
    [e] raises. *)
Global Instance outcome_bind {E} : MBind (outcome E) :=
  λ A B k r, match r with Ok a => k a | Raise e => Raise e end.


(** A loop that collects the results of [f] on the elements of a list and
    stops at the first that raises. *)
Section for_each.
Context {E A B : Type} (f : A → outcome E B).

Fixpoint for_each (l : list A) : outcome E (list B) :=
  match l with
  | [] => Ok []
  | x :: l => y ← f x; ys ← for_each l; Ok (y :: ys)
  end.

End for_each.

(** ** LEB128 integers ([hlx_lcb_client.py]) *)

Module LEB128.

(** The exception of [data[offset]] past the end of [data]. *)
Inductive error := IndexError.

(** One turn of the [while True] loop of [encode_leb128_u32]; [fuel] bounds
    the number of turns and [None] means the bound was reached. *)
Fixpoint encode_u32_loop (fuel : nat) (value : Z) (result : bytes) : option bytes :=
  match fuel with
  | O => None
  | S fuel =>
      let byte := Z.land value 0x7F in
      let value := Z.shiftr value 7 in
      let byte := if negb (value =? 0) then Z.lor byte 0x80 else byte in
      let result := result ++ [byte] in
      if value =? 0 then Some result else encode_u32_loop fuel value result
  end.

(** [encode_leb128_u32].  A non-negative value of [n] bits leaves the loop
    after at most [n] turns; on a negative value the loop never exits
    (lemma [encode_u32_loop_negative]) and the model answers [None]. *)
Definition encode_leb128_u32 (value : Z) : option bytes :=
  encode_u32_loop (Z.to_nat (Z.log2 value) + 2) value [].

(** One turn of the loop of [encode_leb128_i64]. *)
Fixpoint encode_i64_loop (fuel : nat) (negative : bool) (value : Z) (result : bytes)
  : option bytes :=
  match fuel with
  | O => None
  | S fuel =>
      let byte := Z.land value 0x7F in
      let value := Z.shiftr value 7 in
      let more :=
        if negative
        then negb (value =? -1) || (Z.land byte 0x40 =? 0)
        else negb (value =? 0) || negb (Z.land byte 0x40 =? 0) in
      let byte := if more then Z.lor byte 0x80 else byte in
      let result := result ++ [byte] in
      if more then encode_i64_loop fuel negative value result else Some result
  end.

(** [encode_leb128_i64]; the fuel covers every integer
    (lemma [encode_leb128_i64_total]). *)
Definition encode_leb128_i64 (value : Z) : option bytes :=
  encode_i64_loop (Z.to_nat (Z.log2 (Z.abs value)) + 2) (value <? 0) value [].

(** The loop of [decode_leb128_u32], reading the bytes [rest] that start at
    [offset]; [data[offset]] past the end raises [IndexError]. *)
Fixpoint decode_u32_loop (rest : bytes) (result shift : Z) (offset : nat)
    : outcome error (Z * nat) :=
  match rest with
  | [] => Raise IndexError
  | byte :: rest =>
      let offset := S offset in
      let result := Z.lor result (Z.shiftl (Z.land byte 0x7F) shift) in
      if Z.land byte 0x80 =? 0 then Ok (result, offset)
      else decode_u32_loop rest result (shift + 7) offset
  end.

(** [decode_leb128_u32].  Callers pass offsets counted from the start of
    [data], so the offset is a natural number. *)
Definition decode_leb128_u32 (data : bytes) (offset : nat)   : outcome error (Z * nat) :=
  decode_u32_loop (drop offset data) 0 0 offset.

(** The loop of [decode_leb128_i64]; it also hands back the shift reached
    and the last byte read, which the sign extension inspects. *)
Fixpoint decode_i64_loop (rest : bytes) (result shift : Z) (offset : nat)
    : outcome error (Z * Z * Z * nat) :=
  match rest with
  | [] => Raise IndexError
  | byte :: rest =>
      let offset := S offset in
      let result := Z.lor result (Z.shiftl (Z.land byte 0x7F) shift) in
      let shift := shift + 7 in
      if Z.land byte 0x80 =? 0 then Ok (result, shift, byte, offset)
      else decode_i64_loop rest result shift offset
  end.

(** [decode_leb128_i64]: the loop, then the sign extension
    [result |= (~0 << shift)] under the guard [shift < 64 and (byte & 0x40)]. *)
Definition decode_leb128_i64 (data : bytes) (offset : nat)   : outcome error (Z * nat) :=
  match decode_i64_loop (drop offset data) 0 0 offset with
  | Raise e => Raise e
  | Ok (result, shift, byte, offset) =>
      let result :=
        if (shift <? 64) && negb (Z.land byte 0x40 =? 0)
        then Z.lor result (Z.shiftl (Z.lnot 0) shift)
        else result in
      Ok (result, offset)
  end.

End LEB128.

(** ** Digests of [hashlib]

    [hashlib.sha256] and [hashlib.blake2b] belong to the Python standard
    library.  They are written out after FIPS 180-4 and RFC 7693 so that the
    builder and the shader database can be evaluated on concrete inputs. *)

Module SHA256.

Definition mask32 : Z := 0xFFFFFFFF.
Definition add32 (x y : Z) : Z := Z.land (x + y) mask32.
Definition rotr (n x : Z) : Z :=
  Z.lor (Z.shiftr x n) (Z.land (Z.shiftl x (32 - n)) mask32).

Definition Ch (x y z : Z) : Z :=
  Z.lxor (Z.land x y) (Z.land (Z.land (Z.lnot x) mask32) z).
Definition Maj (x y z : Z) : Z :=
  Z.lxor (Z.lxor (Z.land x y) (Z.land x z)) (Z.land y z).
Definition Sigma0 (x : Z) : Z := Z.lxor (Z.lxor (rotr 2 x) (rotr 13 x)) (rotr 22 x).
Definition Sigma1 (x : Z) : Z := Z.lxor (Z.lxor (rotr 6 x) (rotr 11 x)) (rotr 25 x).
Definition sigma0 (x : Z) : Z := Z.lxor (Z.lxor (rotr 7 x) (rotr 18 x)) (Z.shiftr x 3).
Definition sigma1 (x : Z) : Z := Z.lxor (Z.lxor (rotr 17 x) (rotr 19 x)) (Z.shiftr x 10).

(** The first 64 primes.  The round constants are the first 32 bits of the
    fractional parts of their cube roots; the initial state, of the square
    roots of the first eight. *)
Definition primes : list Z :=
  [2; 3; 5; 7; 11; 13; 17; 19; 23; 29; 31; 37; 41; 43; 47; 53;
   59; 61; 67; 71; 73; 79; 83; 89; 97; 101; 103; 107; 109; 113; 127; 131;
   137; 139; 149; 151; 157; 163; 167; 173; 179; 181; 191; 193; 197; 199; 211; 223;
   227; 229; 233; 239; 241; 251; 257; 263; 269; 271; 277; 281; 283; 293; 307; 311].

(** Integer cube root, one bit at a time from bit [k - 1] down. *)
Fixpoint cube_root (k : nat) (n r : Z) : Z :=
  match k with
  | O => r
  | S k =>
      let r' := r + 2 ^ Z.of_nat k in
      if r' * r' * r' <=? n then cube_root k n r' else cube_root k n r
  end.

Definition K : list Z :=
  Eval vm_compute in
    map (λ p, Z.land (cube_root 40 (p * 2 ^ 96) 0) mask32) primes.

Definition state : Type := Z * Z * Z * Z * Z * Z * Z * Z.

Definition root32 (i : nat) : Z := Z.land (Z.sqrt (nth i primes 0 * 2 ^ 64)) mask32.

Definition H0 : state :=
  Eval vm_compute in
    (root32 0, root32 1, root32 2, root32 3, root32 4, root32 5, root32 6, root32 7).

(** Big-endian bytes of a word. *)
Definition be32 (x : Z) : bytes :=
  [Z.land (Z.shiftr x 24) 0xFF; Z.land (Z.shiftr x 16) 0xFF;
   Z.land (Z.shiftr x 8) 0xFF; Z.land x 0xFF].
Definition be64 (x : Z) : bytes := be32 (Z.shiftr x 32) ++ be32 x.

Fixpoint words_be (bs : bytes) : list Z :=
  match bs with
  | a :: b :: c :: d :: rest =>
      Z.lor (Z.lor (Z.lor (Z.shiftl a 24) (Z.shiftl b 16)) (Z.shiftl c 8)) d
        :: words_be rest
  | _ => []
  end.

(** Message padding: a 1 bit, zeros, and the bit length on 64 bits. *)
Definition pad (msg : bytes) : bytes :=
  let len := Z.of_nat (length msg) in
  msg ++ [0x80] ++ replicate (Z.to_nat ((55 - len) mod 64)) 0 ++ be64 (8 * len).

(** The message schedule: [n] further words after the sixteen of the block. *)
Fixpoint extend (n : nat) (w : list Z) : list Z :=
  match n with
  | O => w
  | S n =>
      let t := length w in
      let at_ (k : nat) := nth (t - k) w 0 in
      extend n
        (w ++ [add32 (add32 (sigma1 (at_ 2%nat)) (at_ 7%nat))
                     (add32 (sigma0 (at_ 15%nat)) (at_ 16%nat))])
  end.

Definition round (s : state) (kw : Z * Z) : state :=
  let '(a, b, c, d, e, f, g, h) := s in
  let '(k, w) := kw in
  let T1 := add32 (add32 (add32 (add32 h (Sigma1 e)) (Ch e f g)) k) w in
  let T2 := add32 (Sigma0 a) (Maj a b c) in
  (add32 T1 T2, a, b, c, add32 d T1, e, f, g).

Definition compress (s : state) (block : bytes) : state :=
  let W := extend 48 (words_be block) in
  let '(a, b, c, d, e, f, g, h) := fold_left round (combine K W) s in
  let '(a0, b0, c0, d0, e0, f0, g0, h0) := s in
  (add32 a0 a, add32 b0 b, add32 c0 c, add32 d0 d,
   add32 e0 e, add32 f0 f, add32 g0 g, add32 h0 h).

Fixpoint process (fuel : nat) (s : state) (msg : bytes) : state :=
  match fuel, msg with
  | S fuel, _ :: _ => process fuel (compress s (take 64 msg)) (drop 64 msg)
  | _, _ => s
  end.

(** [hashlib.sha256(msg).digest()]. *)
Definition digest (msg : bytes) : bytes :=
  let m := pad msg in
  let '(a, b, c, d, e, f, g, h) := process (length m) H0 m in
  be32 a ++ be32 b ++ be32 c ++ be32 d ++ be32 e ++ be32 f ++ be32 g ++ be32 h.

End SHA256.

Arguments SHA256.digest : simpl never.

Module BLAKE2b.

Definition mask64 : Z := 0xFFFFFFFFFFFFFFFF.
Definition add64 (x y : Z) : Z := Z.land (x + y) mask64.
Definition rotr64 (x n : Z) : Z :=
  Z.land (Z.lor (Z.shiftr x n) (Z.shiftl x (64 - n))) mask64.

(** The initial vector: the first 64 bits of the fractional parts of the
    square roots of the first eight primes. *)
Definition IV : list Z :=
  Eval vm_compute in
    map (λ p, Z.land (Z.sqrt (p * 2 ^ 128)) mask64) (take 8 SHA256.primes).

Definition SIGMA : list (list nat) :=
  [
   [0; 1; 2; 3; 4; 5; 6; 7; 8; 9; 10; 11; 12; 13; 14; 15];
   [14; 10; 4; 8; 9; 15; 13; 6; 1; 12; 0; 2; 11; 7; 5; 3];
   [11; 8; 12; 0; 5; 2; 15; 13; 10; 14; 3; 6; 7; 1; 9; 4];
   [7; 9; 3; 1; 13; 12; 11; 14; 2; 6; 5; 10; 4; 0; 15; 8];
   [9; 0; 5; 7; 2; 4; 10; 15; 14; 1; 11; 12; 6; 8; 3; 13];
   [2; 12; 6; 10; 0; 11; 8; 3; 4; 13; 7; 5; 15; 14; 1; 9];
   [12; 5; 1; 15; 14; 13; 4; 10; 0; 7; 6; 3; 9; 2; 8; 11];
   [13; 11; 7; 14; 12; 1; 3; 9; 5; 0; 15; 4; 8; 6; 2; 10];
   [6; 15; 14; 9; 11; 3; 0; 8; 12; 2; 13; 7; 1; 4; 10; 5];
   [10; 2; 8; 4; 7; 6; 1; 5; 15; 11; 9; 14; 3; 12; 13; 0]
  ]%nat.

Definition get (v : list Z) (i : nat) : Z := nth i v 0.
Definition set (v : list Z) (i : nat) (x : Z) : list Z := <[i := x]> v.

(** The mixing function G of RFC 7693, section 3.1. *)
Definition G (v : list Z) (a b c d : nat) (x y : Z) : list Z :=
  let v := set v a (add64 (add64 (get v a) (get v b)) x) in
  let v := set v d (rotr64 (Z.lxor (get v d) (get v a)) 32) in
  let v := set v c (add64 (get v c) (get v d)) in
  let v := set v b (rotr64 (Z.lxor (get v b) (get v c)) 24) in
  let v := set v a (add64 (add64 (get v a) (get v b)) y) in
  let v := set v d (rotr64 (Z.lxor (get v d) (get v a)) 16) in
  let v := set v c (add64 (get v c) (get v d)) in
  let v := set v b (rotr64 (Z.lxor (get v b) (get v c)) 63) in
  v.

Definition mix_round (m : list Z) (v : list Z) (s : list nat) : list Z :=
  let ms (i : nat) := get m (nth i s 0%nat) in
  let v := G v 0 4 8 12 (ms 0%nat) (ms 1%nat) in
  let v := G v 1 5 9 13 (ms 2%nat) (ms 3%nat) in
  let v := G v 2 6 10 14 (ms 4%nat) (ms 5%nat) in
  let v := G v 3 7 11 15 (ms 6%nat) (ms 7%nat) in
  let v := G v 0 5 10 15 (ms 8%nat) (ms 9%nat) in
  let v := G v 1 6 11 12 (ms 10%nat) (ms 11%nat) in
  let v := G v 2 7 8 13 (ms 12%nat) (ms 13%nat) in
  let v := G v 3 4 9 14 (ms 14%nat) (ms 15%nat) in
  v.

(** Little-endian 64-bit words of a block, and bytes of a word. *)
Fixpoint words_le (bs : bytes) : list Z :=
  match bs with
  | b0 :: b1 :: b2 :: b3 :: b4 :: b5 :: b6 :: b7 :: rest =>
      (b0 + Z.shiftl b1 8 + Z.shiftl b2 16 + Z.shiftl b3 24 + Z.shiftl b4 32
       + Z.shiftl b5 40 + Z.shiftl b6 48 + Z.shiftl b7 56) :: words_le rest
  | _ => []
  end.

Definition le64 (x : Z) : bytes :=
  map (λ i, Z.land (Z.shiftr x (8 * Z.of_nat i)) 0xFF) (seq 0 8).

(** The compression function F: twelve rounds over the schedule
    [SIGMA[i mod 10]]. *)
Definition F (h : list Z) (block : bytes) (t : Z) (last : bool) : list Z :=
  let m := words_le block in
  let v := h ++ IV in
  let v := set v 12 (Z.lxor (get v 12) (Z.land t mask64)) in
  let v := set v 13 (Z.lxor (get v 13) (Z.shiftr t 64)) in
  let v := if last then set v 14 (Z.lxor (get v 14) mask64) else v in
  let v := fold_left (mix_round m) (SIGMA ++ take 2 SIGMA) v in
  map (λ i, Z.lxor (Z.lxor (get h i) (get v i)) (get v (i + 8))) (seq 0 8).

(** All blocks but the last are compressed with the running byte count;
    the last block, padded with zeros, carries the final flag. *)
Fixpoint process (fuel : nat) (h : list Z) (t : Z) (msg : bytes) : list Z :=
  match fuel with
  | S fuel =>
      if (128 <? length msg)%nat
      then process fuel (F h (take 128 msg) (t + 128) false) (t + 128) (drop 128 msg)
      else F h (msg ++ replicate (128 - length msg) 0) (t + Z.of_nat (length msg)) true
  | O => h
  end.

(** [hashlib.blake2b(msg, digest_size=nn).digest()], without key, salt or
    personalisation. *)
Definition digest (nn : nat) (msg : bytes) : bytes :=
  let h := set IV 0 (Z.lxor (get IV 0) (Z.lxor 0x01010000 (Z.of_nat nn))) in
  take nn (flat_map le64 (process (S (length msg)) h 0 msg)).

End BLAKE2b.

Arguments BLAKE2b.digest : simpl never.

(** [bytes.hex()]: two lowercase hexadecimal digits per byte. *)
Definition hex_digit (d : Z) : ascii :=
  nth (Z.to_nat d) (list_ascii_of_string "0123456789abcdef") "?"%char.

Fixpoint hex (bs : bytes) : string :=
  match bs with
  | [] => EmptyString
  | b :: bs => String (hex_digit (Z.shiftr b 4)) (String (hex_digit (Z.land b 0xF)) (hex bs))
  end.

(** ** Strings

    A Python [str] is a sequence of Unicode code points. *)

Definition char : Type := N.
Definition str : Type := list char.

(** The code point of an ASCII character, and the [str] of an ASCII literal. *)
Definition chr (a : ascii) : char := N_of_ascii a.
Definition lit (s : string) : str := map chr (list_ascii_of_string s).

(** [s.encode('utf-8')] for one code point; surrogates cannot be encoded
    ([UnicodeEncodeError], here [None]). *)
Definition utf8_char (c : char) : option bytes :=
  let z := Z.of_N c in
  let cont (k : Z) := Z.lor 0x80 (Z.land (Z.shiftr z k) 0x3F) in
  if z <? 0x80 then Some [z]
  else if z <? 0x800 then Some [Z.lor 0xC0 (Z.shiftr z 6); cont 0]
  else if z <? 0x10000 then
    if (0xD800 <=? z) && (z <=? 0xDFFF) then None
    else Some [Z.lor 0xE0 (Z.shiftr z 12); cont 6; cont 0]
  else Some [Z.lor 0xF0 (Z.shiftr z 18); cont 12; cont 6; cont 0].

Fixpoint utf8 (s : str) : option bytes :=
  match s with
  | [] => Some []
  | c :: s =>
      match utf8_char c, utf8 s with
      | Some b, Some bs => Some (b ++ bs)
      | _, _ => None
      end
  end.

(** ** The LC-B batch builder ([hlx_lcb_client.py]) *)

Module LCB.
Import LEB128.

Definition LCB_MAGIC : Z := 0x3142434C.
Definition LCB_VERSION : Z := 1.

(** The type tags of [ParamType]. *)
Module ParamType.
Definition NULL : Z := 0.
Definition BOOL : Z := 1.
Definition INT : Z := 2.
Definition FLOAT : Z := 3.
Definition TEXT : Z := 4.
Definition BYTES : Z := 5.
Definition ARRAY : Z := 6.
Definition OBJECT : Z := 7.
Definition HANDLE : Z := 8.
Definition CHAIN_PREVIOUS : Z := 9.
Definition CHAIN_FROM : Z := 10.
End ParamType.

(** A parameter is a pair [(ptype, value)].  Floating-point payloads are
    kept as the bit patterns the builder writes: a ["float"] as the binary64
    image that [struct.pack("<d", float(value))] lays out, a ["tensor"] as
    its shape and the binary32 images of
    [arr.flatten().astype(np.float32)]. *)
Inductive param :=
| PInt (value : Z)
| PFloat (image : Z)
| PBool (value : bool)
| PTensor (shape : list Z) (images : list Z)
| PString (value : str)
| PChain (value : Z)
| POther.  (* any other [ptype]: no branch of [build] matches it *)

(** An entry of [self.instructions]: the contract id and the items of the
    [params] dict in insertion order. *)
Definition instruction : Type := Z * list (str * param).

(** What can go wrong in [build].  [Loops] is not an exception: it marks
    the call of [encode_leb128_u32] on a negative integer, which never
    returns. *)
Inductive error := StructError | ValueError | UnicodeEncodeError | Loops.

(** Little-endian bytes of the low [8 * n] bits of [x]. *)
Definition le_bytes (n : nat) (x : Z) : bytes :=
  map (λ i, Z.land (Z.shiftr x (8 * Z.of_nat i)) 0xFF) (seq 0 n).

(** [struct.pack("<I", x)]. *)
Definition pack_I (x : Z) : outcome error bytes :=
  if (0 <=? x) && (x <? 2 ^ 32) then Ok (le_bytes 4 x) else Raise StructError.

Definition leb_u32 (x : Z) : outcome error bytes :=
  match encode_leb128_u32 x with Some b => Ok b | None => Raise Loops end.

Definition leb_i64 (x : Z) : outcome error bytes :=
  match encode_leb128_i64 x with Some b => Ok b | None => Raise Loops end.

Definition encode_utf8 (s : str) : outcome error bytes :=
  match utf8 s with Some b => Ok b | None => Raise UnicodeEncodeError end.

(** The shape header of a tensor payload: one [struct.pack("<I", dim)] per
    dimension. *)
Fixpoint pack_shape (tensor_payload : bytes) (shape : list Z) : outcome error bytes :=
  match shape with
  | [] => Ok tensor_payload
  | dim :: shape =>
      d ← pack_I dim;
      pack_shape (tensor_payload ++ d) shape
  end.

(** The body of the loop over [params.items()]: the name, then the type
    tag and the value. *)
Definition build_param (data : bytes) (item : str * param) : outcome error bytes :=
  let '(name, p) := item in
  name_bytes ← encode_utf8 name;
  n ← leb_u32 (Z.of_nat (length name_bytes));
  let data := data ++ n ++ name_bytes in
  match p with
  | PInt value =>
      v ← leb_i64 value;
      Ok (data ++ [ParamType.INT] ++ v)
  | PFloat image =>
      Ok (data ++ [ParamType.FLOAT] ++ le_bytes 8 image)
  | PBool value =>
      Ok (data ++ [ParamType.BOOL] ++ [if value then 1 else 0])
  | PTensor shape images =>
      let data := data ++ [ParamType.BYTES] in
      (* [bytearray.append] accepts 0..255 only *)
      if (256 <=? length shape)%nat then Raise ValueError else
      tensor_payload ← pack_shape [Z.of_nat (length shape)] shape;
      let tensor_payload := tensor_payload ++ flat_map (le_bytes 4) images in
      n ← leb_u32 (Z.of_nat (length tensor_payload));
      Ok (data ++ n ++ tensor_payload)
  | PString value =>
      value_bytes ← encode_utf8 value;
      n ← leb_u32 (Z.of_nat (length value_bytes));
      Ok (data ++ [ParamType.TEXT] ++ n ++ value_bytes)
  | PChain value =>
      v ← leb_u32 value;
      Ok (data ++ [ParamType.CHAIN_FROM] ++ v)
  | POther => Ok data
  end.

Fixpoint build_params (data : bytes) (params : list (str * param)) : outcome error bytes :=
  match params with
  | [] => Ok data
  | item :: params =>
      data ← build_param data item;
      build_params data params
  end.

(** The body of the loop over [self.instructions]. *)
Definition build_instruction (data : bytes) (ins : instruction) : outcome error bytes :=
  let '(contract_id, params) := ins in
  c ← leb_u32 contract_id;
  n ← leb_u32 (Z.of_nat (length params));
  build_params (data ++ c ++ n) params.

Fixpoint build_instructions (data : bytes) (instructions : list instruction)
  : outcome error bytes :=
  match instructions with
  | [] => Ok data
  | ins :: instructions =>
      data ← build_instruction data ins;
      build_instructions data instructions
  end.

(** [LCBBatchBuilder.build]: header, instructions, then the signature over
    everything written so far. *)
Definition build (instructions : list instruction) : outcome error bytes :=
  magic ← pack_I LCB_MAGIC;
  let data := magic ++ [LCB_VERSION] in
  count ← pack_I (Z.of_nat (length instructions));
  let batch_id_hash := SHA256.digest count in
  let data := data ++ batch_id_hash in
  n ← leb_u32 (Z.of_nat (length instructions));
  let data := data ++ n in
  data ← build_instructions data instructions;
  let signature := SHA256.digest data in
  Ok (data ++ signature).

End LCB.

(** ** The content-addressed shader database ([shaderdb.py]) *)

Module ShaderDB.

(** [s[:n]] and [s[n:]] on strings. *)
Fixpoint string_take (n : nat) (s : string) : string :=
  match n, s with
  | S n, String c s => String c (string_take n s)
  | _, _ => EmptyString
  end.

Fixpoint string_drop (n : nat) (s : string) : string :=
  match n, s with
  | S n, String _ s => string_drop n s
  | _, _ => s
  end.

Inductive value_error :=
| TooSmall            (* "SPIR-V too small" *)
| NotAligned          (* "SPIR-V must be 4-byte aligned" *)
| InvalidMagic (magic : Z)
| HashCollision (handle : string)
| InvalidHandle (handle : string).

Inductive error :=
| ValueError (e : value_error)
| KeyError (handle : string)
| IndexError.

(** *** [ShaderHandle] *)

Definition PREFIX : string := "&h_shader_".

(** The two attributes [_handle] and [_hash] of a handle object. *)
Record ShaderHandle := { handle_ : string; hash : string }.

(** [ShaderHandle.__init__]. *)
Definition ShaderHandle_init (handle : string) : outcome error ShaderHandle :=
  if String.prefix PREFIX handle
  then Ok {| handle_ := handle; hash := string_drop (String.length PREFIX) handle |}
  else Raise (ValueError (InvalidHandle handle)).

(** [ShaderHandle.from_spirv]: the constructor applied to the prefix
    followed by the BLAKE2b-256 hex digest; its prefix test cannot fail
    (lemma [from_spirv_init]). *)
Definition from_spirv (spirv_bytes : bytes) : ShaderHandle :=
  let h := hex (BLAKE2b.digest 32 spirv_bytes) in
  {| handle_ := PREFIX +:+ h; hash := h |}.

(** The properties [prefix] and [suffix], and [__str__]. *)
Definition prefix (h : ShaderHandle) : string := string_take 2 (hash h).
Definition suffix (h : ShaderHandle) : string := string_drop 2 (hash h).
Definition str_ (h : ShaderHandle) : string := handle_ h.

(** *** The store *)

(** A row of the table [shaders]; the column [source_hash] is never
    written, and [metadata_json] holds the two lists. *)
Record row := {
  name : string;
  shader_stage : string;
  entry_point : string;
  workgroup_x : Z;
  workgroup_y : Z;
  workgroup_z : Z;
  spirv_size : nat;
  created_at : string;
  descriptor_bindings : list string;
  tags : list string
}.

(** The state behind a [ShaderDatabase]: the files under [objects/], keyed
    by the two path components [prefix] and [suffix]; the directories under
    [objects/]; and the table [shaders], keyed by its primary key
    [handle]. *)
Record ShaderDatabase := {
  objects : gmap (string * string) bytes;
  dirs : gset string;
  shaders : gmap string row
}.

(** The [metadata] dict: the keys [add_shader] reads, each present or
    absent. *)
Record metadata := {
  m_name : option string;
  m_shader_stage : option string;
  m_entry_point : option string;
  m_workgroup_size : option (list Z);
  m_descriptor_bindings : option (list string);
  m_tags : option (list string)
}.

(** The keyword arguments of [add_shader]. *)
Record keywords := {
  k_name : string;
  k_shader_stage : string;
  k_entry_point : string;
  k_workgroup_size : option (list Z);
  k_descriptor_bindings : option (list string);
  k_tags : option (list string)
}.

Definition default_keywords : keywords :=
  {| k_name := "unnamed"; k_shader_stage := "compute"; k_entry_point := "main";
     k_workgroup_size := None; k_descriptor_bindings := None; k_tags := None |}.

(** [metadata.get(key, default)]. *)
Definition dict_get {A} (entry : option A) (default : A) : A :=
  match entry with Some v => v | None => default end.

(** The block [if metadata: ...]. *)
Definition merge_metadata (m : option metadata) (k : keywords) : keywords :=
  match m with
  | None => k
  | Some m =>
      {| k_name := dict_get (m_name m) (k_name k);
         k_shader_stage := dict_get (m_shader_stage m) (k_shader_stage k);
         k_entry_point := dict_get (m_entry_point m) (k_entry_point k);
         k_workgroup_size :=
           match m_workgroup_size m with Some v => Some v | None => k_workgroup_size k end;
         k_descriptor_bindings :=
           match m_descriptor_bindings m with
           | Some v => Some v | None => k_descriptor_bindings k end;
         k_tags := match m_tags m with Some v => Some v | None => k_tags k end |}
  end.

(** [x or default] on an optional list: [None] and the empty list are
    false. *)
Definition or_list {A} (x : option (list A)) (default : list A) : list A :=
  match x with
  | Some ((_ :: _) as l) => l
  | _ => default
  end.

(** [int.from_bytes(b, 'little')]. *)
Fixpoint int_from_bytes_little (b : bytes) : Z :=
  match b with
  | [] => 0
  | x :: b => x + 256 * int_from_bytes_little b
  end.

Definition SPIRV_MAGIC : Z := 0x07230203.

(** The checks that open [add_shader]. *)
Definition validate (spirv_bytes : bytes) : outcome error unit :=
  if (length spirv_bytes <? 20)%nat then Raise (ValueError TooSmall)
  else if negb (length spirv_bytes mod 4 =? 0)%nat then Raise (ValueError NotAligned)
  else
    let magic := int_from_bytes_little (take 4 spirv_bytes) in
    if negb (magic =? SPIRV_MAGIC) then Raise (ValueError (InvalidMagic magic))
    else Ok tt.

(** [ShaderDatabase.add_shader].  The result pairs what the call returns or
    raises with the state it leaves behind; [now] is the reading of
    [datetime.utcnow().isoformat()]. *)
Definition add_shader (db : ShaderDatabase) (spirv_bytes : bytes)
    (meta : option metadata) (kw : keywords) (now : string)
  : outcome error ShaderHandle * ShaderDatabase :=
  match validate spirv_bytes with
  | Raise e => (Raise e, db)
  | Ok _ =>
      let handle := from_spirv spirv_bytes in
      let obj_path := (prefix handle, suffix handle) in
      match objects db !! obj_path with
      | Some existing =>
          if decide (existing = spirv_bytes)
          then (Ok handle, db)
          else (Raise (ValueError (HashCollision (str_ handle))), db)
      | None =>
          (* obj_path.parent.mkdir(exist_ok=True); obj_path.write_bytes(...) *)
          let db := {| objects := <[obj_path := spirv_bytes]> (objects db);
                       dirs := {[prefix handle]} ∪ dirs db;
                       shaders := shaders db |} in
          let kw := merge_metadata meta kw in
          let wg := or_list (k_workgroup_size kw) [1; 1; 1] in
          match wg with
          | wg0 :: wg1 :: wg2 :: _ =>
              let r := {| name := k_name kw;
                          shader_stage := k_shader_stage kw;
                          entry_point := k_entry_point kw;
                          workgroup_x := wg0; workgroup_y := wg1; workgroup_z := wg2;
                          spirv_size := length spirv_bytes;
                          created_at := now;
                          descriptor_bindings := or_list (k_descriptor_bindings kw) [];
                          tags := or_list (k_tags kw) [] |} in
              (* INSERT OR REPLACE, then commit *)
              (Ok handle,
               {| objects := objects db; dirs := dirs db;
                  shaders := <[str_ handle := r]> (shaders db) |})
          | _ => (Raise IndexError, db)
          end
      end
  end.

(** The argument of [get] and [exists]: a string or a handle object. *)
Inductive handle_arg := HStr (s : string) | HObj (h : ShaderHandle).

Definition to_handle (handle : handle_arg) : outcome error ShaderHandle :=
  match handle with
  | HStr s => ShaderHandle_init s
  | HObj h => Ok h
  end.

(** [ShaderDatabase.get]. *)
Definition get (db : ShaderDatabase) (handle : handle_arg) : outcome error bytes :=
  handle ← to_handle handle;
  match objects db !! (prefix handle, suffix handle) with
  | None => Raise (KeyError (str_ handle))
  | Some b => Ok b
  end.

(** [ShaderDatabase.exists]. *)
Definition exists_ (db : ShaderDatabase) (handle : handle_arg) : outcome error bool :=
  handle ← to_handle handle;
  Ok (bool_decide (is_Some (objects db !! (prefix handle, suffix handle)))).

(** A database on a fresh directory. *)
Definition empty_db : ShaderDatabase :=
  {| objects := ∅; dirs := ∅; shaders := ∅ |}.

(** The three structural preconditions, as the claim words them. *)
Definition spirv_preconditions (b : bytes) : Prop :=
  (20 ≤ length b)%nat
  ∧ (length b mod 4 = 0)%nat
  ∧ int_from_bytes_little (take 4 b) = SPIRV_MAGIC.

Definition precondition_error (e : error) : Prop :=
  e = ValueError TooSmall ∨ e = ValueError NotAligned
  ∨ ∃ magic, e = ValueError (InvalidMagic magic).

(** The 20-byte SPIR-V header of the test-suite. *)
Definition sample_shader_bytes : bytes :=
  [0x03; 0x02; 0x23; 0x07;  0x00; 0x00; 0x01; 0x00;  0x00; 0x00; 0x00; 0x00;
   0x01; 0x00; 0x00; 0x00;  0x00; 0x00; 0x00; 0x00].

(** A store whose object path for [sample_shader_bytes] holds other
    bytes. *)
Definition collided_db : ShaderDatabase :=
  {| objects := {[ (prefix (from_spirv sample_shader_bytes),
                    suffix (from_spirv sample_shader_bytes)) := [0] ]};
     dirs := {[ prefix (from_spirv sample_shader_bytes) ]};
     shaders := ∅ |}.

Definition meta_named (n : string) : metadata :=
  {| m_name := Some n; m_shader_stage := None; m_entry_point := None;
     m_workgroup_size := None; m_descriptor_bindings := None; m_tags := None |}.

End ShaderDB.

(** ** Python built-ins on strings

    The methods [str.isspace], [str.isdigit], [str.isalpha] and
    [str.isalnum] and the conversion [int] consult the Unicode character
    database of the interpreter.  The database is a parameter of the
    codecs; the theorems below say which of its entries they rely on. *)

Class UCD := {
  isspace : char → bool;
  isdigit : char → bool;
  isalpha : char → bool;
  isalnum : char → bool;
  (* the decimal digit value of a code point, if it has one *)
  decimal : char → option Z
}.

(** The entries of the database for the code points U+0000 to U+00FF, as
    [str.isspace] and the other methods answer on them; code points above
    U+00FF are left out (every test is false on them).  This table serves to
    evaluate the codecs on concrete texts. *)
Definition in_ranges (ranges : list (N * N)) (c : char) : bool :=
  existsb (λ r, (r.1 <=? c)%N && (c <=? r.2)%N) ranges.

Definition latin1 : UCD := {|
  isspace := in_ranges [(9, 13); (28, 32); (0x85, 0x85); (0xA0, 0xA0)]%N;
  isdigit := in_ranges [(48, 57); (0xB2, 0xB3); (0xB9, 0xB9)]%N;
  isalpha := in_ranges [(65, 90); (97, 122); (0xAA, 0xAA); (0xB5, 0xB5); (0xBA, 0xBA);
                        (0xC0, 0xD6); (0xD8, 0xF6); (0xF8, 0xFF)]%N;
  isalnum := in_ranges [(48, 57); (65, 90); (97, 122); (0xAA, 0xAA); (0xB2, 0xB3);
                        (0xB5, 0xB5); (0xB9, 0xBA); (0xBC, 0xBE);
                        (0xC0, 0xD6); (0xD8, 0xF6); (0xF8, 0xFF)]%N;
  decimal := λ c, if ((48 <=? c) && (c <=? 57))%N then Some (Z.of_N c - 48) else None
|}.

(** What the round trips need of the character database: its entries for
    ASCII, and that no alphanumeric character counts as white space. *)
Record ascii_faithful (U : UCD) : Prop := {
  isspace_ascii : ∀ c, (c < 128)%N →
    isspace c = in_ranges [(9, 13); (28, 32)]%N c;
  isdigit_ascii : ∀ c, (c < 128)%N →
    isdigit c = in_ranges [(48, 57)]%N c;
  isalnum_ascii : ∀ c, (c < 128)%N →
    isalnum c = in_ranges [(48, 57); (65, 90); (97, 122)]%N c;
  isalnum_not_space : ∀ c, isalnum c = true → isspace c = false
}.

(** The character tests of the C locale that the interpreter applies to
    ASCII buffers ([Py_ISSPACE], decimal and hexadecimal digit values). *)
Definition ascii_isspace (c : char) : bool :=
  ((9 <=? c) && (c <=? 13) || (c =? 32))%N.

Definition ascii_digit (c : char) : option Z :=
  if ((48 <=? c) && (c <=? 57))%N then Some (Z.of_N c - 48) else None.

Definition hex_value (c : char) : option Z :=
  if ((48 <=? c) && (c <=? 57))%N then Some (Z.of_N c - 48)
  else if ((97 <=? c) && (c <=? 102))%N then Some (Z.of_N c - 87)
  else if ((65 <=? c) && (c <=? 70))%N then Some (Z.of_N c - 55)
  else None.

(** [c in '0123456789abcdefABCDEF']. *)
Definition is_hex_char (c : char) : bool :=
  match hex_value c with Some _ => true | None => false end.

Section builtins.
Context {U : UCD}.

Fixpoint lstrip (s : str) : str :=
  match s with
  | c :: s' => if isspace c then lstrip s' else s
  | [] => []
  end.

Definition rstrip (s : str) : str := rev (lstrip (rev s)).

(** [s.strip()]. *)
Definition strip (s : str) : str := rstrip (lstrip s).

(** [int(s)] on a string starts by rewriting it to ASCII: ASCII stays,
    other white space becomes a blank, other decimal digits become ASCII
    digits, and the first character that is none of these ends the buffer
    with a question mark. *)
Fixpoint to_ascii_decimal (s : str) : str :=
  match s with
  | [] => []
  | c :: s =>
      if (c <? 127)%N then c :: to_ascii_decimal s
      else if isspace c then 32%N :: to_ascii_decimal s
      else match decimal c with
           | Some d => Z.to_N (48 + d) :: to_ascii_decimal s
           | None => [63%N]
           end
  end.

End builtins.

Fixpoint skip_ascii_space (s : str) : str :=
  match s with
  | c :: s' => if ascii_isspace c then skip_ascii_space s' else s
  | [] => []
  end.

(** The digits of a decimal literal after its first digit: digits, each
    optionally preceded by one underscore. *)
Fixpoint more_digits (s : str) (acc : Z) : option (Z * str) :=
  match s with
  | [] => Some (acc, [])
  | c :: s' =>
      match ascii_digit c with
      | Some d => more_digits s' (10 * acc + d)
      | None =>
          if (c =? 95)%N (* '_' *) then
            match s' with
            | c2 :: s'' =>
                match ascii_digit c2 with
                | Some d => more_digits s'' (10 * acc + d)
                | None => None
                end
            | [] => None
            end
          else Some (acc, s)
      end
  end.

(** The base-10 parser behind [int]: blanks, a sign, digits, blanks, and
    nothing else.  [None] is [ValueError]. *)
Definition int_of_ascii (s : str) : option Z :=
  let s := skip_ascii_space s in
  let '(sign, s) :=
    match s with
    | 43%N :: s' => (1, s')          (* '+' *)
    | 45%N :: s' => (-1, s')         (* '-' *)
    | _ => (1, s)
    end in
  match s with
  | c :: s' =>
      match ascii_digit c with
      | Some d =>
          match more_digits s' d with
          | Some (n, rest) =>
              match skip_ascii_space rest with
              | [] => Some (sign * n)
              | _ => None
              end
          | None => None
          end
      | None => None
      end
  | [] => None
  end.

(** [int(s)]. *)
Definition py_int {U : UCD} (s : str) : option Z := int_of_ascii (to_ascii_decimal s).

(** [bytes.fromhex(s)]: pairs of hexadecimal digits, ASCII white space
    allowed between pairs.  [None] is [ValueError]. *)
Fixpoint fromhex (s : str) : option bytes :=
  match s with
  | [] => Some []
  | c :: s' =>
      if ascii_isspace c then fromhex s'
      else
        match hex_value c, s' with
        | Some h, c2 :: s'' =>
            match hex_value c2, fromhex s'' with
            | Some l, Some bs => Some (16 * h + l :: bs)
            | _, _ => None
            end
        | _, _ => None
        end
  end.

(** [b.hex()] as a [str]. *)
Definition hex_str (b : bytes) : str := lit (hex b).

(** [str(n)] for a non-negative integer: its decimal digits, most
    significant first.  A number below [10 ^ fuel] needs no more than
    [fuel] turns. *)
Fixpoint digits (fuel : nat) (n : Z) (acc : str) : str :=
  match fuel with
  | O => acc
  | S fuel =>
      let acc := Z.to_N (48 + n mod 10) :: acc in
      if n <? 10 then acc else digits fuel (n / 10) acc
  end.

(** [str(n)] on an integer. *)
Definition str_of_int (n : Z) : str :=
  let d := digits (S (Z.to_nat (Z.log2 (Z.abs n)))) (Z.abs n) [] in
  if n <? 0 then 45%N :: d else d.

(** [s.startswith(p)], [c in s] and [old in s] replaced by [new]. *)
Fixpoint startswith (s p : str) : bool :=
  match p, s with
  | [], _ => true
  | c :: p, d :: s => (c =? d)%N && startswith s p
  | _ :: _, [] => false
  end.

Definition contains (s : str) (c : char) : bool := existsb (N.eqb c) s.

(** [s.replace(c, new)] for a one-character pattern. *)
Definition replace_char (c : char) (new : str) (s : str) : str :=
  flat_map (λ d, if (d =? c)%N then new else [d]) s.

(** [sep.join(parts)]. *)
Fixpoint join (sep : str) (parts : list str) : str :=
  match parts with
  | [] => []
  | [p] => p
  | p :: parts => p ++ sep ++ join sep parts
  end.

Definition str_eqb (s t : str) : bool := bool_decide (s = t).

(** The double quote and the backslash. *)
Definition quote : char := 34%N.
Definition backslash : char := 92%N.

(** [c == 'a'] for an ASCII character [a]. *)
Definition eqc (a : ascii) (c : char) : bool := (c =? chr a)%N.

(** The longest prefix of [s] whose characters satisfy [p], and the rest. *)
Fixpoint span (p : char → bool) (s : str) : str * str :=
  match s with
  | c :: s' => if p c then let '(a, b) := span p s' in (c :: a, b) else ([], s)
  | [] => ([], [])
  end.

(** Stable sort of [(index, item)] pairs by index, as
    [list.sort(key=lambda x: x[0])] orders them. *)
Fixpoint insert_by_index {A} (x : Z * A) (l : list (Z * A)) : list (Z * A) :=
  match l with
  | [] => [x]
  | y :: l' => if x.1 <=? y.1 then x :: l else y :: insert_by_index x l'
  end.

Definition sort_by_index {A} (l : list (Z * A)) : list (Z * A) :=
  foldr insert_by_index [] l.

(** [rest] is what remains of [text] after at least one character. *)
Definition consumed (text rest : str) : Prop :=
  rest `suffix_of` text ∧ (length rest < length text)%nat.

(** ** Values

    The Python values the codecs exchange.  A [dict] is the list of its
    items in insertion order; its keys are pairwise distinct.  Floats are
    not modelled: where a decoder would build one, the model stops with
    [Float_result]. *)

#[warnings="-register-all"]
Inductive Value :=
| VNone
| VBool (b : bool)
| VInt (n : Z)
| VStr (s : str)
| VBytes (b : bytes)
| VList (l : list Value)
| VDict (d : list (str * Value)).

(** [d.get(key)], [key in d] and [d[key] = v]; an assignment to a key that
    is present keeps its place. *)
Fixpoint dict_lookup {A} (d : list (str * A)) (key : str) : option A :=
  match d with
  | [] => None
  | (k, v) :: d => if str_eqb k key then Some v else dict_lookup d key
  end.

Definition dict_mem {A} (d : list (str * A)) (key : str) : bool :=
  match dict_lookup d key with Some _ => true | None => false end.

Fixpoint dict_set {A} (d : list (str * A)) (key : str) (v : A) : list (str * A) :=
  match d with
  | [] => [(key, v)]
  | (k, w) :: d => if str_eqb k key then (k, v) :: d else (k, w) :: dict_set d key v
  end.

(** The comparison [==] on values: lists position by position, dicts as
    finite maps whatever the order of their items, and [True == 1]. *)
Fixpoint py_eq (v w : Value) : bool :=
  match v, w with
  | VNone, VNone => true
  | VBool a, VBool b => bool_decide (a = b)
  | VBool a, VInt n | VInt n, VBool a => n =? (if a then 1 else 0)
  | VInt m, VInt n => m =? n
  | VStr s, VStr t => str_eqb s t
  | VBytes a, VBytes b => bool_decide (a = b)
  | VList l, VList m =>
      (fix all2 (l : list Value) (m : list Value) : bool :=
         match l, m with
         | [], [] => true
         | x :: l, y :: m => py_eq x y && all2 l m
         | _, _ => false
         end) l m
  | VDict d, VDict e =>
      (length d =? length e)%nat
      && (fix all (d : list (str * Value)) : bool :=
            match d with
            | [] => true
            | (k, x) :: d =>
                match dict_lookup e k with
                | Some y => py_eq x y && all d
                | None => false
                end
            end) d
  | _, _ => false
  end.

(** ** The LC-T codec ([lc_t_codec.py]) *)

Module LCT.

Inductive lct_error :=
| CannotEncode
| EmptyInput
| TrailingContent
| UnexpectedEnd
| UnexpectedCharacter (c : char)
| ExpectedEquals
| UnterminatedArray
| ExpectedCommaOrBracket
| UnterminatedObject
| ExpectedColon (key : str)
| UnterminatedEscape
| UnterminatedString
| ExpectedIdentifier.

(** What a call of the codec can end with, besides a value.  The last
    three are not exceptions of the program: [Float_result] stands for the
    float that [float(num_str)] builds or the [ValueError] it raises,
    [Unformattable] for the [repr] of a container inside an f-string, and
    [OutOfFuel] for a recursion bound that [decode] never reaches (lemma
    [decode_fuel]). *)
Inductive error :=
| LCTError (e : lct_error)
| ValueError
| IndexError
| Float_result (num_str : str)
| Unformattable
| OutOfFuel.

(** *** [LCTEncoder] *)

(** [_encode_string]: backslashes first, then quotes. *)
Definition _encode_string (s : str) : str :=
  let escaped := replace_char quote [backslash; quote]
                   (replace_char backslash [backslash; backslash] s) in
  quote :: escaped ++ [quote].

(** [f"{v}"] for the values whose [str] is modelled. *)
Definition format_value (v : Value) : outcome error str :=
  match v with
  | VNone => Ok (lit "None")
  | VBool b => Ok (lit (if b then "True" else "False"))
  | VInt n => Ok (str_of_int n)
  | VStr s => Ok s
  | _ => Raise Unformattable
  end.

Section encoder.
Context {U : UCD}.

(** The items of a contract that [_encode_contract] keeps: the key
    [field_N] with [N] readable by [int]; everything else is skipped. *)
Definition field_index (key : str) : option Z :=
  if str_eqb key (lit "contract_id") then None
  else if startswith key (lit "field_") then py_int (drop 6 key)
  else None.

(** [LCTEncoder.encode] with [_encode_array], [_encode_dict],
    [_encode_contract] and [_encode_object]. *)
Fixpoint encode (value : Value) : outcome error str :=
  match value with
  | VNone => Ok (lit "NULL")
  | VBool b => Ok (lit (if b then "TRUE" else "FALSE"))
  | VInt n => Ok (str_of_int n)
  | VStr s =>
      if startswith s (lit "&h_") then Ok (chr "@" :: drop 3 s)
      else if startswith s (lit "&") then Ok (chr "@" :: drop 1 s)
      else Ok (_encode_string s)
  | VBytes b => Ok (chr "#" :: hex_str b)
  | VList arr =>
      match arr with
      | [] => Ok (lit "[]")
      | _ =>
          elements ← for_each encode arr;
          Ok (lit "[" ++ join (lit ",") elements ++ lit "]")
      end
  | VDict d =>
      match d with
      | [] => Ok (lit "{}")
      | _ =>
          if dict_mem d (lit "contract_id") then
            (* _encode_contract *)
            contract_id ← format_value (default VNone (dict_lookup d (lit "contract_id")));
            fields ←
              for_each
                (λ '(key, value),
                   match field_index key with
                   | Some field_idx =>
                       encoded_value ← encode value;
                       Ok (Some (field_idx, encoded_value))
                   | None => Ok None
                   end) d;
            let fields := sort_by_index (omap id fields) in
            let parts :=
              (lit "C:" ++ contract_id)
                :: map (λ f, str_of_int f.1 ++ lit "=" ++ f.2) fields in
            Ok (lit "{" ++ join (lit ",") parts ++ lit "}")
          else
            (* _encode_object *)
            parts ←
              for_each
                (λ '(key, value),
                   encoded_value ← encode value;
                   Ok (key ++ lit ":" ++ encoded_value)) d;
            Ok (lit "{" ++ join (lit ",") parts ++ lit "}")
      end
  end.

End encoder.

(** *** [LCTDecoder]

    The decoder state is the text and a position that only moves forward;
    every read is at or after the position.  The model keeps the unread
    rest of the text, [self.text[self.pos:]], and each method returns what
    it read together with the rest it leaves. *)

Section decoder.
Context {U : UCD}.

(** [_skip_whitespace]. *)
Definition _skip_whitespace (text : str) : str := lstrip text.

(** [_match]: the keyword, not followed by an alphanumeric character. *)
Definition _match (keyword : str) (text : str) : option str :=
  if startswith text keyword then
    match drop (length keyword) text with
    | [] => Some []
    | (c :: _) as rest => if isalnum c then None else Some rest
    end
  else None.

(** [_read_identifier]. *)
Definition _read_identifier (text : str) : outcome error (str * str) :=
  let '(ident, rest) := span (λ c, isalnum c || eqc "_" c) text in
  match ident with
  | [] => Raise (LCTError ExpectedIdentifier)
  | _ => Ok (ident, rest)
  end.

(** [_read_hex]. *)
Definition _read_hex (text : str) : str * str := span is_hex_char text.

(** The loop of [_read_string], entered after the opening quote. *)
Fixpoint _read_string (text : str) (result : str) : outcome error (str * str) :=
  match text with
  | [] => Raise (LCTError UnterminatedString)
  | char :: rest =>
      if (char =? quote)%N then Ok (result, rest)
      else if (char =? backslash)%N then
        match rest with
        | [] => Raise (LCTError UnterminatedEscape)
        | escaped :: rest =>
            let c :=
              if eqc "n" escaped then 10%N
              else if eqc "t" escaped then 9%N
              else if eqc "r" escaped then 13%N
              else escaped in
            _read_string rest (result ++ [c])
        end
      else _read_string rest (result ++ [char])
  end.

(** [_read_number_str]: sign, digits, fraction, exponent. *)
Definition _read_number_str (text : str) : str * str :=
  let '(sign, text) :=
    match text with
    | c :: rest => if eqc "-" c then ([c], rest) else ([], text)
    | [] => ([], text)
    end in
  let '(int_part, text) := span isdigit text in
  let '(frac_part, text) :=
    match text with
    | c :: rest =>
        if eqc "." c then let '(d, rest) := span isdigit rest in (c :: d, rest)
        else ([], text)
    | [] => ([], text)
    end in
  let '(exp_part, text) :=
    match text with
    | c :: rest =>
        if eqc "e" c || eqc "E" c then
          let '(s, rest) :=
            match rest with
            | c2 :: rest2 =>
                if eqc "+" c2 || eqc "-" c2 then ([c2], rest2) else ([], rest)
            | [] => ([], rest)
            end in
          let '(d, rest) := span isdigit rest in
          (c :: s ++ d, rest)
        else ([], text)
    | [] => ([], text)
    end in
  (sign ++ int_part ++ frac_part ++ exp_part, text).

(** [int(num_str)]. *)
Definition to_int (num_str : str) : outcome error Z :=
  match py_int num_str with Some n => Ok n | None => Raise ValueError end.

(** [_read_number]. *)
Definition _read_number (text : str) : outcome error (Value * str) :=
  let '(num_str, rest) := _read_number_str text in
  if contains num_str (chr ".") || contains num_str (chr "e") || contains num_str (chr "E")
  then Raise (Float_result num_str)
  else n ← to_int num_str; Ok (VInt n, rest).

(** [_parse_value] and, as its companions, the loops of [_parse_array],
    [_parse_contract] and [_parse_object].  Each call uses up one unit of
    [fuel]. *)
Fixpoint _parse_value (fuel : nat) (text : str) {struct fuel}
  : outcome error (Value * str) :=
  match fuel with
  | O => Raise OutOfFuel
  | S fuel =>
      let text := _skip_whitespace text in
      match text with
      | [] => Raise (LCTError UnexpectedEnd)
      | char :: after =>
          match _match (lit "NULL") text with
          | Some rest => Ok (VNone, rest)
          | None =>
          match _match (lit "TRUE") text with
          | Some rest => Ok (VBool true, rest)
          | None =>
          match _match (lit "FALSE") text with
          | Some rest => Ok (VBool false, rest)
          | None =>
            if eqc "@" char then
              '(name, rest) ← _read_identifier after;
              Ok (VStr (lit "&h_" ++ name), rest)
            else if eqc "#" char then
              let '(hex_str, rest) := _read_hex after in
              match fromhex hex_str with
              | Some b => Ok (VBytes b, rest)
              | None => Raise ValueError
              end
            else if (char =? quote)%N then
              '(s, rest) ← _read_string after [];
              Ok (VStr s, rest)
            else if eqc "[" char then
              (* _parse_array *)
              let text := _skip_whitespace after in
              match text with
              | c :: rest =>
                  if eqc "]" c then Ok (VList [], rest)
                  else _parse_array fuel text []
              | [] => _parse_array fuel text []
              end
            else if eqc "{" char then
              (* _parse_brace *)
              let text := _skip_whitespace after in
              match text with
              | c :: rest =>
                  if eqc "}" c then Ok (VDict [], rest)
                  else if startswith text (lit "C:") then
                    (* _parse_contract *)
                    let '(num_str, text) := _read_number_str (drop 2 text) in
                    contract_id ← to_int num_str;
                    _parse_contract fuel text [(lit "contract_id", VInt contract_id)]
                  else _parse_object fuel text []
              | [] => _parse_object fuel text []
              end
            else if eqc "-" char || isdigit char then _read_number text
            else if isalpha char || eqc "_" char then
              '(ident, rest) ← _read_identifier text;
              Ok (VStr (lit "&h_" ++ ident), rest)
            else Raise (LCTError (UnexpectedCharacter char))
          end end end
      end
  end

with _parse_array (fuel : nat) (text : str) (elements : list Value) {struct fuel}
  : outcome error (Value * str) :=
  match fuel with
  | O => Raise OutOfFuel
  | S fuel =>
      let text := _skip_whitespace text in
      '(elem, text) ← _parse_value fuel text;
      let elements := elements ++ [elem] in
      let text := _skip_whitespace text in
      match text with
      | [] => Raise (LCTError UnterminatedArray)
      | c :: rest =>
          if eqc "]" c then Ok (VList elements, rest)
          else if eqc "," c then _parse_array fuel rest elements
          else Raise (LCTError ExpectedCommaOrBracket)
      end
  end

with _parse_contract (fuel : nat) (text : str) (result : list (str * Value))
    {struct fuel} : outcome error (Value * str) :=
  match fuel with
  | O => Raise OutOfFuel
  | S fuel =>
      match text with
      | [] => Ok (VDict result, [])      (* [while self.pos < len(self.text)] *)
      | _ :: _ =>
          let text := _skip_whitespace text in
          match text with
          | [] => Raise IndexError
          | c :: rest =>
              if eqc "}" c then Ok (VDict result, rest)
              else
                let text := if eqc "," c then _skip_whitespace rest else text in
                let '(num_str, text) := _read_number_str text in
                field_idx ← to_int num_str;
                let text := _skip_whitespace text in
                match text with
                | c :: rest =>
                    if eqc "=" c then
                      let text := _skip_whitespace rest in
                      '(value, text) ← _parse_value fuel text;
                      _parse_contract fuel text
                        (dict_set result (lit "field_" ++ str_of_int field_idx) value)
                    else Raise (LCTError ExpectedEquals)
                | [] => Raise (LCTError ExpectedEquals)
                end
          end
      end
  end

with _parse_object (fuel : nat) (text : str) (result : list (str * Value))
    {struct fuel} : outcome error (Value * str) :=
  match fuel with
  | O => Raise OutOfFuel
  | S fuel =>
      let text := _skip_whitespace text in
      match text with
      | [] => Raise (LCTError UnterminatedObject)
      | c :: rest =>
          if eqc "}" c then Ok (VDict result, rest)
          else
            '(key, text) ← _read_identifier text;
            let text := _skip_whitespace text in
            match text with
            | c :: rest =>
                if eqc ":" c then
                  let text := _skip_whitespace rest in
                  '(value, text) ← _parse_value fuel text;
                  let result := dict_set result key value in
                  let text := _skip_whitespace text in
                  match text with
                  | c :: rest =>
                      if eqc "," c then _parse_object fuel rest result
                      else _parse_object fuel text result
                  | [] => _parse_object fuel text result
                  end
                else Raise (LCTError (ExpectedColon key))
            | [] => Raise (LCTError (ExpectedColon key))
            end
      end
  end.

(** [LCTDecoder.decode]. *)
Definition decode (lct_str : str) : outcome error Value :=
  let text := strip lct_str in
  match text with
  | [] => Raise (LCTError EmptyInput)
  | _ =>
      '(result, rest) ← _parse_value (2 * length text + 1) text;
      match _skip_whitespace rest with
      | [] => Ok result
      | _ => Raise (LCTError TrailingContent)
      end
  end.

End decoder.

(** *** The values that survive the round trip *)

Section domain.
Context {U : UCD}.

(** A non-empty run of the characters [_read_identifier] accepts. *)
Definition identifier (s : str) : Prop :=
  s ≠ [] ∧ Forall (λ c, isalnum c || eqc "_" c = true) s.

(** The keys of an object: identifiers, none of them [contract_id], and
    not the single letter [C] in first place, which the decoder reads as
    the opening of a contract. *)
Definition object_keys (keys : list str) : Prop :=
  Forall identifier keys ∧ (lit "contract_id" ∉ keys) ∧ head keys ≠ Some (lit "C").

(** The items of a contract: an integer [contract_id], and fields named
    [field_N] with [N] in the form [str] gives it. *)
Definition contract_keys (d : list (str * Value)) : Prop :=
  (∃ cid, dict_lookup d (lit "contract_id") = Some (VInt cid))
  ∧ Forall (λ key, key = lit "contract_id"
                   ∨ ∃ idx, key = lit "field_" ++ str_of_int idx) d.*1.

(** Values in the domain of the round trip: text that does not begin with
    an ampersand, handles [&h_] followed by an identifier, bytes in range,
    and arrays, objects and contracts made of such values. *)
Fixpoint lct_value (v : Value) : Prop :=
  match v with
  | VNone | VBool _ | VInt _ => True
  | VStr s =>
      startswith s (lit "&") = false
      ∨ ∃ name, s = lit "&h_" ++ name ∧ identifier name
  | VBytes b => Forall (λ x, 0 ≤ x < 256) b
  | VList l => foldr (λ x P, lct_value x ∧ P) True l
  | VDict d =>
      NoDup d.*1
      ∧ (object_keys d.*1 ∨ contract_keys d)
      ∧ foldr (λ kv P, lct_value kv.2 ∧ P) True d
  end.

End domain.

(** The module-level functions. *)
Definition encode_lct {U : UCD} (value : Value) : outcome error str := encode value.
Definition decode_lct {U : UCD} (lct_str : str) : outcome error Value := decode lct_str.

End LCT.
(** ** The LC-R codec ([glyphs.py], [lc_r_codec.py]) *)

Module LCR.

(** *** [glyphs.py] *)

Inductive glyph_name :=
| NULL | TRUE | FALSE | HANDLE
| CONTRACT_START | FIELD | CONTRACT_END
| INT | FLOAT | TEXT | BYTES | ARRAY | OBJECT
| COLLAPSE_L1 | COLLAPSE_L2 | COLLAPSE_L3 | COLLAPSE_L12
| SEPARATOR | NEST | FLOW | BIND.

#[global] Instance glyph_name_eq_dec : EqDecision glyph_name.
Proof. solve_decision. Defined.

Definition glyph_names : list glyph_name :=
  [TRUE; FALSE; NULL; HANDLE; CONTRACT_START; FIELD; CONTRACT_END;
   INT; FLOAT; TEXT; BYTES; ARRAY; OBJECT;
   COLLAPSE_L1; COLLAPSE_L2; COLLAPSE_L3; COLLAPSE_L12;
   SEPARATOR; NEST; FLOW; BIND].

(** A glyph table: the dict from names to strings. *)
Definition glyphs : Type := glyph_name → str.

(** [LC_R_GLYPHS], with the string literals the file holds: each is the
    UTF-8 form of the documented code point read in a one-byte code page,
    two to four code points long. *)
Definition LC_R_GLYPHS : glyphs := λ name,
  match name with
  | TRUE => [0xe2; 0x160; 0xa4]
  | FALSE => [0xe2; 0x160; 0xa5]
  | NULL => [0xe2; 0x2c6; 0x2026]
  | HANDLE => [0xe2; 0x178]
  | CONTRACT_START => [0x11f; 0x178; 0x153; 0x160]
  | FIELD => [0x11f; 0x178; 0x153]
  | CONTRACT_END => [0x11f; 0x178; 0x153; 0x201a]
  | INT => [0x11f; 0x178; 0x153; 0x192]
  | FLOAT => [0x11f; 0x178; 0x153; 0x201e]
  | TEXT => [0xe1; 0x203a; 0xad]
  | BYTES => [0xe1; 0x203a; 0xab]
  | ARRAY => [0xe2; 0x2039; 0x201d]
  | OBJECT => [0xe2; 0x2039; 0x2022]
  | COLLAPSE_L1 => [0xe2; 0x160; 0x2022]
  | COLLAPSE_L2 => [0xe2; 0x160; 0x2014]
  | COLLAPSE_L3 => [0xe2; 0x160; 0x2122]
  | COLLAPSE_L12 => [0xe2; 0x178; 0xa1]
  | SEPARATOR => [0xe2; 0x2039; 0x2026]
  | NEST => [0xe2; 0x2014; 0x2021]
  | FLOW => [0xe2; 0x2020; 0x2019]
  | BIND => [0xe2; 0x2039; 0xaf]
  end%N.

(** The table the comments of [LC_R_GLYPHS] document: one code point for
    each name. *)
Definition documented_glyphs : glyphs := λ name,
  match name with
  | TRUE => [0x22A4]
  | FALSE => [0x22A5]
  | NULL => [0x2205]
  | HANDLE => [0x27C1]
  | CONTRACT_START => [0x1F70A]
  | FIELD => [0x1F701]
  | CONTRACT_END => [0x1F702]
  | INT => [0x1F703]
  | FLOAT => [0x1F704]
  | TEXT => [0x16ED]
  | BYTES => [0x16EB]
  | ARRAY => [0x22D4]
  | OBJECT => [0x22D5]
  | COLLAPSE_L1 => [0x2295]
  | COLLAPSE_L2 => [0x2297]
  | COLLAPSE_L3 => [0x2299]
  | COLLAPSE_L12 => [0x27E1]
  | SEPARATOR => [0x22C5]
  | NEST => [0x25C7]
  | FLOW => [0x2192]
  | BIND => [0x22EF]
  end%N.

(** What a call of the codec can end with, besides a value: [ValueError],
    and three outcomes that are not exceptions of the program:
    [Float_result] for the float that [float(num_str)] builds or the
    [ValueError] it raises, [Unformattable] for the [str] of a container,
    and [OutOfFuel] for a recursion bound. *)
Inductive error :=
| ValueError
| Float_result (num_str : str)
| Unformattable
| OutOfFuel.

Section codec.
Context {U : UCD} (g : glyphs).

(** [is_lc_r_glyph]: [char in GLYPH_TO_NAME], the dict whose keys are the
    values of the glyph table. *)
Definition is_lc_r_glyph (char : char) : bool :=
  existsb (λ name, str_eqb (g name) [char]) glyph_names.

(** [char == self.g[name]] for a character of the text. *)
Definition is_glyph (name : glyph_name) (char : char) : bool :=
  str_eqb [char] (g name).

(** *** [LCREncoder] *)

(** [str(v)] for the values whose [str] is modelled. *)
Definition str_ (v : Value) : outcome error str :=
  match v with
  | VNone => Ok (lit "None")
  | VBool b => Ok (lit (if b then "True" else "False"))
  | VInt n => Ok (str_of_int n)
  | VStr s => Ok s
  | _ => Raise Unformattable
  end.

(** The loop of [_encode_contract] over the items of the contract, with
    the running [field_idx]; [encode] is the encoder of the values. *)
Section contract_fields.
Context (encode : Value → outcome error str).

Fixpoint encode_fields (items : list (str * Value)) (field_idx : Z)
  : outcome error str :=
  match items with
  | [] => Ok []
  | (key, value) :: items =>
      if str_eqb key (lit "contract_id") then encode_fields items field_idx
      else
        encoded ← encode value;
        result ← encode_fields items (field_idx + 1);
        Ok (g FIELD ++ str_of_int field_idx ++ lit " " ++ encoded ++ result)
  end.

End contract_fields.

(** [LCREncoder.encode] with [_encode_contract]. *)
Fixpoint encode (value : Value) : outcome error str :=
  match value with
  | VNone => Ok (g NULL)
  | VBool b => Ok (if b then g TRUE else g FALSE)
  | VInt n => Ok (g INT ++ str_of_int n)
  | VStr s =>
      if startswith s (lit "&") || startswith s (lit "h_") then
        let handle := if startswith s (lit "&") then drop 1 s else s in
        Ok (g HANDLE ++ handle)
      else
        let escaped := replace_char quote [backslash; quote] s in
        Ok (g TEXT ++ quote :: escaped ++ [quote])
  | VBytes b => Ok (g BYTES ++ hex_str b)
  | VList l =>
      elements ← for_each encode l;
      Ok (g ARRAY ++ lit "[" ++ join (g SEPARATOR) elements ++ lit "]")
  | VDict d =>
      if dict_mem d (lit "contract_id") then
        (* _encode_contract *)
        contract_id ← str_ (default VNone (dict_lookup d (lit "contract_id")));
        fields ← encode_fields encode d 0;
        Ok (g CONTRACT_START ++ contract_id ++ fields ++ g CONTRACT_END)
      else
        fields ←
          for_each
            (λ '(key, val),
               val_enc ← encode val;
               Ok (g TEXT ++ quote :: key ++ [quote] ++ g BIND ++ val_enc)) d;
        Ok (g OBJECT ++ lit "{" ++ join (g SEPARATOR) fields ++ lit "}")
  end.

(** *** [LCRDecoder]

    As for LC-T, the state of the decoder is the unread rest of the text. *)

(** [_read_number]. *)
Definition _read_number (text : str) : str * str :=
  span (λ char, isdigit char || contains (lit ".-+e") char) text.

(** The loop of [_read_string], entered after the opening quote. *)
Fixpoint _read_string_loop (text : str) (result : str) (escaped : bool)
  : outcome error (str * str) :=
  match text with
  | [] => Raise ValueError
  | char :: rest =>
      if escaped then _read_string_loop rest (result ++ [char]) false
      else if (char =? backslash)%N then _read_string_loop rest result true
      else if (char =? quote)%N then Ok (result, rest)
      else _read_string_loop rest (result ++ [char]) false
  end.

(** [_read_string]. *)
Definition _read_string (text : str) : outcome error (str * str) :=
  match text with
  | char :: rest =>
      if (char =? quote)%N then _read_string_loop rest [] false
      else Raise ValueError
  | [] => Raise ValueError
  end.

(** [_read_until_glyph]. *)
Definition structural_marker (char : char) : bool :=
  eqc "]" char || eqc "}" char || eqc ")" char || eqc " " char.

Definition _read_until_glyph (text : str) : str * str :=
  let '(read, rest) :=
    span (λ char, negb (is_lc_r_glyph char || structural_marker char)) text in
  (strip read, rest).

(** [int(s)]. *)
Definition to_int (s : str) : outcome error Z :=
  match py_int s with Some n => Ok n | None => Raise ValueError end.

(** The blanks [_parse_contract] skips before a field value. *)
Fixpoint skip_blanks (text : str) : str :=
  match text with
  | c :: rest => if eqc " " c then skip_blanks rest else text
  | [] => []
  end.

(** The separator that may follow an element or an item. *)
Definition skip_separator (text : str) : str :=
  match text with
  | c :: rest => if is_glyph SEPARATOR c then rest else text
  | [] => []
  end.

(** [_parse_value] and the loops of [_parse_array], [_parse_object] and
    [_parse_contract].  Each call uses up one unit of [fuel]. *)
Fixpoint _parse_value (fuel : nat) (text : str) {struct fuel}
  : outcome error (Value * str) :=
  match fuel with
  | O => Raise OutOfFuel
  | S fuel =>
      match text with
      | [] => Raise ValueError
      | char :: rest =>
          if is_glyph NULL char then Ok (VNone, rest)
          else if is_glyph TRUE char then Ok (VBool true, rest)
          else if is_glyph FALSE char then Ok (VBool false, rest)
          else if is_glyph HANDLE char then
            let '(handle, rest) := _read_until_glyph rest in
            Ok (VStr (chr "&" :: handle), rest)
          else if is_glyph INT char then
            let '(num_str, rest) := _read_number rest in
            n ← to_int num_str; Ok (VInt n, rest)
          else if is_glyph FLOAT char then
            let '(num_str, rest) := _read_number rest in
            Raise (Float_result num_str)
          else if is_glyph TEXT char then
            '(s, rest) ← _read_string rest; Ok (VStr s, rest)
          else if is_glyph BYTES char then
            let '(hex_str, rest) := _read_until_glyph rest in
            match fromhex hex_str with
            | Some b => Ok (VBytes b, rest)
            | None => Raise ValueError
            end
          else if is_glyph ARRAY char then
            (* _parse_array *)
            match rest with
            | c :: rest => if eqc "[" c then _parse_array fuel rest [] else Raise ValueError
            | [] => Raise ValueError
            end
          else if is_glyph OBJECT char then
            (* _parse_object *)
            match rest with
            | c :: rest => if eqc "{" c then _parse_object fuel rest [] else Raise ValueError
            | [] => Raise ValueError
            end
          else if is_glyph CONTRACT_START char then
            (* _parse_contract *)
            let '(contract_id_str, rest) := _read_until_glyph rest in
            contract_id ← to_int contract_id_str;
            _parse_contract fuel rest [(lit "contract_id", VInt contract_id)]
          else Raise ValueError
      end
  end

with _parse_array (fuel : nat) (text : str) (elements : list Value) {struct fuel}
  : outcome error (Value * str) :=
  match fuel with
  | O => Raise OutOfFuel
  | S fuel =>
      match text with
      | [] => Raise ValueError
      | c :: rest =>
          if eqc "]" c then Ok (VList elements, rest)
          else
            '(elem, text) ← _parse_value fuel text;
            _parse_array fuel (skip_separator text) (elements ++ [elem])
      end
  end

with _parse_object (fuel : nat) (text : str) (result : list (str * Value))
    {struct fuel} : outcome error (Value * str) :=
  match fuel with
  | O => Raise OutOfFuel
  | S fuel =>
      match text with
      | [] => Raise ValueError
      | c :: rest =>
          if eqc "}" c then Ok (VDict result, rest)
          else if negb (is_glyph TEXT c) then Raise ValueError
          else
            '(key, text) ← _read_string rest;
            match text with
            | c :: rest =>
                if is_glyph BIND c then
                  '(value, text) ← _parse_value fuel rest;
                  _parse_object fuel (skip_separator text) (dict_set result key value)
                else Raise ValueError
            | [] => Raise ValueError
            end
      end
  end

with _parse_contract (fuel : nat) (text : str) (result : list (str * Value))
    {struct fuel} : outcome error (Value * str) :=
  match fuel with
  | O => Raise OutOfFuel
  | S fuel =>
      match text with
      | [] => Raise ValueError
      | char :: rest =>
          if is_glyph CONTRACT_END char then Ok (VDict result, rest)
          else if negb (is_glyph FIELD char) then Raise ValueError
          else
            let '(field_idx_str, text) := _read_until_glyph rest in
            field_idx ← to_int (strip field_idx_str);
            '(value, text) ← _parse_value fuel (skip_blanks text);
            _parse_contract fuel text
              (dict_set result (lit "field_" ++ str_of_int field_idx) value)
      end
  end.

(** [LCRDecoder.decode]: the value at the start of the text; what follows
    it is not looked at. *)
Definition decode (lcr_str : str) : outcome error Value :=
  '(value, _) ← _parse_value (2 * length lcr_str + 1) lcr_str;
  Ok value.

End codec.

(** *** The values that survive the round trip *)

(** The first code point of a glyph. *)
Definition glyph_code (g : glyphs) (name : glyph_name) : char :=
  default 0%N (head (g name)).

(** A glyph table as the file documents it: every glyph is one code
    point, outside ASCII and not a digit, and no two names share one. *)
Record glyphs_ok {U : UCD} (g : glyphs) : Prop := {
  glyph_single : ∀ name, g name = [glyph_code g name];
  glyph_inj : ∀ m n, glyph_code g m = glyph_code g n → m = n;
  glyph_high : ∀ name, (128 ≤ glyph_code g name)%N;
  glyph_not_digit : ∀ name, isdigit (glyph_code g name) = false
}.

Section domain.
Context {U : UCD} (g : glyphs).

(** The name of a handle: no white space, no glyph, no structural marker. *)
Definition handle_name (s : str) : Prop :=
  Forall (λ c, isspace c || is_lc_r_glyph g c || structural_marker c = false) s.

(** Text that is not taken for a handle and has no backslash. *)
Definition plain_text (s : str) : Prop :=
  startswith s (lit "&") || startswith s (lit "h_") = false
  ∧ contains s backslash = false.

(** A key of an object: no quote and no backslash. *)
Definition key_text (s : str) : Prop :=
  contains s quote = false ∧ contains s backslash = false.

Definition object_keys (keys : list str) : Prop :=
  Forall key_text keys ∧ lit "contract_id" ∉ keys.

(** The keys [field_idx], [field_(idx+1)], ... in this order. *)
Fixpoint numbered (idx : Z) (keys : list str) : Prop :=
  match keys with
  | [] => True
  | key :: keys => key = lit "field_" ++ str_of_int idx ∧ numbered (idx + 1) keys
  end.

(** The items of a contract: an integer [contract_id], and besides it the
    fields [field_0], [field_1], ... in the order of their numbers. *)
Definition contract_keys (d : list (str * Value)) : Prop :=
  (∃ cid, dict_lookup d (lit "contract_id") = Some (VInt cid))
  ∧ numbered 0 (filter (λ kv, kv.1 ≠ lit "contract_id") d).*1.

Fixpoint lcr_value (v : Value) : Prop :=
  match v with
  | VNone | VBool _ | VInt _ => True
  | VStr s => plain_text s ∨ ∃ name, s = chr "&" :: name ∧ handle_name name
  | VBytes b => Forall (λ x, 0 ≤ x < 256) b
  | VList l => foldr (λ x P, lcr_value x ∧ P) True l
  | VDict d =>
      NoDup d.*1
      ∧ (object_keys d.*1 ∨ contract_keys d)
      ∧ foldr (λ kv P, lcr_value kv.2 ∧ P) True d
  end.

End domain.

(** The module-level functions, with the glyph table of the module. *)
Definition encode_lcr (value : Value) : outcome error str :=
  encode LC_R_GLYPHS value.
Definition decode_lcr {U : UCD} (lcr_str : str) : outcome error Value :=
  decode LC_R_GLYPHS lcr_str.

End LCR.

(** ** Notions for the round trips *)

(** An ASCII decimal digit, and the number a run of digits denotes when it
    continues the number [a]. *)
Definition is_digit (c : char) : Prop := (48 ≤ c ≤ 57)%N.

Definition dec_value (ds : str) (a : Z) : Z :=
  foldl (λ a c, 10 * a + (Z.of_N c - 48)) a ds.

(** What may follow an encoded value inside a larger one: nothing, or one
    of the punctuation marks [, ] } : =]. *)
Definition delim_char (c : char) : bool :=
  existsb (N.eqb c) [44; 93; 125; 58; 61]%N.

Definition delim (rest : str) : Prop :=
  match rest with [] => True | c :: _ => delim_char c = true end.

(** The name of a contract field. *)
Definition field_name (idx : Z) : str := lit "field_" ++ str_of_int idx.

Module LCT_round_trip.
Import LCT.
Section defs.
Context {U : UCD}.

(** [_parse_value] reads [e] as [v'], whatever delimiter follows. *)
Definition decodes_to (e : str) (v' : Value) : Prop :=
  ∀ fuel rest, delim rest → (2 * length e + 1 ≤ fuel)%nat →
    _parse_value fuel (e ++ rest) = Ok (v', rest).

(** A text that [strip] leaves alone and that does not close an array. *)
Definition tight (e : str) : Prop :=
  ∃ c z, head e = Some c ∧ last e = Some z
         ∧ isspace c = false ∧ eqc "]" c = false ∧ isspace z = false.

(** The text [encode] gives for a value and the value [decode] reads from
    it, with defaults where they fail. *)
Definition encoding (v : Value) : str :=
  match encode v with Ok e => e | Raise _ => [] end.

Definition decoding (v : Value) : Value :=
  let e := encoding v in
  match _parse_value (2 * length e + 1) e with
  | Ok (v', _) => v'
  | Raise _ => VNone
  end.

(** The round trip of one value, in the form the induction carries. *)
Definition round_trips (v : Value) : Prop :=
  encode v = Ok (encoding v)
  ∧ tight (encoding v)
  ∧ decodes_to (encoding v) (decoding v)
  ∧ py_eq v (decoding v) = true.

(** The fields of a contract with their indices. *)
Definition fields_of (d : list (str * Value)) : list (Z * Value) :=
  omap (λ kv, idx ← field_index kv.1; Some (idx, kv.2)) d.

(** What the encoder writes for one item of an object and for one field of
    a contract. *)
Definition object_part (kv : str * Value) : str :=
  kv.1 ++ lit ":" ++ encoding kv.2.

Definition contract_part (f : Z * Value) : str :=
  str_of_int f.1 ++ lit "=" ++ encoding f.2.

End defs.
End LCT_round_trip.

Module LCR_round_trip.
Import LCR.
Section defs.
Context {U : UCD} (g : glyphs).

(** What may follow an encoded value inside a larger one: nothing, a
    glyph, or a closing bracket. *)
Definition follows (rest : str) : Prop :=
  match rest with
  | [] => True
  | c :: _ => is_lc_r_glyph g c || eqc "]" c || eqc "}" c = true
  end.

(** [_parse_value] reads [e] as [v'], whatever follows. *)
Definition decodes_to (e : str) (v' : Value) : Prop :=
  ∀ fuel rest, follows rest → (2 * length e + 1 ≤ fuel)%nat →
    _parse_value g fuel (e ++ rest) = Ok (v', rest).

Definition encoding (v : Value) : str :=
  match encode g v with Ok e => e | Raise _ => [] end.

Definition decoding (v : Value) : Value :=
  let e := encoding v in
  match _parse_value g (2 * length e + 1) e with
  | Ok (v', _) => v'
  | Raise _ => VNone
  end.

(** The round trip of one value, in the form the induction carries; the
    encoding starts with a glyph. *)
Definition round_trips (v : Value) : Prop :=
  encode g v = Ok (encoding v)
  ∧ (∃ name e, encoding v = glyph_code g name :: e)
  ∧ decodes_to (encoding v) (decoding v)
  ∧ py_eq v (decoding v) = true.

(** What the encoder writes for one item of an object, and for the fields
    of a contract from the index [idx] on. *)
Definition object_part (kv : str * Value) : str :=
  g TEXT ++ quote :: kv.1 ++ [quote] ++ g BIND ++ encoding kv.2.

(** The items of a contract that are fields. *)
Definition fields_of (d : list (str * Value)) : list (str * Value) :=
  filter (λ kv, kv.1 ≠ lit "contract_id") d.

Fixpoint contract_text (idx : Z) (fields : list (str * Value)) : str :=
  match fields with
  | [] => []
  | kv :: fields =>
      g FIELD ++ str_of_int idx ++ lit " " ++ encoding kv.2
        ++ contract_text (idx + 1) fields
  end.

End defs.
End LCR_round_trip.

(** * Properties *)

(** ** LEB128 *)

Section LEB128_facts.
Import LEB128.

(** On a negative value the loop of [encode_leb128_u32] never reaches
    [value == 0]: no amount of fuel yields a result. *)
Lemma encode_u32_loop_negative (fuel : nat) (value : Z) (result : bytes) :
  value < 0 → encode_u32_loop fuel value result = None.
Proof.
  revert value result; induction fuel as [|fuel IH]; intros value result Hneg;
    [reflexivity|].
  cbn [encode_u32_loop].
  assert (Hs : Z.shiftr value 7 < 0) by (apply Z.shiftr_neg; lia).
  destruct (Z.eqb_spec (Z.shiftr value 7) 0) as [E|_]; [lia|].
  now apply IH.
Qed.

Lemma encode_u32_loop_enough (fuel : nat) (value : Z) (result : bytes) :
  0 ≤ value < 2 ^ Z.of_nat fuel →
  ∃ bs, encode_u32_loop (S fuel) value result = Some bs.
Proof.
  revert value result; induction fuel as [|fuel IH]; intros value result Hv.
  - change (2 ^ Z.of_nat 0) with 1 in Hv.
    assert (value = 0) as -> by lia. cbn; eauto.
  - remember (S fuel) as k. cbn [encode_u32_loop].
    destruct (Z.eqb_spec (Z.shiftr value 7) 0) as [E|NE]; [eauto|]. subst k.
    apply IH. rewrite Z.shiftr_div_pow2 by lia. change (2 ^ 7) with 128.
    rewrite Nat2Z.inj_succ, Z.pow_succ_r in Hv by lia.
    split; [apply Z.div_pos; lia|apply Z.div_lt_upper_bound; lia].
Qed.

(** [encode_leb128_u32] returns on every non-negative value. *)
Lemma encode_leb128_u32_total (value : Z) :
  0 ≤ value → ∃ bs, encode_leb128_u32 value = Some bs.
Proof.
  intros Hv. unfold encode_leb128_u32.
  replace (Z.to_nat (Z.log2 value) + 2)%nat
    with (S (S (Z.to_nat (Z.log2 value)))) by lia.
  apply encode_u32_loop_enough.
  rewrite Nat2Z.inj_succ, Z2Nat.id by apply Z.log2_nonneg.
  destruct (Z.eq_dec value 0) as [->|NE]; [cbn; lia|].
  split; [lia|]. apply Z.log2_spec. lia.
Qed.

Lemma encode_i64_loop_enough (fuel : nat) (value : Z) (result : bytes) :
  - 2 ^ Z.of_nat fuel ≤ value < 2 ^ Z.of_nat fuel →
  ∃ bs, encode_i64_loop (S fuel) (value <? 0) value result = Some bs.
Proof.
  revert value result; induction fuel as [|fuel IH]; intros value result Hv.
  - change (2 ^ Z.of_nat 0) with 1 in Hv.
    assert (value = 0 ∨ value = -1) as [-> | ->] by lia; cbn; eauto.
  - remember (S fuel) as k. cbn [encode_i64_loop].
    set (more := if value <? 0 then _ else _).
    destruct more; [|eauto]. subst k.
    assert (Hsign : (Z.shiftr value 7 <? 0) = (value <? 0)).
    { destruct (Z.ltb_spec value 0) as [Hn|Hn];
        destruct (Z.ltb_spec (Z.shiftr value 7) 0) as [Hs|Hs]; try reflexivity.
      - pose proof (proj2 (Z.shiftr_neg value 7) Hn). lia.
      - pose proof (proj1 (Z.shiftr_neg value 7) Hs). lia. }
    rewrite <- Hsign. apply IH.
    rewrite Z.shiftr_div_pow2 by lia. change (2 ^ 7) with 128.
    rewrite Nat2Z.inj_succ, Z.pow_succ_r in Hv by lia.
    split.
    + apply Z.div_le_lower_bound; lia.
    + apply Z.div_lt_upper_bound; lia.
Qed.

(** [encode_leb128_i64] returns on every integer. *)
Lemma encode_leb128_i64_total (value : Z) :
  ∃ bs, encode_leb128_i64 value = Some bs.
Proof.
  unfold encode_leb128_i64.
  replace (Z.to_nat (Z.log2 (Z.abs value)) + 2)%nat
    with (S (S (Z.to_nat (Z.log2 (Z.abs value))))) by lia.
  apply encode_i64_loop_enough.
  rewrite Nat2Z.inj_succ, Z2Nat.id by apply Z.log2_nonneg.
  destruct (Z.eq_dec value 0) as [->|NE];
    [vm_compute; split; [discriminate|reflexivity]|].
  assert (Hl : Z.abs value < 2 ^ Z.succ (Z.log2 (Z.abs value)))
    by (apply Z.log2_spec; lia).
  set (p := 2 ^ Z.succ (Z.log2 (Z.abs value))) in *. lia.
Qed.

Lemma decode_u32_loop_terminated (rest : bytes) (result shift : Z) (offset : nat) :
  Exists (λ b, Z.land b 0x80 = 0) rest →
  ∃ v o, decode_u32_loop rest result shift offset = Ok (v, o).
Proof.
  intros H; revert result shift offset.
  induction rest as [|byte rest IH]; intros result shift offset;
    [inversion H|].
  cbn [decode_u32_loop].
  destruct (Z.eqb_spec (Z.land byte 128) 0) as [E|NE]; [eauto|].
  apply IH. inversion H; subst; [contradiction|assumption].
Qed.

Lemma decode_u32_loop_unterminated (rest : bytes) (result shift : Z) (offset : nat) :
  Forall (λ b, Z.land b 0x80 ≠ 0) rest →
  decode_u32_loop rest result shift offset = Raise IndexError.
Proof.
  intros H; revert result shift offset.
  induction H as [|byte rest Hb _ IH]; intros result shift offset; [reflexivity|].
  cbn [decode_u32_loop].
  destruct (Z.eqb_spec (Z.land byte 128) 0) as [E|NE]; [contradiction|apply IH].
Qed.

Lemma decode_i64_loop_terminated (rest : bytes) (result shift : Z) (offset : nat) :
  Exists (λ b, Z.land b 0x80 = 0) rest →
  ∃ r, decode_i64_loop rest result shift offset = Ok r.
Proof.
  intros H; revert result shift offset.
  induction rest as [|byte rest IH]; intros result shift offset;
    [inversion H|].
  cbn [decode_i64_loop].
  destruct (Z.eqb_spec (Z.land byte 128) 0) as [E|NE]; [eauto|].
  apply IH. inversion H; subst; [contradiction|assumption].
Qed.

Lemma decode_i64_loop_unterminated (rest : bytes) (result shift : Z) (offset : nat) :
  Forall (λ b, Z.land b 0x80 ≠ 0) rest →
  decode_i64_loop rest result shift offset = Raise IndexError.
Proof.
  intros H; revert result shift offset.
  induction H as [|byte rest Hb _ IH]; intros result shift offset; [reflexivity|].
  cbn [decode_i64_loop].
  destruct (Z.eqb_spec (Z.land byte 128) 0) as [E|NE]; [contradiction|apply IH].
Qed.

(** C6: at the smallest signed 64-bit integer the round trip fails.  The
    encoding of [-2^63] has ten bytes, so the decoder leaves its loop with
    [shift = 70]; the guard [shift < 64] then skips the sign extension and
    the decoder returns [127 * 2^63]. *)
Theorem leb128_i64_min_not_recovered :
  encode_leb128_i64 (- 2 ^ 63)
    = Some [0x80; 0x80; 0x80; 0x80; 0x80; 0x80; 0x80; 0x80; 0x80; 0x7F]
  ∧ decode_leb128_i64
      [0x80; 0x80; 0x80; 0x80; 0x80; 0x80; 0x80; 0x80; 0x80; 0x7F] 0
    = Ok (127 * 2 ^ 63, 10%nat)
  ∧ 127 * 2 ^ 63 ≠ - 2 ^ 63.
Proof. repeat split; vm_compute; congruence. Qed.

(** The largest signed 64-bit integer does round-trip. *)
Lemma leb128_i64_max_recovered :
  ∃ bs, encode_leb128_i64 (2 ^ 63 - 1) = Some bs
        ∧ decode_leb128_i64 bs 0 = Ok (2 ^ 63 - 1, length bs).
Proof. eexists; split; vm_compute; reflexivity. Qed.

(** C7, as stated, fails: the two-byte sequence [0x80 0x00] is an overlong
    encoding of zero (the encoder writes the single byte [0x00]), and both
    decoders return the value 0 for it. *)
Lemma leb128_overlong_zero_accepted :
  encode_leb128_u32 0 = Some [0x00]
  ∧ encode_leb128_i64 0 = Some [0x00]
  ∧ decode_leb128_u32 [0x80; 0x00] 0 = Ok (0, 2%nat)
  ∧ decode_leb128_i64 [0x80; 0x00] 0 = Ok (0, 2%nat).
Proof. repeat split. Qed.

(** C7, amended: the decoders make no minimality check.  Whenever some byte
    at or after [offset] has its high bit clear, both return a value; when
    no such byte exists they raise [IndexError], their only error. *)
Theorem leb128_decoders_accept_terminated (data : bytes) (offset : nat) :
  Exists (λ b, Z.land b 0x80 = 0) (drop offset data) →
  (∃ v o, decode_leb128_u32 data offset = Ok (v, o))
  ∧ (∃ v o, decode_leb128_i64 data offset = Ok (v, o)).
Proof.
  intros H; split.
  - now apply decode_u32_loop_terminated.
  - unfold decode_leb128_i64.
    destruct (decode_i64_loop_terminated _ 0 0 offset H) as [[[[r s] b] o] ->].
    eauto.
Qed.

Lemma leb128_decoders_accept_terminated_witness :
  Exists (λ b, Z.land b 0x80 = 0) (drop 0 [0x80; 0x00])
  ∧ (∃ v o, decode_leb128_u32 [0x80; 0x00] 0 = Ok (v, o))
  ∧ (∃ v o, decode_leb128_i64 [0x80; 0x00] 0 = Ok (v, o)).
Proof.
  assert (H : Exists (λ b, Z.land b 0x80 = 0) (drop 0 [0x80; 0x00])).
  { cbn. apply Exists_cons_tl, Exists_cons_hd. reflexivity. }
  split; [exact H|]. exact (leb128_decoders_accept_terminated [0x80; 0x00] 0 H).
Defined.

(** The only error of the decoders: running off the end of the data. *)
Lemma leb128_decoders_unterminated (data : bytes) (offset : nat) :
  Forall (λ b, Z.land b 0x80 ≠ 0) (drop offset data) →
  decode_leb128_u32 data offset = Raise IndexError
  ∧ decode_leb128_i64 data offset = Raise IndexError.
Proof.
  intros H; split.
  - now apply decode_u32_loop_unterminated.
  - unfold decode_leb128_i64. now rewrite decode_i64_loop_unterminated.
Qed.

End LEB128_facts.
(** ** The batch frame and its trailer *)

Section LCB_facts.
Import LCB.

(** A SHA-256 digest has 32 bytes. *)
Lemma sha256_digest_length (msg : bytes) : length (SHA256.digest msg) = 32%nat.
Proof.
  unfold SHA256.digest.
  destruct (SHA256.process _ _ _) as [[[[[[[a b] c] d] e] f] g] h].
  reflexivity.
Qed.

Lemma bind_Ok {E A B} (r : outcome E A) (k : A → outcome E B) (b : B) :
  (r ≫= k) = Ok b → ∃ a, r = Ok a ∧ k a = Ok b.
Proof. destruct r as [a|e]; [eauto|discriminate]. Qed.

(** Every step of the builder only appends to [data]. *)
Lemma pack_shape_extends (shape : list Z) (payload payload' : bytes) :
  pack_shape payload shape = Ok payload' → ∃ more, payload' = payload ++ more.
Proof.
  revert payload; induction shape as [|dim shape IH]; intros payload H; cbn in H.
  - injection H as <-. exists []. now rewrite app_nil_r.
  - apply bind_Ok in H as (d & _ & H). apply IH in H as [more ->].
    exists (d ++ more). now rewrite <- app_assoc.
Qed.

Lemma build_param_extends (data data' : bytes) (item : str * param) :
  build_param data item = Ok data' → ∃ more, data' = data ++ more.
Proof.
  destruct item as [name p]. unfold build_param.
  intros H. apply bind_Ok in H as (nb & _ & H). apply bind_Ok in H as (n & _ & H).
  destruct p.
  - apply bind_Ok in H as (v & _ & H). injection H as <-.
    rewrite <- ?app_assoc. eauto.
  - injection H as <-. rewrite <- ?app_assoc. eauto.
  - injection H as <-. rewrite <- ?app_assoc. eauto.
  - destruct (256 <=? length shape)%nat; [discriminate|].
    apply bind_Ok in H as (tp & _ & H). apply bind_Ok in H as (m & _ & H).
    injection H as <-. rewrite <- ?app_assoc. eauto.
  - apply bind_Ok in H as (vb & _ & H). apply bind_Ok in H as (m & _ & H).
    injection H as <-. rewrite <- ?app_assoc. eauto.
  - apply bind_Ok in H as (v & _ & H). injection H as <-.
    rewrite <- ?app_assoc. eauto.
  - injection H as <-. rewrite <- ?app_assoc. eauto.
Qed.

Lemma build_params_extends (params : list (str * param)) (data data' : bytes) :
  build_params data params = Ok data' → ∃ more, data' = data ++ more.
Proof.
  revert data; induction params as [|item params IH]; intros data H; cbn in H.
  - injection H as <-. exists []. now rewrite app_nil_r.
  - apply bind_Ok in H as (d & Hd & H).
    apply build_param_extends in Hd as [m1 ->]. apply IH in H as [m2 ->].
    rewrite <- app_assoc. eauto.
Qed.

Lemma build_instructions_extends (instructions : list instruction) (data data' : bytes) :
  build_instructions data instructions = Ok data' → ∃ more, data' = data ++ more.
Proof.
  revert data; induction instructions as [|[cid params] l IH]; intros data H;
    cbn in H.
  - injection H as <-. exists []. now rewrite app_nil_r.
  - apply bind_Ok in H as (d & Hd & H).
    apply bind_Ok in Hd as (c & _ & Hd). apply bind_Ok in Hd as (n & _ & Hd).
    apply build_params_extends in Hd as [m1 ->]. apply IH in H as [m2 ->].
    rewrite <- ?app_assoc. eauto.
Qed.

(** The shape of every frame: a body made of the magic word, the version
    byte, the 32-byte batch id and the instruction stream, followed by the
    SHA-256 digest of that body. *)
Lemma build_frame (instructions : list instruction) (frame : bytes) :
  build instructions = Ok frame →
  ∃ count rest,
    let body := [0x4C; 0x43; 0x42; 0x31; 0x01] ++ SHA256.digest count ++ rest in
    frame = body ++ SHA256.digest body.
Proof.
  unfold build. intros H.
  apply bind_Ok in H as (magic & Hm & H). vm_compute in Hm. injection Hm as <-.
  apply bind_Ok in H as (count & _ & H).
  apply bind_Ok in H as (n & _ & H).
  apply bind_Ok in H as (data & Hd & H).
  apply build_instructions_extends in Hd as [more ->].
  injection H as <-.
  exists count, (n ++ more).
  cbn [app]. rewrite <- ?app_assoc. reflexivity.
Qed.

(** C2, as stated, fails: the trailer of the empty batch is not the
    BLAKE2b-256 digest of the 38 bytes before it. *)
Lemma build_trailer_not_blake2b :
  ∃ frame, build [] = Ok frame
    ∧ length frame = 70%nat
    ∧ drop 38 frame ≠ BLAKE2b.digest 32 (take 38 frame).
Proof.
  eexists; split; [vm_compute; reflexivity|].
  split; [reflexivity|]. vm_compute. discriminate.
Qed.

(** C2, amended: the final 32 bytes of every frame that [build] returns are
    the SHA-256 digest of all bytes before them, and those bytes start at
    the magic word. *)
Theorem build_trailer_sha256 (instructions : list instruction) (frame : bytes) :
  build instructions = Ok frame →
  let n := (length frame - 32)%nat in
  (37 ≤ n)%nat
  ∧ take 5 frame = le_bytes 4 LCB_MAGIC ++ [LCB_VERSION]
  ∧ drop n frame = SHA256.digest (take n frame).
Proof.
  intros H. apply build_frame in H as (count & rest & ->).
  set (body := [_; _; _; _; _] ++ _ ++ rest) in *.
  assert (Hb : (37 ≤ length body)%nat).
  { subst body. rewrite !length_app, sha256_digest_length. cbn. lia. }
  assert (Hn : (length (body ++ SHA256.digest body) - 32)%nat = length body).
  { rewrite length_app, sha256_digest_length. lia. }
  cbn zeta. rewrite Hn.
  split; [exact Hb|split].
  - reflexivity.
  - now rewrite drop_app_length, take_app_length.
Qed.

Lemma build_trailer_sha256_witness :
  ∃ frame, build [(906, [(lit "m", PInt 2); (lit "transpose_a", PBool false)])] = Ok frame
    ∧ drop (length frame - 32) frame
      = SHA256.digest (take (length frame - 32) frame).
Proof.
  eexists. split; [vm_compute; reflexivity|].
  refine (proj2 (proj2 (build_trailer_sha256
    [(906, [(lit "m", PInt 2); (lit "transpose_a", PBool false)])] _ _))).
  vm_compute; reflexivity.
Defined.

End LCB_facts.
(** ** The shader database *)

Section ShaderDB_facts.
Import ShaderDB.

Lemma string_drop_append (s t : string) :
  string_drop (String.length s) (s +:+ t) = t.
Proof. induction s as [|c s IH]; [now destruct t|exact IH]. Qed.

Lemma prefix_append (s t : string) : String.prefix s (s +:+ t) = true.
Proof.
  induction s as [|c s IH]; [now destruct t|].
  change (String.prefix (String c s) (String c s +:+ t))
    with (if Ascii.ascii_dec c c then String.prefix s (s +:+ t) else false).
  destruct (Ascii.ascii_dec c c); [exact IH|contradiction].
Qed.

(** The prefix test of the constructor succeeds on what [from_spirv] builds,
    so a handle and its string denote the same object path. *)
Lemma from_spirv_init (spirv_bytes : bytes) :
  ShaderHandle_init (str_ (from_spirv spirv_bytes)) = Ok (from_spirv spirv_bytes).
Proof.
  unfold ShaderHandle_init, from_spirv, str_; cbn [handle_].
  now rewrite prefix_append, string_drop_append.
Qed.

Lemma validate_Ok (b : bytes) : validate b = Ok tt ↔ spirv_preconditions b.
Proof.
  unfold validate, spirv_preconditions.
  destruct (Nat.ltb_spec (length b) 20) as [H1|H1].
  { split; [discriminate|lia]. }
  destruct (Nat.eqb_spec (length b mod 4) 0) as [H2|H2]; cbn [negb].
  2:{ split; [discriminate|tauto]. }
  destruct (Z.eqb_spec (int_from_bytes_little (take 4 b)) SPIRV_MAGIC) as [H3|H3];
    cbn [negb].
  - tauto.
  - split; [discriminate|tauto].
Qed.

Lemma validate_Raise (b : bytes) (e : error) :
  validate b = Raise e → precondition_error e ∧ ¬ spirv_preconditions b.
Proof.
  intros H. split.
  - unfold validate in H. unfold precondition_error.
    repeat match type of H with
           | (if ?c then _ else _) = _ => destruct c
           end; inversion H; eauto.
  - intros Hp. apply validate_Ok in Hp. congruence.
Qed.

(** C8: [add_shader] raises a precondition error exactly when one of the
    three checks fails: length below 20, length not a multiple of 4, or a
    first little-endian word other than [0x07230203].  In that case nothing
    else is attempted; a byte string passing the three checks is never
    rejected with a precondition error. *)
Theorem add_shader_preconditions
    (db : ShaderDatabase) (b : bytes) (meta : option metadata)
    (kw : keywords) (now : string) :
  (¬ spirv_preconditions b →
     ∃ e, precondition_error e ∧ add_shader db b meta kw now = (Raise e, db))
  ∧ (spirv_preconditions b →
     ∀ e, (add_shader db b meta kw now).1 = Raise e → ¬ precondition_error e).
Proof.
  split.
  - intros Hn. unfold add_shader.
    destruct (validate b) as [[]|e] eqn:Hv.
    + apply validate_Ok in Hv. contradiction.
    + apply validate_Raise in Hv as [He _]. eauto.
  - intros Hp e He [E|[E|[magic E]]]; subst e;
      unfold add_shader in He;
      apply validate_Ok in Hp; rewrite Hp in He;
      destruct (objects db !! _) as [existing|];
      [destruct (decide (existing = b))| |
       destruct (decide (existing = b))| |
       destruct (decide (existing = b))| ];
      cbn [fst] in He; try discriminate;
      destruct (or_list _ _) as [|? [|? [|? ?]]]; discriminate.
Qed.

Lemma sample_shader_preconditions : spirv_preconditions sample_shader_bytes.
Proof. repeat split. cbn. lia. Qed.

Lemma add_shader_preconditions_witness :
  ∃ e, precondition_error e
       ∧ add_shader empty_db [3; 2; 0x23; 7] None default_keywords "2026-01-01T00:00:00"
         = (Raise e, empty_db).
Proof.
  apply (proj1 (add_shader_preconditions empty_db [3; 2; 0x23; 7] None
                  default_keywords "2026-01-01T00:00:00")).
  intros [H _]. cbn in H. lia.
Defined.

(** C9: when [add_shader] raises a [ValueError] -- input too small, not
    4-byte aligned, wrong magic word, or different bytes found at the object
    path -- the store is left exactly as it was. *)
Theorem add_shader_failure_atomic
    (db db' : ShaderDatabase) (b : bytes) (meta : option metadata)
    (kw : keywords) (now : string) (e : value_error) :
  add_shader db b meta kw now = (Raise (ValueError e), db') → db' = db.
Proof.
  unfold add_shader. intros H.
  destruct (validate b) as [[]|e0]; [|now inversion H].
  destruct (objects db !! _) as [existing|].
  - destruct (decide (existing = b)); now inversion H.
  - destruct (or_list _ _) as [|? [|? [|? ?]]]; inversion H.
Qed.

(** A put on a free object path writes the file and the row. *)
Lemma add_shader_fresh
    (db : ShaderDatabase) (b : bytes) (meta : option metadata)
    (kw : keywords) (now : string) (wg0 wg1 wg2 : Z) (wg : list Z) :
  spirv_preconditions b →
  objects db !! (prefix (from_spirv b), suffix (from_spirv b)) = None →
  or_list (k_workgroup_size (merge_metadata meta kw)) [1; 1; 1] = wg0 :: wg1 :: wg2 :: wg →
  add_shader db b meta kw now
  = (Ok (from_spirv b),
     {| objects := <[(prefix (from_spirv b), suffix (from_spirv b)) := b]> (objects db);
        dirs := {[prefix (from_spirv b)]} ∪ dirs db;
        shaders :=
          <[str_ (from_spirv b) :=
              {| name := k_name (merge_metadata meta kw);
                 shader_stage := k_shader_stage (merge_metadata meta kw);
                 entry_point := k_entry_point (merge_metadata meta kw);
                 workgroup_x := wg0; workgroup_y := wg1; workgroup_z := wg2;
                 spirv_size := length b;
                 created_at := now;
                 descriptor_bindings :=
                   or_list (k_descriptor_bindings (merge_metadata meta kw)) [];
                 tags := or_list (k_tags (merge_metadata meta kw)) [] |}]> (shaders db) |}).
Proof.
  intros Hp Hobj Hwg. unfold add_shader.
  apply validate_Ok in Hp. rewrite Hp, Hobj, Hwg. reflexivity.
Qed.

(** Different bytes at the object path: the put is refused. *)
Lemma add_shader_collision
    (db : ShaderDatabase) (b existing : bytes) (meta : option metadata)
    (kw : keywords) (now : string) :
  spirv_preconditions b →
  objects db !! (prefix (from_spirv b), suffix (from_spirv b)) = Some existing →
  existing ≠ b →
  add_shader db b meta kw now
  = (Raise (ValueError (HashCollision (str_ (from_spirv b)))), db).
Proof.
  intros Hp Hobj Hne. unfold add_shader.
  apply validate_Ok in Hp. rewrite Hp, Hobj.
  destruct (decide (existing = b)); [contradiction|reflexivity].
Qed.

Lemma add_shader_failure_atomic_witness :
  (add_shader collided_db sample_shader_bytes None default_keywords "t").2 = collided_db.
Proof.
  apply (add_shader_failure_atomic collided_db _ sample_shader_bytes None
           default_keywords "t"
           (HashCollision (str_ (from_spirv sample_shader_bytes)))).
  rewrite (add_shader_collision collided_db sample_shader_bytes [0]);
    [reflexivity|exact sample_shader_preconditions| |discriminate].
  apply lookup_singleton_eq.
Defined.

(** An [IndexError] is another matter: a workgroup list with fewer than
    three entries is indexed after the object file was written. *)
Lemma add_shader_short_workgroup :
  let meta := {| m_name := None; m_shader_stage := None; m_entry_point := None;
                 m_workgroup_size := Some [8]; m_descriptor_bindings := None;
                 m_tags := None |} in
  let r := add_shader empty_db sample_shader_bytes (Some meta) default_keywords "t" in
  r.1 = Raise IndexError
  ∧ get r.2 (HObj (from_spirv sample_shader_bytes)) = Ok sample_shader_bytes
  ∧ shaders r.2 = ∅.
Proof.
  cbn zeta. unfold add_shader.
  rewrite (proj2 (validate_Ok _) sample_shader_preconditions).
  change (objects empty_db) with (∅ : gmap (string * string) bytes).
  rewrite lookup_empty. cbn [or_list merge_metadata m_workgroup_size k_workgroup_size fst snd].
  split; [reflexivity|split; [|reflexivity]].
  unfold get. cbn [to_handle objects]. unfold mbind, outcome_bind.
  now rewrite lookup_insert_eq.
Qed.

(** C3, amended: a byte string that passes validation and is already stored
    under its own object path is not stored again; [add_shader] returns its
    handle, the one every put of these bytes returns, and leaves files and
    rows untouched, whatever the metadata. *)
Theorem add_shader_stored
    (db : ShaderDatabase) (b : bytes) (meta : option metadata)
    (kw : keywords) (now : string) :
  spirv_preconditions b →
  objects db !! (prefix (from_spirv b), suffix (from_spirv b)) = Some b →
  add_shader db b meta kw now = (Ok (from_spirv b), db).
Proof.
  intros Hp Hobj. unfold add_shader.
  apply validate_Ok in Hp. rewrite Hp, Hobj.
  destruct (decide (b = b)); [reflexivity|contradiction].
Qed.

(** Whatever succeeded once returns the same handle ever after. *)
Lemma add_shader_success
    (db db' : ShaderDatabase) (b : bytes) (meta : option metadata)
    (kw : keywords) (now : string) (h : ShaderHandle) :
  add_shader db b meta kw now = (Ok h, db') →
  h = from_spirv b ∧ spirv_preconditions b
  ∧ objects db' !! (prefix h, suffix h) = Some b.
Proof.
  unfold add_shader. intros H.
  destruct (validate b) as [[]|e0] eqn:Hv; [|now inversion H].
  apply validate_Ok in Hv.
  destruct (objects db !! _) as [existing|] eqn:Hobj.
  - destruct (decide (existing = b)) as [->|]; inversion H; subst. auto.
  - destruct (or_list _ _) as [|? [|? [|? ?]]]; inversion H; subst.
    cbn [objects]. rewrite lookup_insert_eq. auto.
Qed.

Lemma add_shader_first_put (n now : string) :
  add_shader empty_db sample_shader_bytes (Some (meta_named n)) default_keywords now
  = (Ok (from_spirv sample_shader_bytes),
     {| objects := {[ (prefix (from_spirv sample_shader_bytes),
                       suffix (from_spirv sample_shader_bytes)) := sample_shader_bytes ]};
        dirs := {[prefix (from_spirv sample_shader_bytes)]} ∪ ∅;
        shaders :=
          {[ str_ (from_spirv sample_shader_bytes) :=
               {| name := n; shader_stage := "compute"; entry_point := "main";
                  workgroup_x := 1; workgroup_y := 1; workgroup_z := 1;
                  spirv_size := 20; created_at := now;
                  descriptor_bindings := []; tags := [] |} ]} |}).
Proof.
  rewrite (add_shader_fresh empty_db sample_shader_bytes _ _ _ 1 1 1 []);
    [reflexivity|exact sample_shader_preconditions|apply lookup_empty|reflexivity].
Qed.

Lemma add_shader_stored_witness :
  let db := (add_shader empty_db sample_shader_bytes (Some (meta_named "shader_a"))
               default_keywords "t0").2 in
  add_shader db sample_shader_bytes (Some (meta_named "shader_b")) default_keywords "t1"
  = (Ok (from_spirv sample_shader_bytes), db).
Proof.
  cbn zeta. apply add_shader_stored.
  - exact sample_shader_preconditions.
  - rewrite add_shader_first_put. apply lookup_singleton_eq.
Defined.

(** C3, as stated, fails: the second put of the same bytes returns the same
    handle, but the row keeps the name and the time of the first put; it is
    not upserted with the new metadata. *)
Lemma add_shader_again_no_upsert :
  let h := from_spirv sample_shader_bytes in
  let put1 := add_shader empty_db sample_shader_bytes (Some (meta_named "shader_a"))
                default_keywords "t0" in
  let put2 := add_shader put1.2 sample_shader_bytes (Some (meta_named "shader_b"))
                default_keywords "t1" in
  put1.1 = Ok h ∧ put2.1 = Ok h
  ∧ name <$> (shaders put2.2 !! str_ h) = Some "shader_a"%string
  ∧ created_at <$> (shaders put2.2 !! str_ h) = Some "t0"%string
  ∧ name <$> (shaders put2.2 !! str_ h) ≠ Some "shader_b"%string.
Proof.
  cbn zeta.
  rewrite (add_shader_stored
             (add_shader empty_db sample_shader_bytes (Some (meta_named "shader_a"))
                default_keywords "t0").2);
    [|exact sample_shader_preconditions
     |rewrite add_shader_first_put; apply lookup_singleton_eq].
  rewrite add_shader_first_put. cbn [fst snd shaders].
  rewrite lookup_singleton_eq. cbn [fmap option_fmap option_map name created_at].
  repeat split. discriminate.
Qed.



End ShaderDB_facts.
(** ** The LC-T decoder: termination and consumption of the input *)

Section LCT_decoder_facts.
Import LCT.
Context {U : UCD}.

Lemma consumed_cons (c : char) (text : str) : consumed (c :: text) text.
Proof. split; [apply suffix_cons_r; reflexivity|cbn; lia]. Qed.

Lemma consumed_trans_l (text mid rest : str) :
  mid `suffix_of` text → consumed mid rest → consumed text rest.
Proof.
  intros H1 [H2 H3]. split; [etrans; eassumption|].
  apply suffix_length in H1. lia.
Qed.

Lemma consumed_trans_r (text mid rest : str) :
  consumed text mid → rest `suffix_of` mid → consumed text rest.
Proof.
  intros [H1 H2] H3. split; [etrans; eassumption|].
  apply suffix_length in H3. lia.
Qed.

Lemma lstrip_suffix (text : str) : lstrip text `suffix_of` text.
Proof.
  induction text as [|c text IH]; [reflexivity|]. cbn.
  destruct (isspace c); [now apply suffix_cons_r|reflexivity].
Qed.

Lemma span_app (p : char → bool) (text : str) :
  text = (span p text).1 ++ (span p text).2.
Proof.
  induction text as [|c text IH]; [reflexivity|]. cbn.
  destruct (p c); [|reflexivity].
  destruct (span p text) as [a b]. cbn in *. now f_equal.
Qed.

Lemma span_suffix (p : char → bool) (text : str) : (span p text).2 `suffix_of` text.
Proof. exists (span p text).1. apply span_app. Qed.

Lemma _read_identifier_Ok (text ident rest : str) :
  _read_identifier text = Ok (ident, rest) → text = ident ++ rest ∧ ident ≠ [].
Proof.
  unfold _read_identifier. intros H.
  pose proof (span_app (λ c, isalnum c || eqc "_" c) text) as Hs.
  destruct (span _ text) as [[|c i] r]; [discriminate|].
  injection H as <- <-. split; [exact Hs|discriminate].
Qed.

Lemma _read_identifier_consumed (text ident rest : str) :
  _read_identifier text = Ok (ident, rest) → consumed text rest.
Proof.
  intros H. apply _read_identifier_Ok in H as [-> Hne]. split.
  - now apply suffix_app_r.
  - rewrite length_app. destruct ident; [contradiction|cbn; lia].
Qed.

Lemma _read_string_suffix (text result s rest : str) :
  _read_string text result = Ok (s, rest) → consumed text rest.
Proof.
  revert result. induction text as [text IH] using (induction_ltof1 _ (@length _)).
  unfold ltof in IH. intros result H.
  destruct text as [|char text]; [discriminate|]. cbn [_read_string] in H.
  destruct (char =? quote)%N; [injection H as <- <-; apply consumed_cons|].
  destruct (char =? backslash)%N.
  - destruct text as [|escaped text]; [discriminate|].
    apply IH in H; [|cbn; lia].
    eapply consumed_trans_l; [|exact H].
    apply suffix_cons_r, suffix_cons_r. reflexivity.
  - apply IH in H; [|cbn; lia].
    eapply consumed_trans_l; [|exact H]. apply suffix_cons_r. reflexivity.
Qed.

Lemma _read_number_str_app (text : str) :
  text = (_read_number_str text).1 ++ (_read_number_str text).2.
Proof.
  unfold _read_number_str.
  set (s1 := match text with
             | c :: rest => if eqc "-" c then ([c], rest) else ([], text)
             | [] => ([], text) end).
  assert (H1 : text = s1.1 ++ s1.2).
  { subst s1. destruct text as [|c rest]; [reflexivity|]. now destruct (eqc "-" c). }
  destruct s1 as [sign t1]. cbn [fst snd] in H1. subst text.
  pose proof (span_app isdigit t1) as H2.
  destruct (span isdigit t1) as [int_part t2]. cbn [fst snd] in H2. subst t1.
  set (s3 := match t2 with
             | c :: rest =>
                 if eqc "." c then let '(d, rest) := span isdigit rest in (c :: d, rest)
                 else ([], t2)
             | [] => ([], t2) end).
  assert (H3 : t2 = s3.1 ++ s3.2).
  { subst s3. destruct t2 as [|c rest]; [reflexivity|].
    destruct (eqc "." c); [|reflexivity].
    pose proof (span_app isdigit rest) as H. destruct (span isdigit rest).
    cbn in *. now f_equal. }
  destruct s3 as [frac_part t3]. cbn [fst snd] in H3. subst t2.
  set (s4 := match t3 with [] => _ | _ => _ end).
  assert (H4 : t3 = s4.1 ++ s4.2).
  { subst s4. destruct t3 as [|c rest]; [reflexivity|].
    destruct (eqc "e" c || eqc "E" c); [|reflexivity].
    set (s5 := match rest with [] => _ | _ => _ end).
    assert (H5 : rest = s5.1 ++ s5.2).
    { subst s5. destruct rest as [|c2 rest2]; [reflexivity|].
      now destruct (eqc "+" c2 || eqc "-" c2). }
    destruct s5 as [s r]. cbn [fst snd] in H5. subst rest.
    pose proof (span_app isdigit r) as H. destruct (span isdigit r).
    cbn [fst snd] in *. subst r. cbn. now rewrite <- !app_assoc. }
  destruct s4 as [exp_part t4]. cbn [fst snd] in *. subst t3.
  now rewrite <- !app_assoc.
Qed.

Lemma _read_number_str_suffix (text : str) :
  (_read_number_str text).2 `suffix_of` text.
Proof. exists (_read_number_str text).1. apply _read_number_str_app. Qed.


Lemma _match_consumed (keyword text rest : str) :
  keyword ≠ [] → _match keyword text = Some rest → consumed text rest.
Proof.
  unfold _match. intros Hk H.
  destruct (startswith text keyword) eqn:Hs; [|discriminate].
  assert (Hr : rest = drop (length keyword) text).
  { destruct (drop (length keyword) text) as [|c r]; [congruence|].
    destruct (isalnum c); congruence. }
  assert (Hl : (length keyword ≤ length text)%nat).
  { clear -Hs. revert text Hs. induction keyword as [|k kw IH]; intros [|c t] Hs;
      cbn in *; try lia; try discriminate.
    apply andb_true_iff in Hs as [_ Hs]. apply IH in Hs. lia. }
  subst rest. split; [apply suffix_drop|].
  rewrite length_drop. destruct keyword; [contradiction|cbn in *; lia].
Qed.

Lemma _read_number_str_consumed (c : char) (text : str) :
  eqc "-" c || isdigit c = true →
  consumed (c :: text) (_read_number_str (c :: text)).2.
Proof.
  intros Hc. split; [apply _read_number_str_suffix|].
  pose proof (_read_number_str_app (c :: text)) as Happ.
  assert (Hne : (_read_number_str (c :: text)).1 ≠ []).
  { unfold _read_number_str.
    destruct (eqc "-" c) eqn:E1.
    - destruct (span isdigit text) as [a b].
      repeat match goal with
             | |- context [match ?x with _ => _ end] => destruct x
             end; discriminate.
    - cbn in Hc. cbn [span]. rewrite Hc.
      destruct (span isdigit text) as [a b].
      repeat match goal with
             | |- context [match ?x with _ => _ end] => destruct x
             end; discriminate. }
  apply (f_equal length) in Happ. rewrite length_app in Happ.
  destruct (_read_number_str (c :: text)).1; [contradiction|cbn in *; lia].
Qed.

(** Facts about what each reader leaves, collected from the equations in
    the context. *)
Ltac reader_facts :=
  repeat match goal with
    | E : lstrip ?t = ?x |- _ =>
        lazymatch goal with
        | _ : x `suffix_of` t |- _ => fail
        | _ => let F := fresh "F" in
               pose proof (lstrip_suffix t) as F; rewrite E in F
        end
    | E : _skip_whitespace ?t = ?x |- _ =>
        lazymatch goal with
        | _ : x `suffix_of` t |- _ => fail
        | _ => let F := fresh "F" in
               pose proof (lstrip_suffix t) as F;
               change (lstrip t) with (_skip_whitespace t) in F; rewrite E in F
        end
    | H : context [_skip_whitespace ?t] |- _ =>
        lazymatch goal with
        | _ : _skip_whitespace t `suffix_of` t |- _ => fail
        | _ => assert (_skip_whitespace t `suffix_of` t) by apply lstrip_suffix
        end
    | E : _match ?k ?t = Some ?r |- _ =>
        lazymatch goal with
        | _ : consumed t r |- _ => fail
        | _ => let F := fresh "F" in
               assert (F : consumed t r) by (apply (_match_consumed k); [discriminate|exact E])
        end
    | E : _read_identifier ?t = Ok (_, ?r) |- _ =>
        lazymatch goal with
        | _ : consumed t r |- _ => fail
        | _ => pose proof (_read_identifier_consumed _ _ _ E)
        end
    | E : _read_string ?t _ = Ok (_, ?r) |- _ =>
        lazymatch goal with
        | _ : consumed t r |- _ => fail
        | _ => pose proof (_read_string_suffix _ _ _ _ E)
        end
    | E : _read_hex ?t = (_, ?r) |- _ =>
        lazymatch goal with
        | _ : r `suffix_of` t |- _ => fail
        | _ => let F := fresh "F" in
               pose proof (span_suffix is_hex_char t) as F;
               change (span is_hex_char t) with (_read_hex t) in F;
               rewrite E in F; cbn [snd] in F
        end
    | E : _read_number_str ?t = (_, ?r) |- _ =>
        lazymatch goal with
        | _ : r `suffix_of` t |- _ => fail
        | _ => let F := fresh "F" in
               pose proof (_read_number_str_suffix t) as F;
               rewrite E in F; cbn [snd] in F
        end
    end.

(** [consumed] and [suffix_of] goals, from such facts. *)
Ltac lengths :=
  repeat match goal with
    | H : consumed _ _ |- _ => destruct H as [? ?]
    end;
  repeat match goal with
    | H : ?a `suffix_of` ?b |- _ =>
        lazymatch goal with
        | _ : (length a ≤ length b)%nat |- _ => fail
        | _ => pose proof (suffix_length _ _ H)
        end
    end;
  cbn [length] in *.

Ltac chain :=
  first
    [ assumption
    | reflexivity
    | match goal with
      | H : ?a `suffix_of` ?b |- ?a `suffix_of` _ =>
          etrans; [exact H|]; clear H; chain
      | H : (_ :: ?a) `suffix_of` ?b |- ?a `suffix_of` _ =>
          apply suffix_cons_l in H; etrans; [exact H|]; clear H; chain
      | |- ?a `suffix_of` (_ :: _) => apply suffix_cons_r; chain
      | |- drop _ ?a `suffix_of` _ => etrans; [apply suffix_drop|]; chain
      end ].

Ltac solve_consumed :=
  reader_facts;
  lazymatch goal with
  | |- consumed _ _ =>
      split; [lengths; chain
             | lengths; rewrite ?length_drop in *; cbn [length] in *; lia]
  | |- _ `suffix_of` _ => lengths; chain
  end.

(** Case analysis along the evaluation of a parser body: the scrutinee
    that is evaluated first is the innermost one in head position. *)
Ltac head_scrutinee t k :=
  lazymatch t with
  | match ?x with _ => _ end => head_scrutinee x k
  | _ => k t
  end.

Ltac break_in H :=
  repeat (cbv beta iota zeta in H;
          unfold mbind, outcome_bind, to_int, _read_number in H;
          first
            [ discriminate H
            | lazymatch type of H with
              | match ?x with _ => _ end = _ =>
                  head_scrutinee x ltac:(fun y => let E := fresh "E" in destruct y eqn:E)
              end ]).

Ltac use_IH :=
  repeat match goal with
    | IH : ∀ text v rest, _parse_value ?f text = Ok (v, rest) → _,
      H : _parse_value ?f _ = Ok _ |- _ => apply IH in H
    | IH : ∀ text els v rest, _parse_array ?f text els = Ok (v, rest) → _,
      H : _parse_array ?f _ _ = Ok _ |- _ => apply IH in H
    | IH : ∀ text r v rest, _parse_contract ?f text r = Ok (v, rest) → _,
      H : _parse_contract ?f _ _ = Ok _ |- _ => apply IH in H
    | IH : ∀ text r v rest, _parse_object ?f text r = Ok (v, rest) → _,
      H : _parse_object ?f _ _ = Ok _ |- _ => apply IH in H
    | E : _read_number_str (?c :: ?t) = (_, ?r), Hc : eqc "-" ?c || isdigit ?c = true |- _ =>
        lazymatch goal with
        | _ : consumed (c :: t) r |- _ => fail
        | _ => let F := fresh "F" in
               pose proof (_read_number_str_consumed c t Hc) as F;
               rewrite E in F; cbn [snd] in F
        end
    end.

(** Every parser leaves a rest of the text it was given; a value, an array
    and an object take at least one character. *)
Lemma parse_progress (fuel : nat) :
  (∀ text v rest, _parse_value fuel text = Ok (v, rest) → consumed text rest)
  ∧ (∀ text els v rest, _parse_array fuel text els = Ok (v, rest) → consumed text rest)
  ∧ (∀ text r v rest, _parse_contract fuel text r = Ok (v, rest) → rest `suffix_of` text)
  ∧ (∀ text r v rest, _parse_object fuel text r = Ok (v, rest) → consumed text rest).
Proof.
  induction fuel as [|fuel (IHv & IHa & IHc & IHo)];
    [repeat split; intros; discriminate|].
  split; [|split; [|split]]; intros;
    match goal with H : _ = Ok _ |- _ =>
      simpl in H; break_in H; try (injection H as <- <-)
    end; use_IH;
    repeat match goal with
      | E : context [if ?b then _ else _] |- _ => destruct b eqn:?
      end;
    solve_consumed.
Qed.

Lemma _parse_value_consumed (fuel : nat) (text : str) (v : Value) (rest : str) :
  _parse_value fuel text = Ok (v, rest) → consumed text rest.
Proof. apply parse_progress. Qed.


Ltac progress_facts :=
  repeat match goal with
    | E : _parse_value ?f ?t = Ok (_, ?r) |- _ =>
        lazymatch goal with
        | _ : consumed t r |- _ => fail
        | _ => pose proof (proj1 (parse_progress f) _ _ _ E)
        end
    | E : _parse_array ?f ?t _ = Ok (_, ?r) |- _ =>
        lazymatch goal with
        | _ : consumed t r |- _ => fail
        | _ => pose proof (proj1 (proj2 (parse_progress f)) _ _ _ _ E)
        end
    | E : _parse_object ?f ?t _ = Ok (_, ?r) |- _ =>
        lazymatch goal with
        | _ : consumed t r |- _ => fail
        | _ => pose proof (proj2 (proj2 (proj2 (parse_progress f))) _ _ _ _ E)
        end
    | E : _parse_contract ?f ?t _ = Ok (_, ?r) |- _ =>
        lazymatch goal with
        | _ : r `suffix_of` t |- _ => fail
        | _ => pose proof (proj1 (proj2 (proj2 (parse_progress f))) _ _ _ _ E)
        end
    | E : _read_number_str (?c :: ?t) = (_, ?r), Hc : eqc "-" ?c || isdigit ?c = true |- _ =>
        lazymatch goal with
        | _ : consumed (c :: t) r |- _ => fail
        | _ => let F := fresh "F" in
               pose proof (_read_number_str_consumed c t Hc) as F;
               rewrite E in F; cbn [snd] in F
        end
    end.

(** A field index that [int] accepts is not empty. *)
Lemma py_int_nonempty (s : str) (n : Z) : py_int s = Some n → (1 ≤ length s)%nat.
Proof. destruct s; [discriminate|cbn; lia]. Qed.

Lemma _read_number_str_length (text num_str rest : str) :
  _read_number_str text = (num_str, rest) →
  length text = (length num_str + length rest)%nat.
Proof.
  intros E. pose proof (_read_number_str_app text) as H. rewrite E in H.
  cbn [fst snd] in H. subst text. apply length_app.
Qed.

Lemma _read_identifier_fuel (text : str) : _read_identifier text ≠ Raise OutOfFuel.
Proof.
  unfold _read_identifier. destruct (span _ text) as [[|c i] r]; discriminate.
Qed.

Lemma _read_string_fuel (text result : str) : _read_string text result ≠ Raise OutOfFuel.
Proof.
  revert result. induction text as [text IH] using (induction_ltof1 _ (@length _)).
  unfold ltof in IH. intros result.
  destruct text as [|char text]; [discriminate|]. cbn [_read_string].
  destruct (char =? quote)%N; [discriminate|].
  destruct (char =? backslash)%N.
  - destruct text as [|escaped text]; [discriminate|]. apply IH. cbn; lia.
  - apply IH. cbn; lia.
Qed.

Ltac number_facts :=
  repeat match goal with
    | E : _read_number_str ?t = (?n, ?r) |- _ =>
        lazymatch goal with
        | _ : length t = (length n + length r)%nat |- _ => fail
        | _ => pose proof (_read_number_str_length _ _ _ E)
        end
    | E : py_int ?s = Some _ |- _ =>
        lazymatch goal with
        | _ : (1 ≤ length s)%nat |- _ => fail
        | _ => pose proof (py_int_nonempty _ _ E)
        end
    end.

(** The recursion bound of [decode] is never reached: a text of [n]
    characters needs at most [2 * n + 1] nested calls. *)
Lemma parse_fuel (fuel : nat) :
  (∀ text, (2 * length text + 1 ≤ fuel)%nat → _parse_value fuel text ≠ Raise OutOfFuel)
  ∧ (∀ text els, (2 * length text + 2 ≤ fuel)%nat →
       _parse_array fuel text els ≠ Raise OutOfFuel)
  ∧ (∀ text r, (2 * length text + 2 ≤ fuel)%nat →
       _parse_contract fuel text r ≠ Raise OutOfFuel)
  ∧ (∀ text r, (2 * length text + 2 ≤ fuel)%nat →
       _parse_object fuel text r ≠ Raise OutOfFuel).
Proof.
  induction fuel as [|fuel (IHv & IHa & IHc & IHo)];
    [repeat split; intros; lia|].
  split; [|split; [|split]]; intros; intros Hout;
    simpl in Hout; break_in Hout;
    try (injection Hout as ->);
    progress_facts;
    repeat match goal with
      | E : context [if ?b then _ else _] |- _ => destruct b eqn:?
      end;
    reader_facts; number_facts;
    lazymatch goal with
    | E : _read_identifier _ = Raise OutOfFuel |- _ =>
        exact (_read_identifier_fuel _ E)
    | E : _read_string _ _ = Raise OutOfFuel |- _ =>
        exact (_read_string_fuel _ _ E)
    | E : _parse_value _ _ = Raise OutOfFuel |- _ => apply IHv in E; [exact E|]
    | E : _parse_array _ _ _ = Raise OutOfFuel |- _ => apply IHa in E; [exact E|]
    | E : _parse_contract _ _ _ = Raise OutOfFuel |- _ => apply IHc in E; [exact E|]
    | E : _parse_object _ _ _ = Raise OutOfFuel |- _ => apply IHo in E; [exact E|]
    end;
    lengths; rewrite ?length_drop in *; cbn [length] in *; lia.
Qed.

Lemma lstrip_head (text : str) (c : char) (rest : str) :
  lstrip text = c :: rest → isspace c = false.
Proof.
  induction text as [|d text IH]; [discriminate|]. cbn.
  destruct (isspace d) eqn:E; [exact IH|]. now intros [= <- _].
Qed.

Lemma lstrip_nil (text : str) :
  lstrip text = [] ↔ Forall (λ c, isspace c = true) text.
Proof.
  induction text as [|d text IH]; [split; [constructor|reflexivity]|]. cbn.
  destruct (isspace d) eqn:E.
  - rewrite IH. split; [now constructor|now inversion 1].
  - split; [discriminate|]. inversion 1; congruence.
Qed.

Lemma strip_nil (text : str) :
  Forall (λ c, isspace c = true) text → strip text = [].
Proof.
  intros H. unfold strip, rstrip.
  now rewrite (proj2 (lstrip_nil text) H).
Qed.

(** The last character of a stripped text is not white space. *)
Lemma strip_last (text pre : str) (c : char) :
  strip text = pre ++ [c] → isspace c = false.
Proof.
  unfold strip, rstrip. intros H.
  apply (f_equal (@rev _)) in H. rewrite rev_involutive, rev_app_distr in H.
  cbn in H. now apply lstrip_head in H.
Qed.

(** A non-empty rest of a stripped text does not consist of white space. *)
Lemma strip_suffix_lstrip (text rest : str) :
  rest `suffix_of` strip text → lstrip rest = [] → rest = [].
Proof.
  intros [k Hk] Hs. apply lstrip_nil in Hs.
  destruct (rev rest) as [|c r] eqn:Hr.
  - apply (f_equal (@rev _)) in Hr. now rewrite rev_involutive in Hr.
  - apply (f_equal (@rev _)) in Hr. rewrite rev_involutive in Hr. cbn in Hr. subst rest.
    rewrite app_assoc in Hk. apply strip_last in Hk.
    apply Forall_app in Hs as [_ Hs]. inversion Hs; congruence.
Qed.

(** The recursion bound is an artefact of the model: [decode] never stops
    on it. *)
Lemma decode_fuel (lct_str : str) : decode_lct lct_str ≠ Raise OutOfFuel.
Proof.
  unfold decode_lct, decode.
  destruct (strip lct_str) as [|c text] eqn:E; [discriminate|].
  destruct (_parse_value _ _) as [[v rest]|e] eqn:Ev; cbn.
  - destruct (_skip_whitespace rest); discriminate.
  - intros [= ->]. revert Ev. apply parse_fuel. lia.
Qed.


End LCT_decoder_facts.

(** ** The LC-T round trip *)

(** Induction on values, with the hypothesis for every element of an array
    and every item of a dict. *)
Lemma Value_ind' (P : Value → Prop) :
  P VNone → (∀ b, P (VBool b)) → (∀ n, P (VInt n)) → (∀ s, P (VStr s)) →
  (∀ b, P (VBytes b)) →
  (∀ l, Forall P l → P (VList l)) →
  (∀ d, Forall (λ kv, P kv.2) d → P (VDict d)) →
  ∀ v, P v.
Proof.
  intros HN HB HI HS HBy HL HD.
  fix IH 1. intros [|b|n|s|b|l|d].
  - exact HN.
  - apply HB.
  - apply HI.
  - apply HS.
  - apply HBy.
  - apply HL. induction l as [|x l IHl]; constructor; [apply IH|exact IHl].
  - apply HD. induction d as [|[k x] d IHd]; constructor; [apply IH|exact IHd].
Qed.

(** *** Decimal numerals *)

Lemma dec_value_app (ds es : str) (a : Z) :
  dec_value (ds ++ es) a = dec_value es (dec_value ds a).
Proof. apply foldl_app. Qed.

Lemma digits_spec (fuel : nat) (n : Z) (acc : str) :
  0 ≤ n < 10 ^ Z.of_nat (S fuel) →
  ∃ ds, digits (S fuel) n acc = ds ++ acc ∧ ds ≠ [] ∧ Forall is_digit ds
        ∧ ∀ a, dec_value ds a = a * 10 ^ Z.of_nat (length ds) + n.
Proof.
  revert n acc. induction fuel as [|fuel IH]; intros n acc Hn;
    remember (Z.to_N (48 + n mod 10)) as d eqn:Ed;
    assert (Hd : is_digit d)
      by (subst d; unfold is_digit; pose proof (Z.mod_pos_bound n 10); lia);
    assert (Hv : Z.of_N d - 48 = n mod 10)
      by (subst d; pose proof (Z.mod_pos_bound n 10); lia).
  - change (10 ^ Z.of_nat 1) with 10 in Hn.
    exists [d]. cbn [digits]. rewrite <- Ed.
    replace (n <? 10) with true by (symmetry; apply Z.ltb_lt; lia).
    split; [reflexivity|]. split; [discriminate|].
    split; [constructor; [exact Hd|constructor]|].
    intros a. cbn. rewrite Hv, Z.mod_small by lia. lia.
  - remember (S fuel) as k eqn:Ek. cbn [digits]. rewrite <- Ed.
    destruct (Z.ltb_spec n 10) as [Hlt|Hge].
    + exists [d]. split; [reflexivity|]. split; [discriminate|].
      split; [constructor; [exact Hd|constructor]|].
      intros a. cbn. rewrite Hv, Z.mod_small by lia. lia.
    + destruct (IH (n / 10) (d :: acc)) as (ds & E & Hne & Hall & Hval).
      { rewrite (Nat2Z.inj_succ k), Z.pow_succ_r in Hn by lia.
        split; [apply Z.div_pos; lia|apply Z.div_lt_upper_bound; lia]. }
      exists (ds ++ [d]).
      rewrite E, <- app_assoc. split; [reflexivity|].
      split; [destruct ds; discriminate|].
      split; [apply Forall_app; split; [exact Hall|constructor; [exact Hd|constructor]]|].
      intros a. rewrite dec_value_app, Hval, length_app. cbn.
      rewrite Hv. replace (Z.of_nat (length ds + 1)) with (Z.succ (Z.of_nat (length ds))) by lia.
      rewrite Z.pow_succ_r by lia.
      pose proof (Z.div_mod n 10). lia.
Qed.

(** [str(n)] is an optional minus sign and a non-empty run of digits that
    denotes [|n|]. *)
Lemma str_of_int_spec (n : Z) :
  ∃ ds, str_of_int n = (if n <? 0 then [45%N] else []) ++ ds
        ∧ ds ≠ [] ∧ Forall is_digit ds
        ∧ ∀ a, dec_value ds a = a * 10 ^ Z.of_nat (length ds) + Z.abs n.
Proof.
  unfold str_of_int.
  destruct (digits_spec (Z.to_nat (Z.log2 (Z.abs n))) (Z.abs n) []) as (ds & E & H).
  { rewrite Nat2Z.inj_succ, Z2Nat.id by apply Z.log2_nonneg. split; [lia|].
    destruct (Z.eq_dec n 0) as [->|Hn]; [reflexivity|].
    eapply Z.lt_le_trans; [apply Z.log2_spec; lia|].
    apply Z.pow_le_mono_l. lia. }
  exists ds. rewrite E, app_nil_r. split; [|exact H].
  now destruct (n <? 0).
Qed.

Lemma more_digits_digits (ds : str) (a : Z) :
  Forall is_digit ds → more_digits ds a = Some (dec_value ds a, []).
Proof.
  intros H. revert a. induction H as [|c ds Hc _ IH]; intros a; [reflexivity|].
  cbn [more_digits]. unfold ascii_digit, is_digit in *.
  replace ((48 <=? c)%N && (c <=? 57)%N) with true
    by (symmetry; apply andb_true_intro; split; apply N.leb_le; lia).
  apply IH.
Qed.

(** *** Characters *)

Ltac compare_chars :=
  unfold eqc, in_ranges, is_hex_char, hex_value, ascii_digit,
    ascii_isspace, quote, backslash, is_digit;
  cbn;
  repeat match goal with
    | |- context [(?a <=? ?b)%N] => destruct (N.leb_spec a b)
    | |- context [(?a =? ?b)%N] => destruct (N.eqb_spec a b)
    | |- context [(?a <? ?b)%N] => destruct (N.ltb_spec a b)
    end;
  cbn; intros; try reflexivity; try discriminate; try lia.

Lemma delim_char_cases (c : char) :
  delim_char c = true → c ∈ [44; 93; 125; 58; 61]%N.
Proof.
  unfold delim_char. intros (x & Hx & E)%existsb_exists.
  apply N.eqb_eq in E. subst x. now apply list_elem_of_In.
Qed.

Ltac delim_cases H :=
  apply delim_char_cases in H;
  repeat (apply elem_of_cons in H; destruct H as [->|H]);
  [..|now apply elem_of_nil in H].

Section LCT_characters.
Context {U : UCD} (HU : ascii_faithful U).

Lemma delim_char_isspace (c : char) : delim_char c = true → isspace c = false.
Proof. intros H. delim_cases H; now rewrite (isspace_ascii _ HU). Qed.

Lemma delim_char_isdigit (c : char) : delim_char c = true → isdigit c = false.
Proof. intros H. delim_cases H; now rewrite (isdigit_ascii _ HU). Qed.

Lemma delim_char_isalnum (c : char) : delim_char c = true → isalnum c = false.
Proof. intros H. delim_cases H; now rewrite (isalnum_ascii _ HU). Qed.

Lemma delim_char_ident (c : char) :
  delim_char c = true → isalnum c || eqc "_" c = false.
Proof.
  intros H. rewrite delim_char_isalnum by exact H. delim_cases H; reflexivity.
Qed.

Lemma delim_char_hex (c : char) : delim_char c = true → is_hex_char c = false.
Proof. intros H. delim_cases H; reflexivity. Qed.

Lemma is_digit_isdigit (c : char) : is_digit c → isdigit c = true.
Proof.
  intros H. rewrite (isdigit_ascii _ HU) by (unfold is_digit in H; lia).
  revert H. compare_chars.
Qed.

Lemma is_digit_isspace (c : char) : is_digit c → isspace c = false.
Proof.
  intros H. rewrite (isspace_ascii _ HU) by (unfold is_digit in H; lia).
  revert H. compare_chars.
Qed.

Lemma ident_char_isspace (c : char) :
  isalnum c || eqc "_" c = true → isspace c = false.
Proof.
  intros [H|H]%orb_true_iff; [now apply (isalnum_not_space _ HU)|].
  apply N.eqb_eq in H. subst c.
  now rewrite (isspace_ascii _ HU) by reflexivity.
Qed.

Lemma ident_char_not_delim (c : char) :
  isalnum c || eqc "_" c = true → delim_char c = false.
Proof.
  intros H. destruct (delim_char c) eqn:E; [|reflexivity].
  now rewrite delim_char_ident in H.
Qed.

End LCT_characters.

(** *** The readers on what the encoder writes *)

Lemma nibble_cases (x : Z) : 0 ≤ x < 16 → x ∈ seqZ 0 16.
Proof. intros H. apply elem_of_seqZ. lia. Qed.

Ltac nibble_cases H :=
  apply nibble_cases in H; vm_compute in H;
  repeat (apply elem_of_cons in H; destruct H as [->|H]);
  [..|now apply elem_of_nil in H].

Section LCT_readers.
Import LCT LCT_round_trip.
Context {U : UCD} (HU : ascii_faithful U).

Lemma lstrip_cons (c : char) (text : str) :
  isspace c = false → lstrip (c :: text) = c :: text.
Proof. intros H. cbn. now rewrite H. Qed.

Lemma lstrip_idemp (text : str) : lstrip (lstrip text) = lstrip text.
Proof.
  induction text as [|c text IH]; [reflexivity|].
  cbn. destruct (isspace c) eqn:E; [exact IH|]. cbn. now rewrite E.
Qed.

Lemma span_all (p : char → bool) (a rest : str) :
  Forall (λ c, p c = true) a →
  match rest with [] => True | c :: _ => p c = false end →
  span p (a ++ rest) = (a, rest).
Proof.
  intros Ha Hrest. induction Ha as [|c a Hc _ IH]; cbn.
  - destruct rest as [|c rest]; [reflexivity|]. cbn. now rewrite Hrest.
  - now rewrite Hc, IH.
Qed.

Lemma delim_stops (p : char → bool) (rest : str) :
  (∀ c, delim_char c = true → p c = false) → delim rest →
  match rest with [] => True | c :: _ => p c = false end.
Proof. intros Hp. destruct rest; [easy|]. apply Hp. Qed.

Lemma _parse_value_lstrip (fuel : nat) (text : str) :
  _parse_value fuel (lstrip text) = _parse_value fuel text.
Proof.
  destruct fuel as [|fuel]; [reflexivity|].
  cbn [_parse_value]. unfold _skip_whitespace. now rewrite lstrip_idemp.
Qed.

(** Numbers. *)
Lemma str_of_int_chars (n : Z) :
  Forall (λ c, c = 45%N ∨ is_digit c) (str_of_int n).
Proof.
  destruct (str_of_int_spec n) as (ds & -> & _ & Hds & _).
  apply Forall_app. split.
  - destruct (n <? 0); repeat constructor.
  - eapply Forall_impl; [exact Hds|]. now right.
Qed.

Lemma str_of_int_head (n : Z) :
  ∃ c s, str_of_int n = c :: s ∧ (c = 45%N ∨ is_digit c).
Proof.
  pose proof (str_of_int_chars n) as H.
  destruct (str_of_int_spec n) as (ds & E & Hne & _).
  destruct (str_of_int n) as [|c s].
  - destruct (n <? 0), ds; try discriminate. congruence.
  - exists c, s. split; [reflexivity|]. now inversion H.
Qed.

Lemma str_of_int_last (n : Z) :
  ∃ z, last (str_of_int n) = Some z ∧ is_digit z.
Proof.
  destruct (str_of_int_spec n) as (ds & -> & Hne & Hds & _).
  destruct (last ds) as [z|] eqn:E.
  - exists z. split.
    + destruct (n <? 0); [|exact E]. cbn [app].
      destruct ds as [|d ds]; [congruence|]. now rewrite last_cons_cons.
    + apply last_Some in E as [l' ->]. apply Forall_app in Hds as [_ H].
      now inversion H.
  - apply last_None in E. contradiction.
Qed.

Lemma sign_or_digit_isspace (c : char) :
  c = 45%N ∨ is_digit c → isspace c = false.
Proof.
  intros [->|H]; [now rewrite (isspace_ascii _ HU)|now apply is_digit_isspace].
Qed.

Lemma _read_number_str_int (n : Z) (rest : str) :
  delim rest → _read_number_str (str_of_int n ++ rest) = (str_of_int n, rest).
Proof.
  intros Hrest.
  destruct (str_of_int_spec n) as (ds & -> & Hne & Hds & _).
  assert (Hspan : span isdigit (ds ++ rest) = (ds, rest)).
  { apply span_all.
    - eapply Forall_impl; [exact Hds|]. apply (is_digit_isdigit HU).
    - apply delim_stops; [apply (delim_char_isdigit HU)|exact Hrest]. }
  assert (Htail :
    match rest with
    | c :: _ => eqc "." c = false ∧ eqc "e" c || eqc "E" c = false
    | [] => True
    end).
  { destruct rest as [|c rest]; [exact I|]. cbn in Hrest.
    delim_cases Hrest; now split. }
  unfold _read_number_str, str, char in *. destruct (n <? 0).
  - cbn [app]. change (eqc "-" 45%N) with true. cbv iota.
    rewrite Hspan. destruct rest as [|c rest].
    + now rewrite !app_nil_r.
    + destruct Htail as [-> ->]. now rewrite !app_nil_r.
  - cbn [app]. destruct ds as [|d ds]; [congruence|].
    assert (Hd : eqc "-" d = false)
      by (apply Forall_cons in Hds as [Hd _]; revert Hd; compare_chars).
    cbn [app]. rewrite Hd.
    change (d :: ds ++ rest) with ((d :: ds) ++ rest). rewrite Hspan.
    destruct rest as [|c rest].
    + now rewrite !app_nil_r.
    + destruct Htail as [-> ->]. now rewrite !app_nil_r.
Qed.

Lemma to_ascii_decimal_ascii (s : str) :
  Forall (λ c, (c < 127)%N) s → to_ascii_decimal s = s.
Proof.
  induction 1 as [|c s Hc _ IH]; [reflexivity|].
  cbn. apply N.ltb_lt in Hc. now rewrite Hc, IH.
Qed.

Lemma py_int_str_of_int (n : Z) : py_int (str_of_int n) = Some n.
Proof.
  unfold py_int. rewrite to_ascii_decimal_ascii.
  2:{ eapply Forall_impl; [apply str_of_int_chars|].
      intros c [->|H]; [reflexivity|unfold is_digit in H; lia]. }
  destruct (str_of_int_spec n) as (ds & -> & Hne & Hds & Hval).
  destruct ds as [|d ds]; [congruence|].
  inversion Hds as [|? ? Hd Hds']; subst.
  assert (Hdigit : ascii_digit d = Some (Z.of_N d - 48)).
  { unfold ascii_digit, is_digit in *.
    replace ((48 <=? d)%N && (d <=? 57)%N) with true; [reflexivity|].
    symmetry. apply andb_true_intro. split; apply N.leb_le; lia. }
  assert (Hd45 : (d =? 45)%N = false) by (unfold is_digit in Hd; apply N.eqb_neq; lia).
  assert (Hd43 : (d =? 43)%N = false) by (unfold is_digit in Hd; apply N.eqb_neq; lia).
  assert (Hsp : ascii_isspace d = false) by (revert Hd; compare_chars).
  pose proof (Hval 0) as Hv. cbn [dec_value foldl] in Hv.
  change (foldl _ ?a ds) with (dec_value ds a) in Hv.
  rewrite Z.mul_0_r, Z.add_0_l, Z.mul_0_l, Z.add_0_l in Hv.
  unfold int_of_ascii. destruct (Z.ltb_spec n 0).
  - cbn [app skip_ascii_space]. change (ascii_isspace 45%N) with false. cbv iota.
    rewrite Hdigit, more_digits_digits by exact Hds'. cbn [skip_ascii_space].
    f_equal. lia.
  - cbn [app skip_ascii_space]. rewrite Hsp.
    assert (Hcase : ∀ A (x y z : A),
      match d with 43%N => x | 45%N => y | _ => z end = z).
    { intros. unfold is_digit in Hd.
      destruct d as [|p]; [lia|]. do 6 (destruct p as [p|p|]; try lia; try reflexivity). }
    rewrite Hcase, Hdigit, more_digits_digits by exact Hds'. cbn [skip_ascii_space].
    f_equal. lia.
Qed.

Lemma contains_str_of_int (n : Z) (c : char) :
  c ≠ 45%N → ¬ is_digit c → contains (str_of_int n) c = false.
Proof.
  intros H1 H2. unfold contains. apply not_true_is_false.
  intros (x & Hx & E)%existsb_exists. apply N.eqb_eq in E. subst x.
  pose proof (str_of_int_chars n) as H. rewrite Forall_forall in H.
  apply list_elem_of_In in Hx. destruct (H _ Hx); contradiction.
Qed.

Lemma _read_number_int (n : Z) (rest : str) :
  delim rest → _read_number (str_of_int n ++ rest) = Ok (VInt n, rest).
Proof.
  intros Hrest. unfold _read_number. rewrite _read_number_str_int by exact Hrest.
  rewrite !contains_str_of_int by (unfold is_digit; cbn; lia).
  cbn [orb]. unfold to_int. now rewrite py_int_str_of_int.
Qed.


(** Text. *)
Lemma _read_string_escaped (s acc rest : str) :
  _read_string
    (replace_char quote [backslash; quote]
       (replace_char backslash [backslash; backslash] s) ++ quote :: rest) acc
  = Ok (acc ++ s, rest).
Proof.
  revert acc. induction s as [|c s IH]; intros acc.
  - cbn. now rewrite app_nil_r.
  - unfold replace_char in *. cbn [flat_map].
    replace (acc ++ c :: s) with ((acc ++ [c]) ++ s) by now rewrite <- app_assoc.
    destruct (N.eqb_spec c backslash) as [->|Hb].
    + cbn [flat_map app]. change (backslash =? quote)%N with false. cbv iota.
      cbn [app _read_string]. change (backslash =? quote)%N with false.
      change (backslash =? backslash)%N with true. cbv iota.
      change (eqc "n" backslash) with false. change (eqc "t" backslash) with false.
      change (eqc "r" backslash) with false. cbv iota. apply IH.
    + cbn [flat_map app]. destruct (N.eqb_spec c quote) as [->|Hq].
      * cbn [app _read_string]. change (backslash =? quote)%N with false.
        change (backslash =? backslash)%N with true. cbv iota.
        change (eqc "n" quote) with false. change (eqc "t" quote) with false.
        change (eqc "r" quote) with false. cbv iota. apply IH.
      * cbn [app _read_string].
        apply N.eqb_neq in Hb, Hq. rewrite Hb, Hq. apply IH.
Qed.

(** Identifiers. *)
Lemma _read_identifier_ident (name rest : str) :
  identifier name → delim rest →
  _read_identifier (name ++ rest) = Ok (name, rest).
Proof.
  intros [Hne Hname] Hrest. unfold _read_identifier.
  rewrite span_all; [now destruct name|exact Hname|].
  apply (delim_stops (λ c, isalnum c || eqc "_" c));
    [apply (delim_char_ident HU)|exact Hrest].
Qed.

Lemma identifier_head (name : str) :
  identifier name → ∃ c s, name = c :: s ∧ isalnum c || eqc "_" c = true.
Proof.
  intros [Hne Hname]. destruct name as [|c s]; [congruence|].
  exists c, s. split; [reflexivity|]. now inversion Hname.
Qed.

Lemma identifier_last (name : str) :
  identifier name → ∃ z, last name = Some z ∧ isalnum z || eqc "_" z = true.
Proof.
  intros [Hne Hname]. destruct (last name) as [z|] eqn:E.
  - exists z. split; [reflexivity|]. apply last_Some in E as [l' ->].
    apply Forall_app in Hname as [_ H]. now inversion H.
  - now apply last_None in E.
Qed.

(** Bytes. *)
Lemma hex_digit_value (x : Z) :
  0 ≤ x < 16 →
  hex_value (chr (hex_digit x)) = Some x
  ∧ is_hex_char (chr (hex_digit x)) = true
  ∧ ascii_isspace (chr (hex_digit x)) = false.
Proof.
  intros H. nibble_cases H; easy.
Qed.

Lemma byte_nibbles (b : Z) :
  0 ≤ b < 256 →
  0 ≤ Z.shiftr b 4 < 16 ∧ 0 ≤ Z.land b 0xF < 16
  ∧ 16 * Z.shiftr b 4 + Z.land b 0xF = b.
Proof.
  intros H. rewrite Z.shiftr_div_pow2 by lia.
  change 0xF with (Z.ones 4). rewrite Z.land_ones by lia.
  change (2 ^ 4) with 16.
  pose proof (Z.div_mod b 16). pose proof (Z.mod_pos_bound b 16).
  assert (0 ≤ b / 16 < 16)
    by (split; [apply Z.div_pos; lia|apply Z.div_lt_upper_bound; lia]).
  lia.
Qed.

Lemma fromhex_hex_str (b : bytes) :
  Forall (λ x, 0 ≤ x < 256) b → fromhex (hex_str b) = Some b.
Proof.
  induction 1 as [|x b Hx _ IH]; [reflexivity|].
  destruct (byte_nibbles x Hx) as (Hh & Hl & E).
  destruct (hex_digit_value _ Hh) as (Hvh & _ & Hsh).
  destruct (hex_digit_value _ Hl) as (Hvl & _ & _).
  unfold hex_str in *. cbn [hex lit list_ascii_of_string map fromhex].
  rewrite Hsh, Hvh, Hvl. fold (lit (hex b)). rewrite IH. now rewrite E.
Qed.

Lemma _read_hex_hex_str (b : bytes) (rest : str) :
  Forall (λ x, 0 ≤ x < 256) b → delim rest →
  _read_hex (hex_str b ++ rest) = (hex_str b, rest).
Proof.
  intros Hb Hrest. unfold _read_hex. apply span_all.
  - induction Hb as [|x b Hx _ IH]; [constructor|].
    destruct (byte_nibbles x Hx) as (Hh & Hl & _).
    unfold hex_str in *. cbn [hex lit list_ascii_of_string map].
    constructor; [apply (hex_digit_value _ Hh)|].
    constructor; [apply (hex_digit_value _ Hl)|exact IH].
  - apply delim_stops; [apply delim_char_hex|exact Hrest].
Qed.

Lemma hex_str_last (b : bytes) (z : char) :
  Forall (λ x, 0 ≤ x < 256) b → last (chr "#" :: hex_str b) = Some z →
  isspace z = false.
Proof.
  intros Hb. assert (Hall : Forall (λ c, isspace c = false) (chr "#" :: hex_str b)).
  { constructor; [now rewrite (isspace_ascii _ HU)|].
    induction Hb as [|x b Hx _ IH]; [constructor|].
    destruct (byte_nibbles x Hx) as (Hh & Hl & _).
    assert (Hd : ∀ y, 0 ≤ y < 16 → isspace (chr (hex_digit y)) = false).
    { intros y Hy. nibble_cases Hy; now rewrite (isspace_ascii _ HU). }
    unfold hex_str in *. cbn [hex lit list_ascii_of_string map].
    constructor; [now apply Hd|]. constructor; [now apply Hd|exact IH]. }
  intros [l' E]%last_Some. rewrite E in Hall.
  apply Forall_app in Hall as [_ H]. now inversion H.
Qed.

(** Keywords. *)
Lemma startswith_app (p rest : str) : startswith (p ++ rest) p = true.
Proof.
  induction p as [|c p IH]; [now destruct rest|]. cbn. now rewrite N.eqb_refl, IH.
Qed.

Lemma _match_keyword (keyword rest : str) :
  delim rest → _match keyword (keyword ++ rest) = Some rest.
Proof.
  intros Hrest. unfold _match. rewrite startswith_app, drop_app_length.
  destruct rest as [|c rest]; [reflexivity|].
  now rewrite (delim_char_isalnum HU) by exact Hrest.
Qed.

Lemma _match_other (k : char) (keyword : str) (c : char) (text : str) :
  c ≠ k → _match (k :: keyword) (c :: text) = None.
Proof.
  intros H. unfold _match. cbn [startswith].
  apply N.eqb_neq in H. rewrite N.eqb_sym in H. now rewrite H.
Qed.

End LCT_readers.

(** *** Scalars *)

Ltac decide_eqc :=
  repeat match goal with
    | |- context [eqc ?a ?c] =>
        let b := eval vm_compute in (eqc a c) in
        match b with
        | true => change (eqc a c) with true
        | false => change (eqc a c) with false
        end
    | |- context [(?c =? quote)%N] =>
        let b := eval vm_compute in (c =? quote)%N in
        match b with
        | true => change (c =? quote)%N with true
        | false => change (c =? quote)%N with false
        end
    end.

Ltac no_keyword :=
  rewrite (_match_other (chr "N") (lit "ULL")),
          (_match_other (chr "T") (lit "RUE")),
          (_match_other (chr "F") (lit "ALSE"))
    by (try discriminate; cbn; unfold is_digit in *; lia).

Section LCT_scalars.
Import LCT LCT_round_trip.
Context {U : UCD} (HU : ascii_faithful U).

Lemma round_trips_intro (v : Value) (e : str) (v' : Value) :
  encode v = Ok e → tight e → decodes_to e v' → py_eq v v' = true →
  round_trips v.
Proof.
  intros He Ht Hd Hp.
  assert (Ee : encoding v = e) by (unfold encoding; now rewrite He).
  assert (Ed : decoding v = v').
  { unfold decoding. rewrite Ee.
    specialize (Hd (2 * length e + 1)%nat [] I (le_n _)).
    rewrite app_nil_r in Hd. now rewrite Hd. }
  unfold round_trips. now rewrite Ee, Ed.
Qed.

Lemma strip_tight (e : str) : tight e → strip e = e ∧ e ≠ [].
Proof.
  intros (c & z & Hc & Hz & Hsc & _ & Hsz).
  destruct e as [|c' e]; [discriminate|]. injection Hc as ->.
  split; [|discriminate].
  unfold strip. rewrite lstrip_cons by exact Hsc.
  apply last_Some in Hz as [l' E]. rewrite E.
  unfold rstrip. rewrite rev_app_distr. cbn [rev app].
  rewrite lstrip_cons by exact Hsz. cbn [rev]. now rewrite rev_involutive.
Qed.

Lemma tight_cons (c : char) (e : str) (z : char) :
  isspace c = false → eqc "]" c = false → last (c :: e) = Some z →
  isspace z = false → tight (c :: e).
Proof. intros. exists c, z. auto. Qed.

Lemma decodes_to_keyword (keyword : str) (v : Value) :
  (keyword, v) ∈ [(lit "NULL", VNone); (lit "TRUE", VBool true);
                  (lit "FALSE", VBool false)] →
  decodes_to keyword v.
Proof.
  intros Hk fuel rest Hrest Hfuel. destruct fuel as [|fuel]; [lia|].
  cbn [_parse_value]. unfold _skip_whitespace.
  repeat (apply elem_of_cons in Hk; destruct Hk as [[= -> ->]|Hk]);
    [..|now apply elem_of_nil in Hk].
  - change (lit "NULL" ++ rest) with (chr "N" :: (lit "ULL" ++ rest)).
    rewrite lstrip_cons by now rewrite (isspace_ascii _ HU).
    change (chr "N" :: (lit "ULL" ++ rest)) with (lit "NULL" ++ rest).
    now rewrite (_match_keyword HU) by exact Hrest.
  - change (lit "TRUE" ++ rest) with (chr "T" :: (lit "RUE" ++ rest)).
    rewrite lstrip_cons by now rewrite (isspace_ascii _ HU).
    rewrite (_match_other (chr "N") (lit "ULL")) by discriminate.
    change (chr "T" :: (lit "RUE" ++ rest)) with (lit "TRUE" ++ rest).
    now rewrite (_match_keyword HU) by exact Hrest.
  - change (lit "FALSE" ++ rest) with (chr "F" :: (lit "ALSE" ++ rest)).
    rewrite lstrip_cons by now rewrite (isspace_ascii _ HU).
    rewrite (_match_other (chr "N") (lit "ULL")) by discriminate.
    rewrite (_match_other (chr "T") (lit "RUE")) by discriminate.
    change (chr "F" :: (lit "ALSE" ++ rest)) with (lit "FALSE" ++ rest).
    now rewrite (_match_keyword HU) by exact Hrest.
Qed.

Lemma round_trips_None : round_trips VNone.
Proof.
  apply (round_trips_intro _ (lit "NULL") VNone); [reflexivity| | |reflexivity].
  - apply (tight_cons _ _ (chr "L")); try reflexivity; now rewrite (isspace_ascii _ HU).
  - apply decodes_to_keyword. set_solver.
Qed.

Lemma round_trips_Bool (b : bool) : round_trips (VBool b).
Proof.
  destruct b.
  - apply (round_trips_intro _ (lit "TRUE") (VBool true)); [reflexivity| | |reflexivity].
    + apply (tight_cons _ _ (chr "E")); try reflexivity; now rewrite (isspace_ascii _ HU).
    + apply decodes_to_keyword. set_solver.
  - apply (round_trips_intro _ (lit "FALSE") (VBool false)); [reflexivity| | |reflexivity].
    + apply (tight_cons _ _ (chr "E")); try reflexivity; now rewrite (isspace_ascii _ HU).
    + apply decodes_to_keyword. set_solver.
Qed.

Lemma round_trips_Int (n : Z) : round_trips (VInt n).
Proof.
  apply (round_trips_intro _ (str_of_int n) (VInt n)); [reflexivity| |
    |cbn; apply Z.eqb_refl].
  - destruct (str_of_int_head n) as (c & s & E & Hc).
    destruct (str_of_int_last n) as (z & Hz & Hdz). rewrite E in *.
    apply (tight_cons _ _ z); [now apply (sign_or_digit_isspace HU)|
      |exact Hz|now apply (is_digit_isspace HU)].
    destruct Hc as [->|Hc]; [reflexivity|revert Hc; compare_chars].
  - intros fuel rest Hrest Hfuel. destruct fuel as [|fuel]; [lia|].
    rewrite <- (_read_number_int HU n rest Hrest).
    destruct (str_of_int_head n) as (c & s & E & Hc). rewrite E.
    cbn [_parse_value app]. unfold _skip_whitespace.
    rewrite lstrip_cons by now apply (sign_or_digit_isspace HU).
    assert (Hk : c ≠ chr "N" ∧ c ≠ chr "T" ∧ c ≠ chr "F")
      by (destruct Hc as [->|Hc]; [easy|unfold is_digit in Hc; cbn; lia]).
    rewrite (_match_other (chr "N") (lit "ULL")),
            (_match_other (chr "T") (lit "RUE")),
            (_match_other (chr "F") (lit "ALSE")) by easy.
    destruct Hc as [->|Hc]; [reflexivity|].
    rewrite (is_digit_isdigit HU) by exact Hc. rewrite orb_true_r.
    replace (eqc "@" c) with false by (revert Hc; compare_chars).
    replace (eqc "#" c) with false by (revert Hc; compare_chars).
    replace (c =? quote)%N with false by (revert Hc; compare_chars).
    replace (eqc "[" c) with false by (revert Hc; compare_chars).
    replace (eqc "{" c) with false by (revert Hc; compare_chars).
    reflexivity.
Qed.

Lemma round_trips_text (s : str) :
  startswith s (lit "&") = false → round_trips (VStr s).
Proof.
  intros Hs.
  apply (round_trips_intro _ (_encode_string s) (VStr s)).
  - cbn [encode]. rewrite Hs.
    replace (startswith s (lit "&h_")) with false; [reflexivity|].
    destruct s as [|c s]; [reflexivity|]. cbn in Hs |- *.
    apply andb_false_iff in Hs as [Hs|Hs]; [now rewrite Hs|now destruct s].
  - unfold _encode_string. apply (tight_cons _ _ quote); try reflexivity;
      try (now rewrite (isspace_ascii _ HU)).
    rewrite app_comm_cons. apply last_snoc.
  - intros fuel rest Hrest Hfuel. destruct fuel as [|fuel]; [lia|].
    unfold _encode_string. cbn [_parse_value app]. unfold _skip_whitespace.
    rewrite lstrip_cons by now rewrite (isspace_ascii _ HU).
    no_keyword. decide_eqc. cbv iota.
    rewrite <- app_assoc. cbn [app].
    now rewrite _read_string_escaped.
  - cbn. unfold str_eqb. now apply bool_decide_eq_true.
Qed.

Lemma round_trips_handle (name : str) :
  identifier name → round_trips (VStr (lit "&h_" ++ name)).
Proof.
  intros Hname.
  apply (round_trips_intro _ (chr "@" :: name) (VStr (lit "&h_" ++ name))).
  - cbn [encode]. now rewrite startswith_app.
  - destruct (identifier_last name Hname) as (z & Hz & Hiz).
    destruct (identifier_head name Hname) as (c & s & -> & _).
    apply (tight_cons _ _ z); try reflexivity.
    + now rewrite (isspace_ascii _ HU).
    + now rewrite last_cons_cons.
    + now apply (ident_char_isspace HU).
  - intros fuel rest Hrest Hfuel. destruct fuel as [|fuel]; [lia|].
    cbn [_parse_value app]. unfold _skip_whitespace.
    rewrite lstrip_cons by now rewrite (isspace_ascii _ HU).
    no_keyword. decide_eqc. cbv iota.
    now rewrite (_read_identifier_ident HU) by assumption.
  - cbn. unfold str_eqb. now apply bool_decide_eq_true.
Qed.

Lemma round_trips_Bytes (b : bytes) :
  Forall (λ x, 0 ≤ x < 256) b → round_trips (VBytes b).
Proof.
  intros Hb.
  apply (round_trips_intro _ (chr "#" :: hex_str b) (VBytes b)); [reflexivity| | |].
  - destruct (last (chr "#" :: hex_str b)) as [z|] eqn:E;
      [|apply last_None in E; discriminate].
    apply (tight_cons _ _ z); try reflexivity.
    + now rewrite (isspace_ascii _ HU).
    + exact E.
    + now apply (hex_str_last HU b).
  - intros fuel rest Hrest Hfuel. destruct fuel as [|fuel]; [lia|].
    cbn [_parse_value app]. unfold _skip_whitespace.
    rewrite lstrip_cons by now rewrite (isspace_ascii _ HU).
    no_keyword. decide_eqc. cbv iota.
    rewrite _read_hex_hex_str by assumption.
    now rewrite fromhex_hex_str.
  - cbn. now apply bool_decide_eq_true.
Qed.

End LCT_scalars.

(** *** Lists of parts *)

Lemma for_each_map {E A B} (f : A → outcome E B) (g : A → B) (l : list A) :
  Forall (λ x, f x = Ok (g x)) l → for_each f l = Ok (map g l).
Proof.
  induction 1 as [|x l Hx _ IH]; [reflexivity|].
  cbn [for_each map]. now rewrite Hx, IH.
Qed.

Lemma join_cons (sep p : str) (ps : list str) :
  join sep (p :: ps) = p ++ concat (map (app sep) ps).
Proof.
  revert p. induction ps as [|q ps IH]; intros p.
  - cbn. now rewrite app_nil_r.
  - change (join sep (p :: q :: ps)) with (p ++ sep ++ join sep (q :: ps)).
    rewrite IH. cbn [map concat]. now rewrite <- !app_assoc.
Qed.

Lemma insert_by_index_map {A B} (f : A → B) (x : Z * A) (l : list (Z * A)) :
  insert_by_index (prod_map id f x) (map (prod_map id f) l)
  = map (prod_map id f) (insert_by_index x l).
Proof.
  induction l as [|y l IH]; [reflexivity|].
  cbn [map insert_by_index]. destruct x as [i a], y as [j b]. cbn.
  destruct (i <=? j); [reflexivity|]. cbn [map]. f_equal. apply IH.
Qed.

Lemma sort_by_index_map {A B} (f : A → B) (l : list (Z * A)) :
  sort_by_index (map (prod_map id f) l) = map (prod_map id f) (sort_by_index l).
Proof.
  induction l as [|x l IH]; [reflexivity|].
  cbn [map sort_by_index foldr]. fold (sort_by_index (map (prod_map id f) l)).
  fold (sort_by_index l). rewrite IH. apply insert_by_index_map.
Qed.

Lemma insert_by_index_perm {A} (x : Z * A) (l : list (Z * A)) :
  insert_by_index x l ≡ₚ x :: l.
Proof.
  induction l as [|y l IH]; [reflexivity|].
  cbn [insert_by_index]. destruct (x.1 <=? y.1); [reflexivity|].
  rewrite IH. apply Permutation_swap.
Qed.

Lemma sort_by_index_perm {A} (l : list (Z * A)) : sort_by_index l ≡ₚ l.
Proof.
  induction l as [|x l IH]; [reflexivity|].
  cbn [sort_by_index foldr]. fold (sort_by_index l).
  now rewrite insert_by_index_perm, IH.
Qed.

(** *** Dicts *)

Lemma str_eqb_refl (s : str) : str_eqb s s = true.
Proof. unfold str_eqb. now apply bool_decide_eq_true. Qed.

Lemma str_eqb_neq (s t : str) : s ≠ t → str_eqb s t = false.
Proof. unfold str_eqb. now apply bool_decide_eq_false. Qed.

Lemma dict_lookup_None {A} (d : list (str * A)) (key : str) :
  key ∉ d.*1 → dict_lookup d key = None.
Proof.
  induction d as [|[k v] d IH]; [reflexivity|].
  cbn. intros H. apply not_elem_of_cons in H as [H1 H2].
  rewrite str_eqb_neq by congruence. now apply IH.
Qed.

Lemma dict_lookup_NoDup {A} (d : list (str * A)) (key : str) (v : A) :
  NoDup d.*1 → (key, v) ∈ d → dict_lookup d key = Some v.
Proof.
  induction d as [|[k w] d IH]; [now intros _ H%elem_of_nil|].
  cbn. intros [Hk Hd]%NoDup_cons [[= -> ->]|H]%elem_of_cons.
  - now rewrite str_eqb_refl.
  - rewrite str_eqb_neq; [now apply IH|].
    intros ->. apply Hk. apply list_elem_of_fmap. now exists (key, v).
Qed.

Lemma dict_lookup_elem {A} (d : list (str * A)) (key : str) (v : A) :
  dict_lookup d key = Some v → (key, v) ∈ d.
Proof.
  induction d as [|[k w] d IH]; [discriminate|].
  cbn. unfold str_eqb. destruct (bool_decide_reflect (k = key)) as [->|].
  - intros [= ->]. left.
  - intros H. right. now apply IH.
Qed.

Lemma dict_set_fresh {A} (d : list (str * A)) (key : str) (v : A) :
  key ∉ d.*1 → dict_set d key v = d ++ [(key, v)].
Proof.
  induction d as [|[k w] d IH]; [reflexivity|].
  cbn. intros H. apply not_elem_of_cons in H as [H1 H2].
  rewrite str_eqb_neq by congruence. now rewrite IH.
Qed.

Lemma dict_set_all_fresh {A B} (key : B → str) (val : B → A)
    (d : list (str * A)) (items : list B) :
  NoDup (d.*1 ++ map key items) →
  foldl (λ r it, dict_set r (key it) (val it)) d items
  = d ++ map (λ it, (key it, val it)) items.
Proof.
  revert d. induction items as [|it items IH]; intros d Hd.
  - cbn. now rewrite app_nil_r.
  - cbn [foldl map]. cbn [map] in Hd.
    rewrite dict_set_fresh.
    2:{ apply NoDup_app in Hd as (_ & Hd & _). intros H.
        apply (Hd _ H). left. }
    rewrite IH.
    + now rewrite <- app_assoc.
    + rewrite fmap_app. cbn. now rewrite <- app_assoc.
Qed.

Lemma py_eq_dict (d e : list (str * Value)) :
  length d = length e →
  Forall (λ kv, ∃ y, dict_lookup e kv.1 = Some y ∧ py_eq kv.2 y = true) d →
  py_eq (VDict d) (VDict e) = true.
Proof.
  intros Hlen H. cbn [py_eq]. rewrite Hlen, Nat.eqb_refl. cbn [andb].
  clear Hlen. induction H as [|[k x] d (y & Hy & Hxy) _ IH]; [reflexivity|].
  cbn in Hy, Hxy. now rewrite Hy, Hxy.
Qed.

Lemma py_eq_list (l : list Value) (f : Value → Value) :
  Forall (λ x, py_eq x (f x) = true) l → py_eq (VList l) (VList (map f l)) = true.
Proof.
  cbn [py_eq]. induction 1 as [|x l Hx _ IH]; [reflexivity|].
  cbn [map]. now rewrite Hx.
Qed.

(** *** Arrays *)

Section LCT_containers.
Import LCT LCT_round_trip.
Context {U : UCD} (HU : ascii_faithful U).

Lemma tight_lstrip (e rest : str) : tight e → lstrip (e ++ rest) = e ++ rest.
Proof.
  intros (c & z & Hc & _ & Hsc & _). destruct e as [|c' e]; [discriminate|].
  injection Hc as ->. now apply lstrip_cons.
Qed.

Lemma delim_lstrip (rest : str) : delim rest → lstrip rest = rest.
Proof.
  destruct rest as [|c rest]; [reflexivity|]. intros H.
  apply lstrip_cons. now apply (delim_char_isspace HU).
Qed.

Lemma _parse_array_elements (x : Value) (l : list Value) :
  Forall round_trips (x :: l) →
  ∀ acc fuel rest,
    (2 * length (join (lit ",") (map encoding (x :: l))) + 2 ≤ fuel)%nat →
    _parse_array fuel (join (lit ",") (map encoding (x :: l)) ++ chr "]" :: rest) acc
    = Ok (VList (acc ++ map decoding (x :: l)), rest).
Proof.
  revert x. induction l as [|y l IH]; intros x Hall acc fuel rest Hfuel;
    apply Forall_cons in Hall as [(_ & _ & Hx & _) Hall].
  - cbn [map join] in *. destruct fuel as [|fuel]; [lia|].
    cbn [_parse_array]. unfold _skip_whitespace. rewrite _parse_value_lstrip.
    rewrite Hx by (reflexivity || lia). cbn [mbind outcome_bind].
    rewrite lstrip_cons by now rewrite (isspace_ascii _ HU).
    now decide_eqc.
  - change (map encoding (x :: y :: l))
      with (encoding x :: map encoding (y :: l)) in *.
    change (join (lit ",") (encoding x :: map encoding (y :: l)))
      with (encoding x ++ chr "," :: join (lit ",") (map encoding (y :: l))) in *.
    rewrite length_app in Hfuel. cbn [length] in Hfuel.
    destruct fuel as [|fuel]; [lia|].
    rewrite <- app_assoc, <- app_comm_cons.
    cbn [_parse_array]. unfold _skip_whitespace. rewrite _parse_value_lstrip.
    rewrite Hx by (reflexivity || lia). cbn [mbind outcome_bind].
    rewrite lstrip_cons by now rewrite (isspace_ascii _ HU).
    decide_eqc. cbv iota.
    rewrite IH by (assumption || lia).
    change (map decoding (x :: y :: l)) with ([decoding x] ++ map decoding (y :: l)).
    now rewrite app_assoc.
Qed.

Lemma round_trips_List (l : list Value) :
  Forall round_trips l → round_trips (VList l).
Proof.
  intros Hall. destruct l as [|x l].
  { apply (round_trips_intro _ (lit "[]") (VList [])); [reflexivity| | |reflexivity].
    - apply (tight_cons _ _ (chr "]")); try reflexivity; now rewrite (isspace_ascii _ HU).
    - intros fuel rest Hrest Hfuel. destruct fuel as [|fuel]; [lia|].
      cbn [_parse_value app lit map list_ascii_of_string]. unfold _skip_whitespace.
      rewrite lstrip_cons by now rewrite (isspace_ascii _ HU).
      no_keyword. decide_eqc. cbv iota.
      rewrite lstrip_cons by now rewrite (isspace_ascii _ HU).
      now decide_eqc. }
  set (body := join (lit ",") (map encoding (x :: l))).
  apply (round_trips_intro _ (chr "[" :: body ++ [chr "]"])
           (VList (map decoding (x :: l)))).
  - cbn [encode].
    rewrite (for_each_map encode encoding)
      by (eapply Forall_impl; [exact Hall|]; now intros ? (? & _)).
    reflexivity.
  - apply (tight_cons _ _ (chr "]")); try reflexivity;
      try (now rewrite (isspace_ascii _ HU)).
    rewrite app_comm_cons. apply last_snoc.
  - intros fuel rest Hrest Hfuel. cbn [length] in Hfuel.
    rewrite length_app in Hfuel. cbn [length] in Hfuel.
    destruct fuel as [|fuel]; [lia|].
    cbn [_parse_value app]. unfold _skip_whitespace.
    rewrite lstrip_cons by now rewrite (isspace_ascii _ HU).
    no_keyword. decide_eqc. cbv iota.
    rewrite <- app_assoc. cbn [app].
    assert (Hhead : ∃ c s, body = c :: s ∧ isspace c = false ∧ eqc "]" c = false).
    { apply Forall_cons in Hall as [(_ & (c & z & Hc & _ & Hsc & Hbc & _) & _) _].
      destruct (encoding x) as [|c' e] eqn:E; [discriminate|]. injection Hc as ->.
      subst body. cbn [map]. rewrite E.
      destruct (map encoding l); cbn [join app]; eauto. }
    destruct Hhead as (c & s & E & Hsc & Hbc). rewrite E. cbn [app].
    rewrite lstrip_cons by exact Hsc. rewrite Hbc.
    change (c :: s ++ chr "]" :: rest) with ((c :: s) ++ chr "]" :: rest).
    rewrite <- E. subst body.
    now rewrite _parse_array_elements by (assumption || lia).
  - apply py_eq_list. eapply Forall_impl; [exact Hall|]. now intros ? (_ & _ & _ & ?).
Qed.


(** *** Objects *)

Lemma _parse_object_item (fuel : nat) (k : str) (v : Value) (tail : str)
    (result : list (str * Value)) :
  identifier k → round_trips v → delim tail →
  (2 * length (encoding v) + 1 ≤ fuel)%nat →
  _parse_object (S fuel) (k ++ chr ":" :: encoding v ++ tail) result
  = _parse_object fuel
      (match tail with
       | c :: rest => if eqc "," c then rest else tail
       | [] => tail
       end)
      (dict_set result k (decoding v)).
Proof.
  intros Hk (_ & _ & Hv & _) Htail Hfuel.
  destruct (identifier_head k Hk) as (c & s & -> & Hc).
  cbn [_parse_object]. unfold _skip_whitespace. cbn [app].
  rewrite lstrip_cons by now apply (ident_char_isspace HU).
  replace (eqc "}" c) with false.
  2:{ symmetry. apply not_true_is_false. intros H%N.eqb_eq. subst c.
      now rewrite (delim_char_ident HU) in Hc. }
  change (c :: s ++ chr ":" :: encoding v ++ tail)
    with ((c :: s) ++ chr ":" :: encoding v ++ tail).
  rewrite (_read_identifier_ident HU) by easy.
  cbn [mbind outcome_bind].
  rewrite lstrip_cons by now rewrite (isspace_ascii _ HU).
  decide_eqc. cbv iota. rewrite _parse_value_lstrip.
  rewrite Hv by assumption. cbn [mbind outcome_bind].
  rewrite delim_lstrip by exact Htail.
  destruct tail as [|t tail]; [reflexivity|]. now destruct (eqc "," t).
Qed.

Lemma object_part_length (kv : str * Value) :
  identifier kv.1 →
  (length (object_part kv) = length kv.1 + 1 + length (encoding kv.2)
   ∧ 1 ≤ length kv.1)%nat.
Proof.
  intros [Hne _]. unfold object_part. rewrite !length_app. cbn [length lit map list_ascii_of_string].
  destruct kv.1; [congruence|]. cbn [length]. lia.
Qed.

Lemma _parse_object_items (d : list (str * Value)) :
  Forall (λ kv, identifier kv.1 ∧ round_trips kv.2) d →
  ∀ result fuel rest,
    (2 * length (join (lit ",") (map object_part d)) + 2 ≤ fuel)%nat →
    _parse_object fuel (join (lit ",") (map object_part d) ++ chr "}" :: rest) result
    = Ok (VDict (foldl (λ r kv, dict_set r kv.1 (decoding kv.2)) result d), rest).
Proof.
  induction 1 as [|kv d [Hk Hv] Hd IH]; intros result fuel rest Hfuel.
  - destruct fuel as [|fuel]; [lia|].
    cbn [map join app _parse_object]. unfold _skip_whitespace.
    rewrite lstrip_cons by now rewrite (isspace_ascii _ HU).
    now decide_eqc.
  - destruct (object_part_length kv Hk) as [Hlen Hlen'].
    destruct fuel as [|fuel]; [cbn [map] in Hfuel; lia|].
    cbn [foldl]. destruct d as [|kv' d].
    + cbn [map join] in Hfuel |- *. unfold object_part at 1.
      rewrite <- !app_assoc. change (lit ":" ++ ?x) with (chr ":" :: x).
      rewrite _parse_object_item by (easy || lia).
      decide_eqc. cbv iota.
      apply (IH _ fuel rest). cbn [map join length]. lia.
    + change (map object_part (kv :: kv' :: d))
        with (object_part kv :: map object_part (kv' :: d)) in *.
      change (join (lit ",") (object_part kv :: map object_part (kv' :: d)))
        with (object_part kv ++ chr "," :: join (lit ",") (map object_part (kv' :: d))) in *.
      rewrite length_app in Hfuel. cbn [length] in Hfuel.
      unfold object_part at 1.
      rewrite <- !app_assoc. change (lit ":" ++ ?x) with (chr ":" :: x).
      rewrite _parse_object_item by (easy || lia).
      decide_eqc. cbv iota.
      apply IH. lia.
Qed.

Lemma round_trips_object (d : list (str * Value)) :
  NoDup d.*1 → object_keys d.*1 → Forall (λ kv, round_trips kv.2) d →
  round_trips (VDict d).
Proof.
  intros Hnd (Hkeys & Hcid & Hfirst) Hall. destruct d as [|kv d].
  { apply (round_trips_intro _ (lit "{}") (VDict [])); [reflexivity| | |reflexivity].
    - apply (tight_cons _ _ (chr "}")); try reflexivity; now rewrite (isspace_ascii _ HU).
    - intros fuel rest Hrest Hfuel. destruct fuel as [|fuel]; [lia|].
      cbn [_parse_value app lit map list_ascii_of_string]. unfold _skip_whitespace.
      rewrite lstrip_cons by now rewrite (isspace_ascii _ HU).
      no_keyword. decide_eqc. cbv iota.
      rewrite lstrip_cons by now rewrite (isspace_ascii _ HU).
      now decide_eqc. }
  set (items := kv :: d) in *.
  set (body := join (lit ",") (map object_part items)).
  assert (Hitems : Forall (λ kv, identifier kv.1 ∧ round_trips kv.2) items).
  { rewrite Forall_fmap in Hkeys. apply Forall_and. now split. }
  apply (round_trips_intro _ (chr "{" :: body ++ [chr "}"])
           (VDict (map (λ kv, (kv.1, decoding kv.2)) items))).
  - cbn [encode]. subst items. unfold dict_mem.
    rewrite dict_lookup_None by exact Hcid.
    rewrite (for_each_map _ object_part).
    + reflexivity.
    + eapply Forall_impl; [exact Hall|]. intros [k v] (He & _). cbn in He.
      now rewrite He.
  - apply (tight_cons _ _ (chr "}")); try reflexivity;
      try (now rewrite (isspace_ascii _ HU)).
    rewrite app_comm_cons. apply last_snoc.
  - intros fuel rest Hrest Hfuel. cbn [length] in Hfuel.
    rewrite length_app in Hfuel. cbn [length] in Hfuel.
    destruct fuel as [|fuel]; [lia|].
    cbn [_parse_value app]. unfold _skip_whitespace.
    rewrite lstrip_cons by now rewrite (isspace_ascii _ HU).
    no_keyword. decide_eqc. cbv iota.
    rewrite <- app_assoc. cbn [app].
    assert (Hhead : ∃ c s, body = c :: s ∧ isspace c = false
                           ∧ eqc "}" c = false
                           ∧ startswith (c :: s ++ chr "}" :: rest) (lit "C:") = false).
    { subst body items. apply Forall_cons in Hitems as [[Hk _] _].
      destruct (identifier_head _ Hk) as (c & s & E & Hc).
      assert (Hbody : ∃ tail, join (lit ",") (map object_part (kv :: d))
                              = c :: s ++ chr ":" :: tail).
      { cbn [map]. unfold object_part at 1. rewrite E.
        destruct (map object_part d).
        - cbn [join]. eexists. now rewrite <- app_comm_cons.
        - cbn [join]. eexists. rewrite <- !app_assoc, <- app_comm_cons. reflexivity. }
      destruct Hbody as [tail ->]. exists c, (s ++ chr ":" :: tail).
      split; [reflexivity|]. split; [now apply (ident_char_isspace HU)|].
      split.
      - apply not_true_is_false. intros H%N.eqb_eq. subst c.
        now rewrite (delim_char_ident HU) in Hc.
      - change (lit "C:") with [chr "C"; chr ":"].
        destruct (N.eqb_spec (chr "C") c) as [<-|Hne].
        2:{ cbn [startswith]. apply N.eqb_neq in Hne. now rewrite Hne. }
        destruct s as [|c2 s].
        + cbn in Hfirst. rewrite E in Hfirst. now contradiction Hfirst.
        + destruct Hk as [_ Hk]. rewrite E in Hk.
          apply Forall_cons in Hk as [_ Hk]. apply Forall_cons in Hk as [Hc2 _].
          assert (Hne : (chr ":" =? c2)%N = false).
          { apply N.eqb_neq. intros <-. now rewrite (delim_char_ident HU) in Hc2. }
          cbn [app startswith]. rewrite Hne. now rewrite andb_false_r. }
    destruct Hhead as (c & s & E & Hsc & Hbc & Hst). rewrite E. cbn [app].
    rewrite lstrip_cons by exact Hsc. rewrite Hbc, Hst.
    change (c :: s ++ chr "}" :: rest) with ((c :: s) ++ chr "}" :: rest).
    rewrite <- E. subst body.
    rewrite _parse_object_items by (assumption || lia).
    rewrite (dict_set_all_fresh fst (λ kv, decoding kv.2)); [reflexivity|].
    exact Hnd.
  - apply py_eq_dict; [now rewrite length_map|].
    apply Forall_forall. intros [k x] Hx. exists (decoding x). cbn [fst snd]. split.
    + apply dict_lookup_NoDup.
      * now rewrite <- list_fmap_compose.
      * apply list_elem_of_fmap. now exists (k, x).
    + rewrite Forall_forall in Hall. now apply (Hall (k, x)).
Qed.


(** *** Contracts *)

Lemma field_name_not_contract_id (idx : Z) : field_name idx ≠ lit "contract_id".
Proof. unfold field_name. intros [=]. Qed.

Lemma field_index_field_name (idx : Z) : field_index (field_name idx) = Some idx.
Proof.
  unfold field_index. rewrite str_eqb_neq by apply field_name_not_contract_id.
  unfold field_name. rewrite startswith_app.
  change 6%nat with (length (lit "field_")). rewrite drop_app_length.
  apply py_int_str_of_int.
Qed.

Lemma field_index_contract_id : field_index (lit "contract_id") = None.
Proof. unfold field_index. now rewrite str_eqb_refl. Qed.

Lemma fields_of_names (d : list (str * Value)) :
  Forall (λ key, key = lit "contract_id" ∨ ∃ idx, key = field_name idx) d.*1 →
  map (λ t, field_name t.1) (fields_of d)
  = filter (λ key, key ≠ lit "contract_id") d.*1.
Proof.
  induction d as [|[k x] d IH]; [reflexivity|].
  intros [Hk Hd]%Forall_cons. specialize (IH Hd).
  unfold fields_of in *. cbn [omap list_omap fmap list_fmap fst snd].
  cbn [fst] in Hk. destruct Hk as [->|[idx ->]].
  - rewrite field_index_contract_id. cbn [mbind option_bind].
    rewrite filter_cons_False by (intros H; now apply H). exact IH.
  - rewrite field_index_field_name. cbn [mbind option_bind map fst].
    rewrite filter_cons_True by apply field_name_not_contract_id.
    now rewrite IH.
Qed.

Lemma NoDup_extract (l : list str) (x : str) :
  NoDup l → x ∈ l → x :: filter (λ y, y ≠ x) l ≡ₚ l.
Proof.
  intros Hnd Hx. apply NoDup_Permutation.
  - constructor; [|now apply NoDup_filter].
    rewrite list_elem_of_filter. now intros [H _].
  - exact Hnd.
  - intros y. rewrite elem_of_cons, list_elem_of_filter.
    destruct (decide (y = x)) as [->|Hy]; [split; [now intros _|now left]|].
    split; [intros [?|[_ ?]]; [contradiction|assumption]|intros ?; right; now split].
Qed.

Lemma contract_names (d : list (str * Value)) :
  NoDup d.*1 → contract_keys d →
  lit "contract_id" :: map (λ t, field_name t.1) (fields_of d) ≡ₚ d.*1.
Proof.
  intros Hnd [[cid Hcid] Hkeys]. rewrite fields_of_names by exact Hkeys.
  apply NoDup_extract; [exact Hnd|].
  apply dict_lookup_elem in Hcid. apply list_elem_of_fmap.
  now exists (lit "contract_id", VInt cid).
Qed.

Lemma fields_of_elem (d : list (str * Value)) (idx : Z) (x : Value) :
  (field_name idx, x) ∈ d → (idx, x) ∈ fields_of d.
Proof.
  intros H. apply list_elem_of_omap. exists (field_name idx, x).
  split; [exact H|]. cbn [fst snd]. now rewrite field_index_field_name.
Qed.

Lemma fields_of_values (P : Value → Prop) (d : list (str * Value)) :
  Forall (λ kv, P kv.2) d → Forall (λ t, P t.2) (fields_of d).
Proof.
  rewrite !Forall_forall. intros H [idx x] ([k y] & Hy & E)%list_elem_of_omap.
  cbn [fst snd] in E. destruct (field_index k); [|discriminate].
  injection E as -> ->. now apply (H (k, x)).
Qed.

Lemma fields_encoded (d : list (str * Value)) :
  omap id (map (λ kv, match field_index kv.1 with
                      | Some idx => Some (idx, encoding kv.2)
                      | None => None
                      end) d)
  = map (prod_map id encoding) (fields_of d).
Proof.
  induction d as [|[k x] d IH]; [reflexivity|].
  unfold fields_of in *. cbn [map omap list_omap fst snd].
  destruct (field_index k); cbn [id mbind option_bind map]; now rewrite IH.
Qed.

Lemma lstrip_str_of_int (n : Z) (rest : str) :
  lstrip (str_of_int n ++ rest) = str_of_int n ++ rest.
Proof.
  destruct (str_of_int_head n) as (c & s & -> & Hc).
  apply lstrip_cons. now apply (sign_or_digit_isspace HU).
Qed.

Lemma _parse_contract_field (fuel : nat) (idx : Z) (v : Value) (tail : str)
    (result : list (str * Value)) :
  round_trips v → delim tail → (2 * length (encoding v) + 1 ≤ fuel)%nat →
  _parse_contract (S fuel)
    (chr "," :: str_of_int idx ++ chr "=" :: encoding v ++ tail) result
  = _parse_contract fuel tail (dict_set result (field_name idx) (decoding v)).
Proof.
  intros (_ & _ & Hv & _) Htail Hfuel.
  cbn [_parse_contract]. unfold _skip_whitespace.
  rewrite lstrip_cons by now rewrite (isspace_ascii _ HU).
  decide_eqc. cbv iota. rewrite lstrip_str_of_int.
  rewrite (_read_number_str_int HU) by reflexivity.
  unfold to_int. rewrite py_int_str_of_int. cbn [mbind outcome_bind].
  rewrite lstrip_cons by now rewrite (isspace_ascii _ HU).
  decide_eqc. cbv iota. rewrite _parse_value_lstrip.
  rewrite Hv by assumption. reflexivity.
Qed.

Lemma delim_fields (parts : list str) (rest : str) :
  delim (concat (map (app (lit ",")) parts) ++ chr "}" :: rest).
Proof. now destruct parts. Qed.

Lemma _parse_contract_fields (ts : list (Z * Value)) :
  Forall (λ t, round_trips t.2) ts →
  ∀ result fuel rest,
    (2 * length (concat (map (app (lit ",")) (map contract_part ts))) + 1 ≤ fuel)%nat →
    _parse_contract fuel
      (concat (map (app (lit ",")) (map contract_part ts)) ++ chr "}" :: rest) result
    = Ok (VDict (foldl (λ r t, dict_set r (field_name t.1) (decoding t.2)) result ts),
          rest).
Proof.
  induction 1 as [|t ts Ht _ IH]; intros result fuel rest Hfuel.
  - destruct fuel as [|fuel]; [lia|].
    cbn [map concat app _parse_contract]. unfold _skip_whitespace.
    rewrite lstrip_cons by now rewrite (isspace_ascii _ HU).
    now decide_eqc.
  - cbn [map concat foldl] in Hfuel |- *.
    unfold contract_part at 1 in Hfuel. unfold contract_part at 1.
    rewrite !length_app in Hfuel.
    change (length (lit ",")) with 1%nat in Hfuel.
    change (length (lit "=")) with 1%nat in Hfuel.
    destruct fuel as [|fuel]; [lia|].
    rewrite <- !app_assoc.
    change (lit "," ++ ?x) with (chr "," :: x).
    change (lit "=" ++ ?x) with (chr "=" :: x).
    rewrite _parse_contract_field by (assumption || apply delim_fields || lia).
    apply IH. lia.
Qed.

Lemma round_trips_contract (d : list (str * Value)) :
  NoDup d.*1 → contract_keys d → Forall (λ kv, round_trips kv.2) d →
  round_trips (VDict d).
Proof.
  intros Hnd Hkeys Hall.
  pose proof (contract_names d Hnd Hkeys) as Hnames.
  destruct Hkeys as [[cid Hcid] Hkeys].
  set (sorted := sort_by_index (fields_of d)).
  set (items := concat (map (app (lit ",")) (map contract_part sorted))).
  assert (Hsorted : sorted ≡ₚ fields_of d) by apply sort_by_index_perm.
  assert (Hrt : Forall (λ t, round_trips t.2) sorted).
  { rewrite Hsorted. now apply fields_of_values. }
  assert (Hnd' : NoDup (lit "contract_id" :: map (λ t, field_name t.1) sorted)).
  { rewrite Hsorted, Hnames. exact Hnd. }
  apply (round_trips_intro _
           (chr "{" :: (lit "C:" ++ str_of_int cid ++ items) ++ [chr "}"])
           (VDict ((lit "contract_id", VInt cid)
                   :: map (λ t, (field_name t.1, decoding t.2)) sorted))).
  - destruct d as [|kv d]; [discriminate|].
    set (d' := kv :: d) in *. cbn [encode]. subst d'.
    unfold dict_mem. rewrite Hcid. cbn [default format_value mbind outcome_bind].
    rewrite (for_each_map _
               (λ kv, match field_index kv.1 with
                      | Some idx => Some (idx, encoding kv.2)
                      | None => None
                      end)).
    2:{ eapply Forall_impl; [exact Hall|]. intros [k v] (He & _). cbn [fst snd] in *.
        destruct (field_index k); [now rewrite He|reflexivity]. }
    cbn [id format_value mbind outcome_bind].
    rewrite fields_encoded, sort_by_index_map, map_map, join_cons.
    fold sorted. subst items. rewrite !map_map, <- !app_assoc. reflexivity.
  - apply (tight_cons _ _ (chr "}")); try reflexivity;
      try (now rewrite (isspace_ascii _ HU)).
    rewrite app_comm_cons. apply last_snoc.
  - intros fuel rest Hrest Hfuel. cbn [length] in Hfuel.
    rewrite !length_app in Hfuel. cbn [length lit map list_ascii_of_string] in Hfuel.
    destruct fuel as [|fuel]; [lia|].
    cbn [_parse_value app]. unfold _skip_whitespace.
    rewrite lstrip_cons by now rewrite (isspace_ascii _ HU).
    no_keyword. decide_eqc. cbv iota.
    rewrite <- !app_assoc.
    change (lit "C:" ++ ?x) with (chr "C" :: chr ":" :: x).
    rewrite lstrip_cons by now rewrite (isspace_ascii _ HU).
    decide_eqc. cbv iota.
    change (startswith (chr "C" :: chr ":" :: ?x) (lit "C:")) with (startswith x []).
    replace (startswith (str_of_int cid ++ items ++ [chr "}"] ++ rest) []) with true
      by now destruct (str_of_int cid ++ items ++ [chr "}"] ++ rest).
    cbn [drop]. change ([chr "}"] ++ rest) with (chr "}" :: rest).
    rewrite drop_0. rewrite (_read_number_str_int HU) by apply delim_fields.
    unfold to_int. rewrite py_int_str_of_int. cbn [mbind outcome_bind].
    subst items. rewrite _parse_contract_fields by (assumption || lia).
    rewrite (dict_set_all_fresh (λ t, field_name t.1) (λ t, decoding t.2));
      [reflexivity|exact Hnd'].
  - apply py_eq_dict.
    + cbn [length]. rewrite length_map, Hsorted.
      apply Permutation_length in Hnames. cbn [length] in Hnames.
      rewrite !length_map in Hnames. lia.
    + apply Forall_forall. intros [k x] Hx. cbn [fst snd].
      rewrite Forall_forall in Hkeys.
      destruct (Hkeys k) as [->|[idx ->]].
      { apply list_elem_of_fmap. now exists (k, x). }
      * exists (VInt cid). cbn [dict_lookup]. rewrite str_eqb_refl.
        split; [reflexivity|].
        rewrite (dict_lookup_NoDup _ _ _ Hnd Hx) in Hcid. injection Hcid as ->.
        cbn. apply Z.eqb_refl.
      * exists (decoding x). split.
        -- apply dict_lookup_NoDup.
           ++ cbn [fmap list_fmap fst]. now rewrite <- list_fmap_compose.
           ++ right. apply list_elem_of_fmap. exists (idx, x).
              split; [reflexivity|]. rewrite Hsorted. now apply fields_of_elem.
        -- rewrite Forall_forall in Hall.
           now destruct (Hall _ Hx) as (_ & _ & _ & ?).
Qed.

(** *** Every value of the domain *)

Lemma lct_value_list (l : list Value) :
  foldr (λ x P, lct_value x ∧ P) True l ↔ Forall lct_value l.
Proof.
  induction l as [|x l IH]; cbn [foldr].
  - split; [constructor|easy].
  - rewrite Forall_cons, IH. reflexivity.
Qed.

Lemma lct_value_items (d : list (str * Value)) :
  foldr (λ kv P, lct_value kv.2 ∧ P) True d ↔ Forall (λ kv, lct_value kv.2) d.
Proof.
  induction d as [|x d IH]; cbn [foldr].
  - split; [constructor|easy].
  - rewrite Forall_cons, IH. reflexivity.
Qed.

Lemma lct_value_round_trips (v : Value) : lct_value v → round_trips v.
Proof.
  induction v as [|b|n|s|b|l IH|d IH] using Value_ind'; intros Hv.
  - apply (round_trips_None HU).
  - apply (round_trips_Bool HU).
  - apply (round_trips_Int HU).
  - destruct Hv as [Hs|(name & -> & Hname)].
    + now apply (round_trips_text HU).
    + now apply (round_trips_handle HU).
  - now apply (round_trips_Bytes HU).
  - apply round_trips_List. cbn [lct_value] in Hv. apply lct_value_list in Hv.
    rewrite Forall_forall in IH, Hv |- *. auto.
  - cbn [lct_value] in Hv. destruct Hv as (Hnd & Hkeys & Hd).
    apply lct_value_items in Hd.
    assert (Hall : Forall (λ kv, round_trips kv.2) d).
    { rewrite Forall_forall in IH, Hd |- *. auto. }
    destruct Hkeys; [now apply round_trips_object|now apply round_trips_contract].
Qed.

End LCT_containers.

(** *** The table for Latin-1 *)

Lemma in_ranges_true (ranges : list (N * N)) (c : char) :
  in_ranges ranges c = true ↔ Exists (λ r, (r.1 ≤ c ≤ r.2)%N) ranges.
Proof.
  unfold in_ranges. rewrite existsb_exists, Exists_exists.
  split; intros (r & Hr & H); exists r.
  - apply list_elem_of_In in Hr. split; [exact Hr|].
    apply andb_true_iff in H as [H1 H2]. apply N.leb_le in H1, H2. lia.
  - apply list_elem_of_In in Hr. split; [exact Hr|].
    apply andb_true_iff. split; apply N.leb_le; lia.
Qed.

Lemma in_ranges_ascii (low high : list (N * N)) (c : char) :
  (c < 128)%N → Forall (λ r, (128 ≤ r.1)%N) high →
  in_ranges (low ++ high) c = in_ranges low c.
Proof.
  intros Hc Hhigh. unfold in_ranges. rewrite existsb_app.
  replace (existsb _ high) with false; [apply orb_false_r|].
  symmetry. apply not_true_is_false. intros (r & Hr & H)%existsb_exists.
  apply list_elem_of_In in Hr. rewrite Forall_forall in Hhigh.
  specialize (Hhigh r Hr). apply andb_true_iff in H as [H _].
  apply N.leb_le in H. lia.
Qed.

Lemma latin1_faithful : ascii_faithful latin1.
Proof.
  split.
  - intros c Hc.
    apply (in_ranges_ascii [(9, 13); (28, 32)]%N [(0x85, 0x85); (0xA0, 0xA0)]%N);
      [exact Hc|]. repeat constructor; cbn; lia.
  - intros c Hc.
    apply (in_ranges_ascii [(48, 57)]%N [(0xB2, 0xB3); (0xB9, 0xB9)]%N);
      [exact Hc|]. repeat constructor; cbn; lia.
  - intros c Hc.
    apply (in_ranges_ascii [(48, 57); (65, 90); (97, 122)]%N
             [(0xAA, 0xAA); (0xB2, 0xB3); (0xB5, 0xB5); (0xB9, 0xBA); (0xBC, 0xBE);
              (0xC0, 0xD6); (0xD8, 0xF6); (0xF8, 0xFF)]%N);
      [exact Hc|]. repeat constructor; cbn; lia.
  - intros c Hc. apply not_true_is_false. intros Hs.
    apply in_ranges_true in Hc, Hs.
    apply Exists_exists in Hc as (r & Hr & Hc).
    apply Exists_exists in Hs as (r' & Hr' & Hs).
    repeat (apply elem_of_cons in Hr' as [->|Hr']);
      [..|now apply elem_of_nil in Hr'];
      (repeat (apply elem_of_cons in Hr as [->|Hr]);
       [..|now apply elem_of_nil in Hr]);
      cbn [fst snd] in Hc, Hs; lia.
Qed.

(** *** The round trip of LC-T *)




(** ** The LC-R round trip *)

(** *** The table as shipped *)

(** No character of a text is equal to a glyph of the shipped table, so
    the decoder stops at the first character of whatever it is given. *)
Lemma shipped_glyph_never (name : LCR.glyph_name) (char : char) :
  LCR.is_glyph LCR.LC_R_GLYPHS name char = false.
Proof. unfold LCR.is_glyph. apply str_eqb_neq. destruct name; discriminate. Qed.

Lemma decode_lcr_raises {U : UCD} (lcr_str : str) :
  LCR.decode_lcr lcr_str = Raise LCR.ValueError.
Proof.
  unfold LCR.decode_lcr, LCR.decode.
  replace (2 * length lcr_str + 1)%nat with (S (2 * length lcr_str)) by lia.
  destruct lcr_str as [|char rest]; [reflexivity|].
  cbn [LCR._parse_value]. now rewrite !shipped_glyph_never.
Qed.

(** *** Glyphs of one code point *)

Ltac decide_glyph :=
  repeat match goal with
    | |- context [bool_decide (?a = ?b)] =>
        let r := eval vm_compute in (bool_decide (a = b)) in
        match r with
        | true => change (bool_decide (a = b)) with true
        | false => change (bool_decide (a = b)) with false
        end
    end.

Section LCR_glyphs.
Import LCR LCR_round_trip.
Context {U : UCD} (HU : ascii_faithful U) (g : glyphs) (HG : glyphs_ok g).

Lemma is_glyph_code (m n : glyph_name) :
  is_glyph g n (glyph_code g m) = bool_decide (m = n).
Proof.
  unfold is_glyph, str_eqb. rewrite (glyph_single g HG n).
  apply bool_decide_ext. split.
  - intros [= H]. now apply (glyph_inj g HG).
  - now intros ->.
Qed.

Lemma is_glyph_ascii (n : glyph_name) (c : char) :
  (c < 128)%N → is_glyph g n c = false.
Proof.
  intros Hc. unfold is_glyph. rewrite (glyph_single g HG n).
  apply str_eqb_neq. intros [= ->]. pose proof (glyph_high g HG n). lia.
Qed.

Lemma is_lc_r_glyph_code (n : glyph_name) : is_lc_r_glyph g (glyph_code g n) = true.
Proof.
  unfold is_lc_r_glyph. apply existsb_exists. exists n. split.
  - destruct n; cbn; repeat (first [left; reflexivity|right]).
  - rewrite (glyph_single g HG n). apply str_eqb_refl.
Qed.

Lemma is_lc_r_glyph_inv (c : char) :
  is_lc_r_glyph g c = true → ∃ n, c = glyph_code g n.
Proof.
  unfold is_lc_r_glyph. intros (n & _ & H)%existsb_exists. exists n.
  rewrite (glyph_single g HG n) in H. unfold str_eqb in H.
  apply bool_decide_eq_true in H. congruence.
Qed.

Lemma is_lc_r_glyph_ascii (c : char) : (c < 128)%N → is_lc_r_glyph g c = false.
Proof.
  intros Hc. apply not_true_is_false. intros [n ->]%is_lc_r_glyph_inv.
  pose proof (glyph_high g HG n). lia.
Qed.

Lemma follows_glyph (n : glyph_name) (rest : str) :
  follows g (glyph_code g n :: rest).
Proof. unfold follows. now rewrite is_lc_r_glyph_code. Qed.

Lemma follows_cases (c : char) (rest : str) :
  follows g (c :: rest) →
  (∃ n, c = glyph_code g n) ∨ c = chr "]" ∨ c = chr "}".
Proof.
  unfold follows. intros [[H|H]%orb_true_iff|H]%orb_true_iff.
  - left. now apply is_lc_r_glyph_inv.
  - right. left. now apply N.eqb_eq in H.
  - right. right. now apply N.eqb_eq in H.
Qed.

Lemma number_char_high (c : char) :
  (128 ≤ c)%N → contains (lit ".-+e") c = false.
Proof.
  intros Hc. unfold contains. cbn.
  repeat (rewrite (proj2 (N.eqb_neq c _)) by lia). reflexivity.
Qed.

(** *** The readers on what the encoder writes *)

Lemma follows_number (rest : str) :
  follows g rest →
  match rest with
  | [] => True
  | c :: _ => isdigit c || contains (lit ".-+e") c = false
  end.
Proof.
  destruct rest as [|c rest]; [easy|].
  intros [[n ->]|[->| ->]]%follows_cases.
  - now rewrite (glyph_not_digit g HG), number_char_high by apply (glyph_high g HG).
  - now rewrite (isdigit_ascii _ HU).
  - now rewrite (isdigit_ascii _ HU).
Qed.

Lemma follows_stop (rest : str) :
  follows g rest →
  match rest with
  | [] => True
  | c :: _ => negb (is_lc_r_glyph g c || structural_marker c) = false
  end.
Proof.
  destruct rest as [|c rest]; [easy|].
  intros [[n ->]|[->| ->]]%follows_cases.
  - now rewrite is_lc_r_glyph_code.
  - unfold structural_marker. decide_eqc. now rewrite orb_true_r.
  - unfold structural_marker. decide_eqc. now rewrite orb_true_r.
Qed.

Lemma lcr_read_number_int (n : Z) (rest : str) :
  follows g rest → _read_number (str_of_int n ++ rest) = (str_of_int n, rest).
Proof.
  intros Hrest. unfold _read_number. apply span_all; [|now apply follows_number].
  eapply Forall_impl; [apply str_of_int_chars|].
  intros c [->|Hc]; [apply orb_true_r|].
  now rewrite (is_digit_isdigit HU).
Qed.

Lemma strip_clean (s : str) : Forall (λ c, isspace c = false) s → strip s = s.
Proof.
  intros Hs. destruct s as [|c s]; [reflexivity|].
  unfold strip. rewrite lstrip_cons by now inversion Hs.
  unfold rstrip. apply Forall_rev in Hs.
  destruct (rev (c :: s)) as [|z r] eqn:E.
  - apply (f_equal (@rev _)) in E. rewrite rev_involutive in E. discriminate.
  - rewrite lstrip_cons by now inversion Hs.
    rewrite <- E. apply rev_involutive.
Qed.

Lemma _read_until_glyph_clean (name rest : str) :
  Forall (λ c, isspace c || is_lc_r_glyph g c || structural_marker c = false) name →
  match rest with
  | [] => True
  | c :: _ => negb (is_lc_r_glyph g c || structural_marker c) = false
  end →
  _read_until_glyph g (name ++ rest) = (name, rest).
Proof.
  intros Hname Hrest. unfold _read_until_glyph.
  rewrite span_all; [|eapply Forall_impl; [exact Hname|]|exact Hrest].
  - rewrite strip_clean; [reflexivity|].
    eapply Forall_impl; [exact Hname|]. cbn beta. intros c H.
    now apply orb_false_iff in H as [[H _]%orb_false_iff _].
  - cbn beta. intros c H.
    apply orb_false_iff in H as [[_ H1]%orb_false_iff H2]. now rewrite H1, H2.
Qed.

Lemma clean_ascii (c : char) :
  (c < 128)%N → isspace c = false → structural_marker c = false →
  isspace c || is_lc_r_glyph g c || structural_marker c = false.
Proof. intros Hc -> ->. now rewrite is_lc_r_glyph_ascii. Qed.

Lemma str_of_int_clean (n : Z) :
  Forall (λ c, isspace c || is_lc_r_glyph g c || structural_marker c = false)
    (str_of_int n).
Proof.
  eapply Forall_impl; [apply str_of_int_chars|]. cbn beta. intros c Hc.
  apply clean_ascii.
  - destruct Hc as [->|Hc]; [reflexivity|unfold is_digit in Hc; lia].
  - now apply (sign_or_digit_isspace HU).
  - destruct Hc as [->|Hc]; [reflexivity|].
    unfold structural_marker. revert Hc. compare_chars.
Qed.

Lemma hex_str_clean (b : bytes) :
  Forall (λ x, 0 ≤ x < 256) b →
  Forall (λ c, isspace c || is_lc_r_glyph g c || structural_marker c = false)
    (hex_str b).
Proof.
  assert (Hd : ∀ y, 0 ≤ y < 16 →
    isspace (chr (hex_digit y)) || is_lc_r_glyph g (chr (hex_digit y))
      || structural_marker (chr (hex_digit y)) = false).
  { intros y Hy. nibble_cases Hy;
      (apply clean_ascii; [reflexivity|now rewrite (isspace_ascii _ HU)|reflexivity]). }
  induction 1 as [|x b Hx _ IH]; [constructor|].
  destruct (byte_nibbles x Hx) as (Hh & Hl & _).
  unfold hex_str in *. cbn [hex lit list_ascii_of_string map].
  constructor; [now apply Hd|]. constructor; [now apply Hd|exact IH].
Qed.

Lemma replace_char_absent (c : char) (new s : str) :
  contains s c = false → replace_char c new s = s.
Proof.
  unfold contains, replace_char. induction s as [|d s IH]; [reflexivity|].
  cbn [existsb flat_map]. intros [H1 H2]%orb_false_iff.
  rewrite N.eqb_sym, H1. cbn [app]. now rewrite IH.
Qed.

Lemma _read_string_loop_escaped (s acc rest : str) :
  contains s backslash = false →
  _read_string_loop (replace_char quote [backslash; quote] s ++ quote :: rest) acc false
  = Ok (acc ++ s, rest).
Proof.
  revert acc. induction s as [|c s IH]; intros acc Hs.
  - cbn. now rewrite app_nil_r.
  - unfold contains in Hs. cbn [existsb] in Hs.
    apply orb_false_iff in Hs as [Hc Hs]. rewrite N.eqb_sym in Hc.
    unfold replace_char in *. cbn [flat_map].
    replace (acc ++ c :: s) with ((acc ++ [c]) ++ s) by now rewrite <- app_assoc.
    destruct (N.eqb_spec c quote) as [->|Hq].
    + cbn [app _read_string_loop]. change (backslash =? backslash)%N with true.
      cbv iota. now apply IH.
    + cbn [app _read_string_loop]. apply N.eqb_neq in Hq. rewrite Hc, Hq.
      now apply IH.
Qed.

End LCR_glyphs.

(** *** Scalars *)

Section LCR_values.
Import LCR LCR_round_trip.
Context {U : UCD} (HU : ascii_faithful U) (g : glyphs) (HG : glyphs_ok g).

Ltac dispatch :=
  rewrite ?(is_glyph_code g HG); decide_glyph; cbv iota.

Lemma lcr_round_trips_intro (v : Value) (name : glyph_name) (e : str) (v' : Value) :
  encode g v = Ok (glyph_code g name :: e) →
  decodes_to g (glyph_code g name :: e) v' → py_eq v v' = true →
  round_trips g v.
Proof.
  intros He Hd Hp.
  assert (Ee : encoding g v = glyph_code g name :: e)
    by (unfold encoding; now rewrite He).
  assert (Ed : decoding g v = v').
  { unfold decoding. rewrite Ee.
    specialize (Hd (2 * length (glyph_code g name :: e) + 1)%nat [] I (le_n _)).
    rewrite app_nil_r in Hd. now rewrite Hd. }
  unfold round_trips. rewrite Ee, Ed. eauto 6.
Qed.

Lemma glyph_not_ascii (a : ascii) (name : glyph_name) :
  (chr a < 128)%N → eqc a (glyph_code g name) = false.
Proof.
  intros Ha. apply N.eqb_neq. pose proof (glyph_high g HG name). lia.
Qed.

Lemma lcr_round_trips_None : round_trips g VNone.
Proof.
  apply (lcr_round_trips_intro _ NULL [] VNone); [|  |reflexivity].
  - cbn [encode]. now rewrite (glyph_single g HG).
  - intros fuel rest Hrest Hfuel. destruct fuel as [|fuel]; [cbn in Hfuel; lia|].
    cbn [app _parse_value]. now dispatch.
Qed.

Lemma lcr_round_trips_Bool (b : bool) : round_trips g (VBool b).
Proof.
  destruct b.
  - apply (lcr_round_trips_intro _ TRUE [] (VBool true)); [|  |reflexivity].
    + cbn [encode]. now rewrite (glyph_single g HG).
    + intros fuel rest Hrest Hfuel. destruct fuel as [|fuel]; [cbn in Hfuel; lia|].
      cbn [app _parse_value]. now dispatch.
  - apply (lcr_round_trips_intro _ FALSE [] (VBool false)); [|  |reflexivity].
    + cbn [encode]. now rewrite (glyph_single g HG).
    + intros fuel rest Hrest Hfuel. destruct fuel as [|fuel]; [cbn in Hfuel; lia|].
      cbn [app _parse_value]. now dispatch.
Qed.

Lemma lcr_round_trips_Int (n : Z) : round_trips g (VInt n).
Proof.
  apply (lcr_round_trips_intro _ INT (str_of_int n) (VInt n));
    [| |cbn; apply Z.eqb_refl].
  - cbn [encode]. now rewrite (glyph_single g HG).
  - intros fuel rest Hrest Hfuel. destruct fuel as [|fuel]; [cbn in Hfuel; lia|].
    cbn [app _parse_value]. dispatch.
    rewrite (lcr_read_number_int HU g HG) by exact Hrest.
    unfold to_int. now rewrite py_int_str_of_int.
Qed.

Lemma lcr_round_trips_text (s : str) : plain_text s → round_trips g (VStr s).
Proof.
  intros [Hs Hb].
  apply (lcr_round_trips_intro _ TEXT
           (quote :: replace_char quote [backslash; quote] s ++ [quote]) (VStr s)).
  - cbn [encode]. rewrite Hs. now rewrite (glyph_single g HG).
  - intros fuel rest Hrest Hfuel. destruct fuel as [|fuel]; [cbn in Hfuel; lia|].
    cbn [app _parse_value]. dispatch.
    cbn [_read_string]. change (quote =? quote)%N with true. cbv iota.
    rewrite <- app_assoc. cbn [app].
    now rewrite _read_string_loop_escaped by exact Hb.
  - cbn. apply str_eqb_refl.
Qed.

Lemma startswith_nil (s : str) : startswith s [] = true.
Proof. now destruct s. Qed.

Lemma lcr_round_trips_handle (name : str) :
  handle_name g name → round_trips g (VStr (chr "&" :: name)).
Proof.
  intros Hname.
  apply (lcr_round_trips_intro _ HANDLE name (VStr (chr "&" :: name))).
  - cbn [encode]. change (startswith (chr "&" :: name) (lit "&"))
      with ((chr "&" =? chr "&")%N && startswith name []).
    rewrite startswith_nil. cbn [andb orb N.eqb Pos.eqb chr N_of_ascii N_of_digits].
    cbn. now rewrite (glyph_single g HG).
  - intros fuel rest Hrest Hfuel. destruct fuel as [|fuel]; [cbn in Hfuel; lia|].
    cbn [app _parse_value]. dispatch.
    now rewrite _read_until_glyph_clean
      by (assumption || now apply (follows_stop g HG)).
  - cbn. apply str_eqb_refl.
Qed.

Lemma lcr_round_trips_Bytes (b : bytes) :
  Forall (λ x, 0 ≤ x < 256) b → round_trips g (VBytes b).
Proof.
  intros Hb.
  apply (lcr_round_trips_intro _ BYTES (hex_str b) (VBytes b)).
  - cbn [encode]. now rewrite (glyph_single g HG).
  - intros fuel rest Hrest Hfuel. destruct fuel as [|fuel]; [cbn in Hfuel; lia|].
    cbn [app _parse_value]. dispatch.
    rewrite _read_until_glyph_clean
      by (now apply (hex_str_clean HU g HG) || now apply (follows_stop g HG)).
    now rewrite fromhex_hex_str.
  - cbn. now apply bool_decide_eq_true.
Qed.


(** *** Arrays *)

Lemma round_trips_start (v : Value) (rest : str) :
  round_trips g v →
  ∃ name e, encoding g v ++ rest = glyph_code g name :: e ++ rest.
Proof. intros (_ & (name & e & ->) & _). now exists name, e. Qed.

Lemma follows_bracket (rest : str) : follows g (chr "]" :: rest).
Proof. unfold follows. decide_eqc. now rewrite orb_true_r. Qed.

Lemma follows_brace (rest : str) : follows g (chr "}" :: rest).
Proof. unfold follows. decide_eqc. now rewrite orb_true_r. Qed.

Lemma skip_separator_glyph (rest : str) :
  skip_separator g (glyph_code g SEPARATOR :: rest) = rest.
Proof. unfold skip_separator. now dispatch. Qed.

Lemma skip_separator_ascii (c : char) (rest : str) :
  (c < 128)%N → skip_separator g (c :: rest) = c :: rest.
Proof. intros Hc. unfold skip_separator. now rewrite (is_glyph_ascii g HG). Qed.

Lemma lcr_parse_array_elements (l : list Value) :
  Forall (round_trips g) l →
  ∀ acc fuel rest,
    (2 * length (join (g SEPARATOR) (map (encoding g) l)) + 2 ≤ fuel)%nat →
    _parse_array g fuel
      (join (g SEPARATOR) (map (encoding g) l) ++ chr "]" :: rest) acc
    = Ok (VList (acc ++ map (decoding g) l), rest).
Proof.
  induction 1 as [|x l Hx Hl IH]; intros acc fuel rest Hfuel.
  - destruct fuel as [|fuel]; [lia|].
    cbn [map join app _parse_array]. decide_eqc. now rewrite app_nil_r.
  - destruct (round_trips_start x [] Hx) as (name & e & Hstart).
    rewrite !app_nil_r in Hstart.
    destruct Hx as (_ & _ & Hx & _).
    assert (Hjoin : ∃ tail,
      join (g SEPARATOR) (map (encoding g) (x :: l)) ++ chr "]" :: rest
      = encoding g x ++ tail
      ∧ follows g tail
      ∧ skip_separator g tail
        = join (g SEPARATOR) (map (encoding g) l) ++ chr "]" :: rest
      ∧ (length (join (g SEPARATOR) (map (encoding g) l)) + length (encoding g x)
         ≤ length (join (g SEPARATOR) (map (encoding g) (x :: l))))%nat).
    { destruct l as [|y l].
      - exists (chr "]" :: rest). cbn [map join app].
        split; [reflexivity|]. split; [apply follows_bracket|].
        split; [now apply skip_separator_ascii|cbn [length]; lia].
      - exists (glyph_code g SEPARATOR
                :: join (g SEPARATOR) (map (encoding g) (y :: l)) ++ chr "]" :: rest).
        change (map (encoding g) (x :: y :: l))
          with (encoding g x :: map (encoding g) (y :: l)).
        change (join (g SEPARATOR) (encoding g x :: map (encoding g) (y :: l)))
          with (encoding g x ++ g SEPARATOR
                ++ join (g SEPARATOR) (map (encoding g) (y :: l))).
        rewrite (glyph_single g HG SEPARATOR), <- !app_assoc.
        split; [reflexivity|]. split; [apply (follows_glyph g HG)|].
        split; [apply skip_separator_glyph|].
        rewrite !length_app. cbn [length]. lia. }
    destruct Hjoin as (tail & -> & Htail & Hskip & Hlen).
    assert (1 ≤ length (encoding g x))%nat by (rewrite Hstart; cbn [length]; lia).
    destruct fuel as [|fuel]; [lia|].
    rewrite Hstart at 1. cbn [app _parse_array].
    rewrite glyph_not_ascii by reflexivity.
    change (glyph_code g name :: e ++ tail) with ((glyph_code g name :: e) ++ tail).
    rewrite <- Hstart, Hx by (assumption || lia).
    cbn [mbind outcome_bind]. rewrite Hskip, IH by lia.
    cbn [map]. now rewrite <- app_assoc.
Qed.

Lemma lcr_round_trips_List (l : list Value) :
  Forall (round_trips g) l → round_trips g (VList l).
Proof.
  intros Hall.
  set (body := join (g SEPARATOR) (map (encoding g) l)).
  apply (lcr_round_trips_intro _ ARRAY (chr "[" :: body ++ [chr "]"])
           (VList (map (decoding g) l))).
  - cbn [encode].
    rewrite (for_each_map (encode g) (encoding g))
      by (eapply Forall_impl; [exact Hall|]; now intros ? (? & _)).
    cbn [mbind outcome_bind]. now rewrite (glyph_single g HG ARRAY).
  - intros fuel rest Hrest Hfuel. cbn [length] in Hfuel.
    rewrite length_app in Hfuel. cbn [length] in Hfuel.
    destruct fuel as [|fuel]; [lia|].
    cbn [app _parse_value]. dispatch. decide_eqc. cbv iota.
    rewrite <- app_assoc. cbn [app]. subst body.
    now rewrite lcr_parse_array_elements by (assumption || lia).
  - apply py_eq_list. eapply Forall_impl; [exact Hall|]. now intros ? (_ & _ & _ & ?).
Qed.

(** *** Objects *)

Lemma lcr_read_string_key (k rest : str) :
  key_text k → _read_string (quote :: k ++ quote :: rest) = Ok (k, rest).
Proof.
  intros [Hq Hb]. cbn [_read_string]. change (quote =? quote)%N with true. cbv iota.
  rewrite <- (replace_char_absent quote [backslash; quote] k Hq) at 1.
  now rewrite _read_string_loop_escaped by exact Hb.
Qed.

Lemma lcr_parse_object_item (fuel : nat) (kv : str * Value) (tail : str)
    (result : list (str * Value)) :
  key_text kv.1 → round_trips g kv.2 → follows g tail →
  (2 * length (encoding g kv.2) + 1 ≤ fuel)%nat →
  _parse_object g (S fuel) (object_part g kv ++ tail) result
  = _parse_object g fuel (skip_separator g tail)
      (dict_set result kv.1 (decoding g kv.2)).
Proof.
  intros Hk (_ & _ & Hv & _) Htail Hfuel. unfold object_part.
  rewrite !(glyph_single g HG). cbn [app]. rewrite <- !app_assoc. cbn [app].
  cbn [_parse_object]. rewrite glyph_not_ascii by reflexivity. dispatch.
  cbn [negb]. rewrite lcr_read_string_key by exact Hk.
  cbn [mbind outcome_bind]. dispatch.
  fold (_parse_value g) (_parse_object g).
  rewrite Hv by assumption. reflexivity.
Qed.

Lemma lcr_parse_object_items (d : list (str * Value)) :
  Forall (λ kv, key_text kv.1 ∧ round_trips g kv.2) d →
  ∀ result fuel rest,
    (2 * length (join (g SEPARATOR) (map (object_part g) d)) + 2 ≤ fuel)%nat →
    _parse_object g fuel
      (join (g SEPARATOR) (map (object_part g) d) ++ chr "}" :: rest) result
    = Ok (VDict (foldl (λ r kv, dict_set r kv.1 (decoding g kv.2)) result d), rest).
Proof.
  induction 1 as [|kv d [Hk Hv] Hd IH]; intros result fuel rest Hfuel.
  - destruct fuel as [|fuel]; [lia|].
    cbn [map join app _parse_object]. now decide_eqc.
  - assert (Hjoin : ∃ tail,
      join (g SEPARATOR) (map (object_part g) (kv :: d)) ++ chr "}" :: rest
      = object_part g kv ++ tail
      ∧ follows g tail
      ∧ skip_separator g tail
        = join (g SEPARATOR) (map (object_part g) d) ++ chr "}" :: rest
      ∧ (length (join (g SEPARATOR) (map (object_part g) d))
         + length (object_part g kv)
         ≤ length (join (g SEPARATOR) (map (object_part g) (kv :: d))))%nat).
    { destruct d as [|kv' d].
      - exists (chr "}" :: rest). cbn [map join app].
        split; [reflexivity|]. split; [apply follows_brace|].
        split; [now apply skip_separator_ascii|cbn [length]; lia].
      - exists (glyph_code g SEPARATOR
                :: join (g SEPARATOR) (map (object_part g) (kv' :: d)) ++ chr "}" :: rest).
        change (map (object_part g) (kv :: kv' :: d))
          with (object_part g kv :: map (object_part g) (kv' :: d)).
        change (join (g SEPARATOR) (object_part g kv :: map (object_part g) (kv' :: d)))
          with (object_part g kv ++ g SEPARATOR
                ++ join (g SEPARATOR) (map (object_part g) (kv' :: d))).
        rewrite (glyph_single g HG SEPARATOR), <- !app_assoc.
        split; [reflexivity|]. split; [apply (follows_glyph g HG)|].
        split; [apply skip_separator_glyph|].
        rewrite !length_app. cbn [length]. lia. }
    destruct Hjoin as (tail & -> & Htail & Hskip & Hlen).
    assert (length (encoding g kv.2) < length (object_part g kv))%nat.
    { unfold object_part. rewrite !(glyph_single g HG), !length_app.
      cbn [length]. rewrite !length_app. cbn [length]. lia. }
    destruct fuel as [|fuel]; [lia|].
    rewrite lcr_parse_object_item by (assumption || lia).
    rewrite Hskip. cbn [foldl]. apply IH. lia.
Qed.

Lemma lcr_round_trips_object (d : list (str * Value)) :
  NoDup d.*1 → object_keys d.*1 → Forall (λ kv, round_trips g kv.2) d →
  round_trips g (VDict d).
Proof.
  intros Hnd (Hkeys & Hcid) Hall.
  set (body := join (g SEPARATOR) (map (object_part g) d)).
  assert (Hitems : Forall (λ kv, key_text kv.1 ∧ round_trips g kv.2) d).
  { rewrite Forall_fmap in Hkeys. apply Forall_and. now split. }
  apply (lcr_round_trips_intro _ OBJECT (chr "{" :: body ++ [chr "}"])
           (VDict (map (λ kv, (kv.1, decoding g kv.2)) d))).
  - cbn [encode]. unfold dict_mem. rewrite dict_lookup_None by exact Hcid.
    rewrite (for_each_map _ (object_part g)).
    + cbn [mbind outcome_bind]. now rewrite (glyph_single g HG OBJECT).
    + eapply Forall_impl; [exact Hall|]. intros [k v] (He & _). cbn [snd] in He.
      now rewrite He.
  - intros fuel rest Hrest Hfuel. cbn [length] in Hfuel.
    rewrite length_app in Hfuel. cbn [length] in Hfuel.
    destruct fuel as [|fuel]; [lia|].
    cbn [app _parse_value]. dispatch. decide_eqc. cbv iota.
    rewrite <- app_assoc. cbn [app]. subst body.
    rewrite lcr_parse_object_items by (assumption || lia).
    now rewrite (dict_set_all_fresh fst (λ kv, decoding g kv.2)).
  - apply py_eq_dict; [now rewrite length_map|].
    apply Forall_forall. intros [k x] Hx. exists (decoding g x). cbn [fst snd]. split.
    + apply dict_lookup_NoDup.
      * now rewrite <- list_fmap_compose.
      * apply list_elem_of_fmap. now exists (k, x).
    + rewrite Forall_forall in Hall. now apply (Hall (k, x)).
Qed.


(** *** Contracts *)

Lemma encode_fields_text (d : list (str * Value)) (idx : Z) :
  Forall (λ kv, encode g kv.2 = Ok (encoding g kv.2)) d →
  encode_fields g (encode g) d idx = Ok (contract_text g idx (fields_of d)).
Proof.
  intros H. revert idx. induction H as [|[k v] d Hv _ IH]; intros idx; [reflexivity|].
  cbn [encode_fields]. unfold fields_of in *. cbn [snd] in Hv.
  destruct (decide (k = lit "contract_id")) as [->|Hk].
  - rewrite str_eqb_refl, filter_cons_False by (intros H; now apply H). apply IH.
  - rewrite str_eqb_neq by exact Hk. rewrite filter_cons_True by exact Hk.
    now rewrite Hv, IH.
Qed.

Lemma fields_of_keys (d : list (str * Value)) :
  (fields_of d).*1 = filter (λ key, key ≠ lit "contract_id") d.*1.
Proof.
  unfold fields_of. induction d as [|[k v] d IH]; [reflexivity|].
  cbn [fmap list_fmap fst].
  destruct (decide (k = lit "contract_id")) as [->|Hk].
  - rewrite !filter_cons_False by (intros H; now apply H). exact IH.
  - rewrite !filter_cons_True by exact Hk. cbn [fmap list_fmap fst]. now rewrite IH.
Qed.

Lemma lcr_contract_names (d : list (str * Value)) (cid : Value) :
  NoDup d.*1 → dict_lookup d (lit "contract_id") = Some cid →
  lit "contract_id" :: (fields_of d).*1 ≡ₚ d.*1.
Proof.
  intros Hnd Hcid. rewrite fields_of_keys. apply NoDup_extract; [exact Hnd|].
  apply dict_lookup_elem in Hcid. apply list_elem_of_fmap.
  now exists (lit "contract_id", cid).
Qed.

Lemma lcr_parse_contract_field (fuel : nat) (idx : Z) (v : Value) (tail : str)
    (result : list (str * Value)) :
  round_trips g v → follows g tail → (2 * length (encoding g v) + 1 ≤ fuel)%nat →
  _parse_contract g (S fuel)
    (g FIELD ++ str_of_int idx ++ lit " " ++ encoding g v ++ tail) result
  = _parse_contract g fuel tail (dict_set result (field_name idx) (decoding g v)).
Proof.
  intros Hv Htail Hfuel.
  destruct (round_trips_start v tail Hv) as (name & e & Hstart).
  destruct Hv as (_ & _ & Hv & _).
  rewrite (glyph_single g HG FIELD). cbn [app].
  cbn [_parse_contract]. dispatch. cbn [negb].
  rewrite _read_until_glyph_clean;
    [|now apply (str_of_int_clean HU g HG)|cbn; now rewrite orb_true_r].
  rewrite strip_clean.
  2:{ eapply Forall_impl; [apply str_of_int_chars|].
      intros c. apply (sign_or_digit_isspace HU). }
  unfold to_int. rewrite py_int_str_of_int. cbn [mbind outcome_bind].
  change (lit " " ++ ?x) with (chr " " :: x). cbn [skip_blanks]. decide_eqc. cbv iota.
  rewrite Hstart. cbn [skip_blanks]. rewrite glyph_not_ascii by reflexivity.
  rewrite <- Hstart. fold (_parse_value g) (_parse_contract g).
  rewrite Hv by assumption. reflexivity.
Qed.

Lemma follows_contract_text (idx : Z) (fs : list (str * Value)) (rest : str) :
  follows g (contract_text g idx fs ++ glyph_code g CONTRACT_END :: rest).
Proof.
  destruct fs as [|kv fs]; cbn [contract_text app].
  - apply (follows_glyph g HG).
  - rewrite (glyph_single g HG FIELD). apply (follows_glyph g HG).
Qed.

Lemma lcr_parse_contract_fields (fs : list (str * Value)) :
  Forall (λ kv, round_trips g kv.2) fs →
  ∀ idx result fuel rest,
    numbered idx fs.*1 →
    (2 * length (contract_text g idx fs) + 2 ≤ fuel)%nat →
    _parse_contract g fuel
      (contract_text g idx fs ++ glyph_code g CONTRACT_END :: rest) result
    = Ok (VDict (foldl (λ r kv, dict_set r kv.1 (decoding g kv.2)) result fs), rest).
Proof.
  induction 1 as [|kv fs Hv _ IH]; intros idx result fuel rest Hnum Hfuel.
  - destruct fuel as [|fuel]; [lia|].
    cbn [contract_text app _parse_contract]. now dispatch.
  - cbn [fmap list_fmap numbered] in Hnum. destruct Hnum as [Hkey Hnum].
    cbn [contract_text foldl] in Hfuel |- *.
    rewrite !length_app in Hfuel. change (length (lit " ")) with 1%nat in Hfuel.
    destruct fuel as [|fuel]; [lia|].
    rewrite <- !app_assoc.
    rewrite lcr_parse_contract_field
      by (assumption || apply follows_contract_text || lia).
    rewrite Hkey. apply IH; [exact Hnum|]. lia.
Qed.

Lemma lcr_round_trips_contract (d : list (str * Value)) :
  NoDup d.*1 → contract_keys d → Forall (λ kv, round_trips g kv.2) d →
  round_trips g (VDict d).
Proof.
  intros Hnd [[cid Hcid] Hnum] Hall.
  pose proof (lcr_contract_names d _ Hnd Hcid) as Hnames.
  fold (fields_of d) in Hnum. set (fs := fields_of d) in *.
  assert (Hfs : Forall (λ kv, round_trips g kv.2) fs).
  { rewrite Forall_forall in Hall |- *. intros kv Hkv. apply Hall.
    now apply list_elem_of_filter in Hkv as [_ ?]. }
  assert (Hnd' : NoDup (lit "contract_id" :: fs.*1)) by now rewrite Hnames.
  apply (lcr_round_trips_intro _ CONTRACT_START
           (str_of_int cid ++ contract_text g 0 fs ++ [glyph_code g CONTRACT_END])
           (VDict ((lit "contract_id", VInt cid)
                   :: map (λ kv, (kv.1, decoding g kv.2)) fs))).
  - cbn [encode]. unfold dict_mem. rewrite Hcid.
    cbn [default id str_ mbind outcome_bind].
    rewrite encode_fields_text
      by (eapply Forall_impl; [exact Hall|]; now intros ? (? & _)).
    cbn [mbind outcome_bind]. now rewrite !(glyph_single g HG).
  - intros fuel rest Hrest Hfuel. cbn [length] in Hfuel.
    rewrite !length_app in Hfuel. cbn [length] in Hfuel.
    destruct fuel as [|fuel]; [lia|].
    cbn [app _parse_value]. dispatch.
    rewrite <- !app_assoc. cbn [app].
    rewrite _read_until_glyph_clean;
      [|now apply (str_of_int_clean HU g HG)
       |apply (follows_stop g HG), follows_contract_text].
    unfold to_int. rewrite py_int_str_of_int. cbn [mbind outcome_bind].
    rewrite lcr_parse_contract_fields by (assumption || lia).
    now rewrite (dict_set_all_fresh fst (λ kv, decoding g kv.2)).
  - apply py_eq_dict.
    + cbn [length]. rewrite length_map.
      apply Permutation_length in Hnames. cbn [length] in Hnames.
      rewrite !length_fmap in Hnames. lia.
    + apply Forall_forall. intros [k x] Hx. cbn [fst snd].
      destruct (decide (k = lit "contract_id")) as [->|Hk].
      * exists (VInt cid). cbn [dict_lookup]. rewrite str_eqb_refl.
        split; [reflexivity|].
        rewrite (dict_lookup_NoDup _ _ _ Hnd Hx) in Hcid. injection Hcid as ->.
        cbn. apply Z.eqb_refl.
      * exists (decoding g x). split.
        -- apply dict_lookup_NoDup.
           ++ cbn [fmap list_fmap fst]. now rewrite <- list_fmap_compose.
           ++ right. apply list_elem_of_fmap. exists (k, x).
              split; [reflexivity|]. now apply list_elem_of_filter.
        -- rewrite Forall_forall in Hall.
           now destruct (Hall _ Hx) as (_ & _ & _ & ?).
Qed.

(** *** Every value of the domain *)

Lemma lcr_value_list (l : list Value) :
  foldr (λ x P, lcr_value g x ∧ P) True l ↔ Forall (lcr_value g) l.
Proof.
  induction l as [|x l IH]; cbn [foldr].
  - split; [constructor|easy].
  - rewrite Forall_cons, IH. reflexivity.
Qed.

Lemma lcr_value_items (d : list (str * Value)) :
  foldr (λ kv P, lcr_value g kv.2 ∧ P) True d ↔ Forall (λ kv, lcr_value g kv.2) d.
Proof.
  induction d as [|x d IH]; cbn [foldr].
  - split; [constructor|easy].
  - rewrite Forall_cons, IH. reflexivity.
Qed.

Lemma lcr_value_round_trips (v : Value) : lcr_value g v → round_trips g v.
Proof.
  induction v as [|b|n|s|b|l IH|d IH] using Value_ind'; intros Hv.
  - apply lcr_round_trips_None.
  - apply lcr_round_trips_Bool.
  - apply lcr_round_trips_Int.
  - destruct Hv as [Hs|(name & -> & Hname)].
    + now apply lcr_round_trips_text.
    + now apply lcr_round_trips_handle.
  - now apply lcr_round_trips_Bytes.
  - apply lcr_round_trips_List. cbn [lcr_value] in Hv. apply lcr_value_list in Hv.
    rewrite Forall_forall in IH, Hv |- *. auto.
  - cbn [lcr_value] in Hv. destruct Hv as (Hnd & Hkeys & Hd).
    apply lcr_value_items in Hd.
    assert (Hall : Forall (λ kv, round_trips g kv.2) d).
    { rewrite Forall_forall in IH, Hd |- *. auto. }
    destruct Hkeys;
      [now apply lcr_round_trips_object|now apply lcr_round_trips_contract].
Qed.

End LCR_values.

(** *** The documented table *)

Lemma documented_glyphs_ok : @LCR.glyphs_ok latin1 LCR.documented_glyphs.
Proof.
  split.
  - intros name. now destruct name.
  - intros m n H. destruct m, n; try reflexivity; vm_compute in H; discriminate H.
  - intros name. destruct name; vm_compute; discriminate.
  - intros name. now destruct name.
Qed.

(** *** The round trip of LC-R *)




